(** * BitMap (hotspot/share/utilities/bitMap.cpp) and the G1 old
      collection-set selection: a shallow embedding and its properties.

    Storage words are 64-bit unsigned integers ([bm_word_t], LP64), held as
    [Z] in [0, 2^64); indices ([idx_t], a 64-bit [size_t]) are [Z] with the
    wrap-around of unsigned arithmetic written out by [wrap].  The word
    array [_map] is a [list Z] read and written by position. *)

From Stdlib Require Import ZArith Lia List Bool QArith.
From stdpp Require Import base list.
Import ListNotations.

Local Open Scope Z_scope.

(** ** Machine words *)

(** Modelled from the spec: globalDefinitions.hpp is not under src/; the
    word-size constants are the LP64 ones ([bm_word_t] is a machine word,
    by the [STATIC_ASSERT] of bitMap.cpp). *)
Definition LogBitsPerWord : Z := 6.
Definition BitsPerWord : Z := 64.
Definition BytesPerWord : Z := 8.

(** Unsigned 64-bit wrap-around of [idx_t] and [bm_word_t] arithmetic. *)
Definition wrap (x : Z) : Z := x mod 2 ^ BitsPerWord.

(** [~w] on a 64-bit unsigned word. *)
Definition word_not (w : Z) : Z := wrap (Z.lnot w).

(** [~(bm_word_t)0]. *)
Definition all_ones : Z := word_not 0.

(** Modelled from the spec: (globalDefinitions.hpp is missing) [MIN2], the
    smaller of two values. *)
Definition MIN2 (a b : Z) : Z := if a <? b then a else b.

(** ** The word array *)

(** [map[i]]: reading a word.  Reading outside the allocated words is
    undefined in the source; the model reads 0 there, and every theorem
    below is under a validity hypothesis that keeps reads in range. *)
Definition word_at (m : list Z) (i : Z) : Z := default 0 (m !! Z.to_nat i).

(** [map[i] = w]: writing a word (nothing is written out of range). *)
Definition store (m : list Z) (i : Z) (w : Z) : list Z := <[Z.to_nat i := w]> m.

(** ** Index arithmetic of bitMap.hpp *)

(** Modelled from the spec: bitMap.hpp and bitMap.inline.hpp are not under
    src/; the spec's data model is a word-packed bit vector, bit [i] living
    in word [i / word_width] at position [i mod word_width].
    [bit_in_word(bit) = bit & (BitsPerWord - 1)]. *)
Definition bit_in_word (bit : Z) : Z := Z.land bit (BitsPerWord - 1).

(** Modelled from the spec: (bitMap.hpp is missing) the index of the word
    holding a bit, [bit >> LogBitsPerWord]. *)
Definition word_index (bit : Z) : Z := Z.shiftr bit LogBitsPerWord.

(** Modelled from the spec: (bitMap.hpp is missing) the first bit of a
    word, [word << LogBitsPerWord] in [idx_t]. *)
Definition bit_index (word : Z) : Z := wrap (Z.shiftl word LogBitsPerWord).

(** Modelled from the spec: (bitMap.hpp is missing) the mask selecting a
    bit in its word, [(bm_word_t)1 << bit_in_word(bit)]. *)
Definition bit_mask (bit : Z) : Z := wrap (Z.shiftl 1 (bit_in_word bit)).

(** Modelled from the spec: (bitMap.hpp is missing) storage is sized to
    [ceil(size / word_width)] words: [word_index(size + BitsPerWord - 1)]. *)
Definition calc_size_in_words (size_in_bits : Z) : Z :=
  word_index (wrap (size_in_bits + (BitsPerWord - 1))).

(** Modelled from the spec: (bitMap.hpp is missing) the bitmap object, its
    word array [_map] and its size in bits [_size].  A NULL [_map] is the
    empty word list (it is NULL exactly when no word is allocated). *)
Record BitMap : Type := mkBitMap { _map : list Z; _size : Z }.

(** Modelled from the spec: (bitMap.hpp is missing) [size_in_words()], the
    number of words of the array. *)
Definition size_in_words (bm : BitMap) : Z := calc_size_in_words (_size bm).

(** Modelled from the spec: (bitMap.inline.hpp is missing) round a bit
    index up to the next word boundary and return the word index; when the
    addition overflows [idx_t] the result is [size_in_words()]. *)
Definition word_index_round_up (bm : BitMap) (bit : Z) : Z :=
  let bit_rounded_up := wrap (bit + (BitsPerWord - 1)) in
  if bit <? bit_rounded_up then word_index bit_rounded_up else size_in_words bm.

(** Modelled from the spec: (bitMap.inline.hpp is missing) the mask of a
    range [beg, end) inside one word, 0 on the bits of the range and 1
    elsewhere; [end] must not be 0. *)
Definition inverted_bit_mask_for_range (beg end_ : Z) : Z :=
  let mask := wrap (bit_mask beg - 1) in
  if negb (bit_in_word end_ =? 0)
  then Z.lor mask (word_not (wrap (bit_mask end_ - 1)))
  else mask.

(** Modelled from the spec: (bitMap.inline.hpp is missing) [at(index)],
    the public test of one bit. *)
Definition at_ (m : list Z) (index : Z) : bool :=
  negb (Z.land (word_at m (word_index index)) (bit_mask index) =? 0).

(** [for (i = beg; i < end; ++i) map[i] = v], the loop unrolled on the
    number of iterations left. *)
Fixpoint fill_words_loop (n : nat) (i : Z) (v : Z) (m : list Z) : list Z :=
  match n with
  | O => m
  | S n' => fill_words_loop n' (i + 1) v (store m i v)
  end.

(** Modelled from the spec: (bitMap.inline.hpp is missing) the whole-word
    middle range written with a single wide store per word. *)
Definition set_range_of_words (m : list Z) (beg end_ : Z) : list Z :=
  fill_words_loop (Z.to_nat (end_ - beg)) beg all_ones m.

(** Modelled from the spec: (bitMap.inline.hpp is missing) as
    [set_range_of_words], storing 0. *)
Definition clear_range_of_words (m : list Z) (beg end_ : Z) : list Z :=
  fill_words_loop (Z.to_nat (end_ - beg)) beg 0 m.

(** [memset(_map + beg, c, (end - beg) * sizeof(bm_word_t))]: the block of
    words is overwritten in one go, as far as the array reaches. *)
Definition memset_words (m : list Z) (beg end_ : Z) (v : Z) : list Z :=
  let b := Z.to_nat beg in
  let e := Z.to_nat end_ in
  take b m ++ replicate (Nat.min e (length m) - b) v ++ drop (Nat.max b e) m.

(** Modelled from the spec: (bitMap.inline.hpp is missing) the bulk store
    of the large-range variant, a [memset] with byte [0xFF]. *)
Definition set_large_range_of_words (m : list Z) (beg end_ : Z) : list Z :=
  memset_words m beg end_ all_ones.

(** Modelled from the spec: (bitMap.inline.hpp is missing) the bulk clear
    of the large-range variant, a [memset] with byte 0. *)
Definition clear_large_range_of_words (m : list Z) (beg end_ : Z) : list Z :=
  memset_words m beg end_ 0.

(** ** bitMap.cpp: range operations *)

Definition set_range_within_word (m : list Z) (beg end_ : Z) : list Z :=
  if negb (beg =? end_) then
    let mask := inverted_bit_mask_for_range beg end_ in
    store m (word_index beg) (Z.lor (word_at m (word_index beg)) (word_not mask))
  else m.

Definition clear_range_within_word (m : list Z) (beg end_ : Z) : list Z :=
  if negb (beg =? end_) then
    let mask := inverted_bit_mask_for_range beg end_ in
    store m (word_index beg) (Z.land (word_at m (word_index beg)) mask)
  else m.

Definition set_range (bm : BitMap) (beg end_ : Z) : BitMap :=
  let beg_full_word := word_index_round_up bm beg in
  let end_full_word := word_index end_ in
  if beg_full_word <? end_full_word then
    let m1 := set_range_within_word (_map bm) beg (bit_index beg_full_word) in
    let m2 := set_range_of_words m1 beg_full_word end_full_word in
    let m3 := set_range_within_word m2 (bit_index end_full_word) end_ in
    mkBitMap m3 (_size bm)
  else
    let boundary := MIN2 (bit_index beg_full_word) end_ in
    let m1 := set_range_within_word (_map bm) beg boundary in
    let m2 := set_range_within_word m1 boundary end_ in
    mkBitMap m2 (_size bm).

Definition clear_range (bm : BitMap) (beg end_ : Z) : BitMap :=
  let beg_full_word := word_index_round_up bm beg in
  let end_full_word := word_index end_ in
  if beg_full_word <? end_full_word then
    let m1 := clear_range_within_word (_map bm) beg (bit_index beg_full_word) in
    let m2 := clear_range_of_words m1 beg_full_word end_full_word in
    let m3 := clear_range_within_word m2 (bit_index end_full_word) end_ in
    mkBitMap m3 (_size bm)
  else
    let boundary := MIN2 (bit_index beg_full_word) end_ in
    let m1 := clear_range_within_word (_map bm) beg boundary in
    let m2 := clear_range_within_word m1 boundary end_ in
    mkBitMap m2 (_size bm).

(** The small-range threshold [small_range_words] is a constant of
    bitMap.hpp, which is not under src/: it is a parameter here, at least 1
    by the [STATIC_ASSERT]. *)
Definition is_small_range_of_words (small_range_words : Z)
    (beg_full_word end_full_word : Z) : bool :=
  end_full_word <=? wrap (beg_full_word + small_range_words).

Definition set_large_range (small_range_words : Z) (bm : BitMap) (beg end_ : Z) : BitMap :=
  let beg_full_word := word_index_round_up bm beg in
  let end_full_word := word_index end_ in
  if is_small_range_of_words small_range_words beg_full_word end_full_word then
    set_range bm beg end_
  else
    let m1 := set_range_within_word (_map bm) beg (bit_index beg_full_word) in
    let m2 := set_large_range_of_words m1 beg_full_word end_full_word in
    let m3 := set_range_within_word m2 (bit_index end_full_word) end_ in
    mkBitMap m3 (_size bm).

Definition clear_large_range (small_range_words : Z) (bm : BitMap) (beg end_ : Z)
    : BitMap :=
  let beg_full_word := word_index_round_up bm beg in
  let end_full_word := word_index end_ in
  if is_small_range_of_words small_range_words beg_full_word end_full_word then
    clear_range bm beg end_
  else
    let m1 := clear_range_within_word (_map bm) beg (bit_index beg_full_word) in
    let m2 := clear_large_range_of_words m1 beg_full_word end_full_word in
    let m3 := clear_range_within_word m2 (bit_index end_full_word) end_ in
    mkBitMap m3 (_size bm).

(** [verify_range]: the ranges the operations accept. *)
Definition valid_range (bm : BitMap) (beg end_ : Z) : Prop :=
  0 <= beg /\ beg <= end_ /\ end_ <= _size bm.

(** The words of an array are 64-bit values. *)
Definition words_ok (m : list Z) : Prop := Forall (fun w => 0 <= w < 2 ^ BitsPerWord) m.

(** A well-formed bitmap: the array holds [size_in_words()] words, each a
    64-bit value, and rounding the size up to a word boundary does not
    overflow [idx_t] (a larger bitmap has no array: [calc_size_in_words]
    wraps around for it). *)
Definition wf (bm : BitMap) : Prop :=
  0 <= _size bm /\ _size bm + BitsPerWord <= 2 ^ BitsPerWord /\
  Z.of_nat (length (_map bm)) = size_in_words bm /\
  words_ok (_map bm).

(** The same, as a test that computes. *)
Definition wfb (bm : BitMap) : bool :=
  (0 <=? _size bm) && (_size bm + BitsPerWord <=? 2 ^ BitsPerWord) &&
  (Z.of_nat (length (_map bm)) =? size_in_words bm) &&
  forallb (fun w => (0 <=? w) && (w <? 2 ^ BitsPerWord)) (_map bm).

(** ** The bit view of the word array *)

(** Bit [i] of the array: bit [i mod 64] of word [i / 64]. *)
Definition bit_of (m : list Z) (i : Z) : bool :=
  Z.testbit (word_at m (i / 64)) (i mod 64).

Definition in_range (b e i : Z) : bool := (b <=? i) && (i <? e).

(** [m'] is [m] with the bits of [b, e) put to [v] and all others kept. *)
Definition put_spec (v : bool) (m m' : list Z) (b e : Z) : Prop :=
  length m' = length m /\
  (words_ok m -> words_ok m') /\
  forall i, 0 <= i -> bit_of m' i = if in_range b e i then v else bit_of m i.

(** ** bitMap.cpp: the partial last word *)

Definition tail_mask (tail_bits : Z) : Z := wrap (wrap (Z.shiftl 1 tail_bits) - 1).

(** The low [tail_bits] of [value], the last partial word of a map. *)
Definition tail_of_map (value tail_bits : Z) : Z := Z.land value (tail_mask tail_bits).

(** [old_value] with its low [tail_bits] replaced by those of [new_value]. *)
Definition merge_tail_of_map (new_value old_value tail_bits : Z) : Z :=
  let mask := tail_mask tail_bits in
  Z.lor (Z.land new_value mask) (Z.land old_value (word_not mask)).

(** ** bitMap.cpp: queries *)

(** [for (index = i; index < limit; ++index) if (hit(index)) return ...;]
    whether the loop is left by its [return]. *)
Fixpoint any_word (n : nat) (index : Z) (hit : Z -> bool) : bool :=
  match n with
  | O => false
  | S n' => if hit index then true else any_word n' (index + 1) hit
  end.

Definition contains (bm other : BitMap) : bool :=
  let dest_map := _map bm in
  let other_map := _map other in
  let limit := word_index (_size bm) in
  if any_word (Z.to_nat limit) 0
       (fun index => negb (Z.land (word_not (word_at dest_map index)) (word_at other_map index) =? 0))
  then false
  else
    let rest := bit_in_word (_size bm) in
    (rest =? 0) ||
    (tail_of_map (Z.land (word_not (word_at dest_map limit)) (word_at other_map limit)) rest =? 0).

Definition intersects (bm other : BitMap) : bool :=
  let dest_map := _map bm in
  let other_map := _map other in
  let limit := word_index (_size bm) in
  if any_word (Z.to_nat limit) 0
       (fun index => negb (Z.land (word_at dest_map index) (word_at other_map index) =? 0))
  then true
  else
    let rest := bit_in_word (_size bm) in
    (0 <? rest) &&
    negb (tail_of_map (Z.land (word_at dest_map limit) (word_at other_map limit)) rest =? 0).

Definition is_same (bm other : BitMap) : bool :=
  let dest_map := _map bm in
  let other_map := _map other in
  let limit := word_index (_size bm) in
  if any_word (Z.to_nat limit) 0
       (fun index => negb (word_at dest_map index =? word_at other_map index))
  then false
  else
    let rest := bit_in_word (_size bm) in
    (rest =? 0) ||
    (tail_of_map (Z.lxor (word_at dest_map limit) (word_at other_map limit)) rest =? 0).

Definition is_full (bm : BitMap) : bool :=
  let words := _map bm in
  let limit := word_index (_size bm) in
  if any_word (Z.to_nat limit) 0 (fun index => negb (word_not (word_at words index) =? 0))
  then false
  else
    let rest := bit_in_word (_size bm) in
    (rest =? 0) || (tail_of_map (word_not (word_at words limit)) rest =? 0).

Definition is_empty (bm : BitMap) : bool :=
  let words := _map bm in
  let limit := word_index (_size bm) in
  if any_word (Z.to_nat limit) 0 (fun index => negb (word_at words index =? 0))
  then false
  else
    let rest := bit_in_word (_size bm) in
    (rest =? 0) || (tail_of_map (word_at words limit) rest =? 0).

(** ** bitMap.cpp: set algebra *)

(** [for (index = i; index < limit; ++index) dest_map[index] = f(dest_map[index], other_map[index]);] *)
Fixpoint combine_words (n : nat) (index : Z) (f : Z -> Z -> Z)
    (dest_map other_map : list Z) : list Z :=
  match n with
  | O => dest_map
  | S n' =>
      combine_words n' (index + 1) f
        (store dest_map index (f (word_at dest_map index) (word_at other_map index)))
        other_map
  end.

(** The same loop in the [_with_result] variants, which also track
    [changed = changed || (temp != orig)]. *)
Fixpoint combine_words_with_result (n : nat) (index : Z) (f : Z -> Z -> Z)
    (dest_map other_map : list Z) (changed : bool) : list Z * bool :=
  match n with
  | O => (dest_map, changed)
  | S n' =>
      let orig := word_at dest_map index in
      let temp := f orig (word_at other_map index) in
      combine_words_with_result n' (index + 1) f
        (store dest_map index temp) other_map (changed || negb (temp =? orig))
  end.

(** The body shared by [set_union], [set_difference] and [set_intersection]:
    the whole words, then the partial last word through [merge_tail_of_map]. *)
Definition set_combine (f : Z -> Z -> Z) (bm other : BitMap) : BitMap :=
  let other_map := _map other in
  let limit := word_index (_size bm) in
  let dest_map := combine_words (Z.to_nat limit) 0 f (_map bm) other_map in
  let rest := bit_in_word (_size bm) in
  if 0 <? rest then
    let orig := word_at dest_map limit in
    mkBitMap (store dest_map limit
                (merge_tail_of_map (f orig (word_at other_map limit)) orig rest))
             (_size bm)
  else mkBitMap dest_map (_size bm).

Definition set_combine_with_result (f : Z -> Z -> Z) (bm other : BitMap) : BitMap * bool :=
  let other_map := _map other in
  let limit := word_index (_size bm) in
  let '(dest_map, changed) :=
    combine_words_with_result (Z.to_nat limit) 0 f (_map bm) other_map false in
  let rest := bit_in_word (_size bm) in
  if 0 <? rest then
    let orig := word_at dest_map limit in
    let temp := merge_tail_of_map (f orig (word_at other_map limit)) orig rest in
    (mkBitMap (store dest_map limit temp) (_size bm), changed || negb (temp =? orig))
  else (mkBitMap dest_map (_size bm), changed).

(** [orig | other], [orig & ~other], [orig & other]. *)
Definition union_word (orig other : Z) : Z := Z.lor orig other.
Definition difference_word (orig other : Z) : Z := Z.land orig (word_not other).
Definition intersection_word (orig other : Z) : Z := Z.land orig other.

Definition set_union := set_combine union_word.
Definition set_difference := set_combine difference_word.
Definition set_intersection := set_combine intersection_word.
Definition set_union_with_result := set_combine_with_result union_word.
Definition set_difference_with_result := set_combine_with_result difference_word.
Definition set_intersection_with_result := set_combine_with_result intersection_word.

(** Modelled from the spec: (utilities/copy.hpp is missing)
    [Copy::disjoint_words(from, to, count)] copies [count] whole words. *)
Definition disjoint_words (from to_ : list Z) (count : Z) : list Z :=
  take (Z.to_nat count) from ++ drop (Z.to_nat count) to_.

Definition set_from (bm other : BitMap) : BitMap :=
  let other_map := _map other in
  let copy_words := word_index (_size bm) in
  let dest_map := disjoint_words other_map (_map bm) copy_words in
  let rest := bit_in_word (_size bm) in
  if 0 <? rest then
    mkBitMap (store dest_map copy_words
                (merge_tail_of_map (word_at other_map copy_words)
                                   (word_at dest_map copy_words) rest))
             (_size bm)
  else mkBitMap dest_map (_size bm).

(** The complement of a bitmap over the bit positions below its size: each
    word inverted, the bits at and beyond [size] left clear.  The source
    has no such operation; it is the [not(other)] of the specification. *)
Definition complement (bm : BitMap) : BitMap :=
  let limit := word_index (_size bm) in
  let rest := bit_in_word (_size bm) in
  mkBitMap
    (imap (fun k w => if Z.of_nat k <? limit then word_not w
                      else tail_of_map (word_not w) rest) (_map bm))
    (_size bm).

(** The shape shared by the queries below: a loop over the whole words
    that leaves at the first non-zero [g index], then the masked last word.
    It answers whether [g] has no bit below [size] (used to state what the
    queries compute). *)
Definition no_bit_below (g : Z -> Z) (size : Z) : bool :=
  if any_word (Z.to_nat (word_index size)) 0 (fun index => negb (g index =? 0))
  then false
  else (bit_in_word size =? 0) || (tail_of_map (g (word_index size)) (bit_in_word size) =? 0).

(** ** bitMap.cpp: population count *)

(** [while ((w & 1) == 0) w >>= 1;] with a bound on the iterations; [None]
    when the bound is reached before a set bit is found. *)
Fixpoint skip_clear_bits (fuel : nat) (w : Z) : option Z :=
  match fuel with
  | O => None
  | S fuel' =>
      if Z.land w 1 =? 0 then skip_clear_bits fuel' (Z.shiftr w 1) else Some w
  end.

(** [while (w != 0) { skip clear bits; bits++; w >>= 1; }] with the same
    kind of bound, which also bounds each run of the inner loop. *)
Fixpoint num_set_bits_loop (w bits : Z) (fuel : nat) {struct fuel} : option Z :=
  match fuel with
  | O => None
  | S fuel' =>
      if negb (w =? 0) then
        match skip_clear_bits fuel w with
        | Some w' => num_set_bits_loop (Z.shiftr w' 1) (wrap (bits + 1)) fuel'
        | None => None
        end
      else Some bits
  end.

Definition num_set_bits (w : Z) : option Z :=
  num_set_bits_loop w 0 (S (Z.to_nat BitsPerWord)).

(** [init_pop_count_table]: the 256 entries [table[i] = num_set_bits(i)].
    The table is built once and shared; building it again gives the same
    entries, so the model builds it at each use. *)
Definition init_pop_count_table : option (list Z) :=
  mapM (fun i => num_set_bits (Z.of_nat i)) (seq 0 256).

(** [_pop_count_table[c]]. *)
Definition num_set_bits_from_table (table : list Z) (c : Z) : Z :=
  default 0 (table !! Z.to_nat c).

(** [for (j = 0; j < sizeof(bm_word_t); j++) { sum += table[uchar(w & 255)]; w >>= 8; }]
    with [n] iterations left. *)
Fixpoint count_bytes (table : list Z) (w sum : Z) (n : nat) {struct n} : Z :=
  match n with
  | O => sum
  | S n' =>
      count_bytes table (Z.shiftr w 8)
        (wrap (sum + num_set_bits_from_table table (Z.land w 255))) n'
  end.

(** The byte loop on one word, [sizeof(bm_word_t)] iterations. *)
Definition count_word_bytes (table : list Z) (w sum : Z) : Z :=
  count_bytes table w sum (Z.to_nat BytesPerWord).

(** [for (i = ...; i < size_in_words(); i++) { w = map()[i]; ... }] with
    [n] iterations left. *)
Fixpoint count_words (table : list Z) (m : list Z) (i : Z) (sum : Z) (n : nat)
    {struct n} : Z :=
  match n with
  | O => sum
  | S n' => count_words table m (i + 1) (count_word_bytes table (word_at m i) sum) n'
  end.

Definition count_one_bits (bm : BitMap) : option Z :=
  match init_pop_count_table with
  | Some table =>
      Some (count_words table (_map bm) 0 0 (Z.to_nat (size_in_words bm)))
  | None => None
  end.

(** The number of positions [i] of [b, b + n) at which [at(i)] is true. *)
Fixpoint count_bits (n : nat) (b : Z) (m : list Z) : Z :=
  match n with
  | O => 0
  | S n' => Z.b2z (at_ m b) + count_bits n' (b + 1) m
  end.

(** The number of set bits among the bit positions [b, b + n) of a word. *)
Fixpoint word_bits (n : nat) (b : Z) (w : Z) : Z :=
  match n with
  | O => 0
  | S n' => Z.b2z (Z.testbit w b) + word_bits n' (b + 1) w
  end.

(** The check that a table holds the bit counts of the 256 byte values. *)
Definition pop_count_table_ok (table : list Z) : bool :=
  (length table =? 256)%nat &&
  forallb (fun i => num_set_bits_from_table table (Z.of_nat i) =? word_bits 8 0 (Z.of_nat i))
          (seq 0 256).

(** ** bitMap.cpp: allocation and resizing *)

(** The three allocators of bitMap.cpp. *)
Inductive AllocatorKind : Type :=
  | ResourceBitMapAllocator
  | CHeapBitMapAllocator
  | ArenaBitMapAllocator.

(** What happens to memory, in order. *)
Inductive mem_event : Type :=
  | Allocated (size_in_words : Z)
  | Released (size_in_words : Z).

(** An allocator as one request finds it: its kind, and the contents of
    the block this request is handed when it asks for [n] words.  The
    allocator does not initialise the block: [fresh_words n] is whatever
    the memory holds at that moment, which may be the words of an array
    released earlier.  [reallocate] makes at most one request; a later
    call is served by the allocator as it stands then, which is another
    value of this type, and nothing relates the blocks of two requests. *)
Record Allocator : Type := mkAllocator {
  alloc_kind : AllocatorKind;
  fresh_words : Z -> list Z
}.

Definition allocator_allocate (a : Allocator) (size_in_words : Z) : list Z * list mem_event :=
  (fresh_words a size_in_words, [Allocated size_in_words]).

(** [free]: only the C-heap allocator releases the array; the resource and
    the arena allocators leave it alone. *)
Definition allocator_free (a : Allocator) (size_in_words : Z) : list mem_event :=
  match alloc_kind a with
  | CHeapBitMapAllocator => [Released size_in_words]
  | ResourceBitMapAllocator => []
  | ArenaBitMapAllocator => []
  end.

(** [old_map != NULL]. *)
Definition not_null (m : list Z) : bool :=
  match m with
  | [] => false
  | _ :: _ => true
  end.

Definition reallocate (allocator : Allocator) (old_map : list Z)
    (old_size_in_bits new_size_in_bits : Z) (clear : bool) : list Z * list mem_event :=
  let old_size_in_words := calc_size_in_words old_size_in_bits in
  let new_size_in_words := calc_size_in_words new_size_in_bits in
  let '(map, ev_alloc) :=
    if 0 <? new_size_in_words then
      let '(map0, ev) := allocator_allocate allocator new_size_in_words in
      let map1 :=
        if not_null old_map
        then disjoint_words old_map map0 (MIN2 old_size_in_words new_size_in_words)
        else map0 in
      let map2 :=
        if clear && (old_size_in_words <? new_size_in_words)
        then clear_range_of_words map1 old_size_in_words new_size_in_words
        else map1 in
      (map2, ev)
    else ([], []) in
  let ev_free :=
    if not_null old_map then allocator_free allocator old_size_in_words else [] in
  (map, ev_alloc ++ ev_free).

Definition allocate (allocator : Allocator) (size_in_bits : Z) (clear : bool)
    : list Z * list mem_event :=
  reallocate allocator [] 0 size_in_bits clear.

(** [resize]: [reallocate] on the current array, then [update(new_map, new_size_in_bits)]. *)
Definition resize (allocator : Allocator) (bm : BitMap) (new_size_in_bits : Z) (clear : bool)
    : BitMap * list mem_event :=
  let '(new_map, ev) := reallocate allocator (_map bm) (_size bm) new_size_in_bits clear in
  (mkBitMap new_map new_size_in_bits, ev).

(** [CHeapBitMap(size_in_bits, flags, clear)]. *)
Definition new_bitmap (allocator : Allocator) (size_in_bits : Z) (clear : bool) : BitMap :=
  mkBitMap (fst (allocate allocator size_in_bits clear)) size_in_bits.

(** An allocator hands out blocks of the requested number of 64-bit words. *)
Definition allocator_ok (a : Allocator) : Prop :=
  forall n, 0 <= n -> Z.of_nat (length (fresh_words a n)) = n /\ words_ok (fresh_words a n).

(** ** bitMap.cpp: [iterate] *)

Section Iterate.

(** The state of the closure object. *)
Context {S : Type}.

(** [BitMapClosure::do_bit(offset)]: the closure reads and updates its own
    state, may edit the words of the bitmap it iterates over, and answers
    whether to go on. *)
Definition BitMapClosure : Type := S -> Z -> list Z -> bool * S * list Z.

(** The state threaded through [iterate]: the closure, the word array, and
    the log of the calls made to [do_bit] so far, each with its answer. *)
Record iter_state : Type := mkIter {
  closure_state : S;
  words : list Z;
  calls : list (Z * bool)
}.

(** [blk->do_bit(offset)]. *)
Definition do_bit (blk : BitMapClosure) (st : iter_state) (offset : Z) : bool * iter_state :=
  let '(ok, s', w') := blk (closure_state st) offset (words st) in
  (ok, mkIter s' w' (calls st ++ [(offset, ok)])).

(** The inner loop [for (; offset < rightOffset && rest != 0; offset++)],
    with [n] iterations left: [n] starts at [rightOffset - offset], so the
    guard is false when it reaches 0.  The answer [false] is the
    [return false] of the loop body. *)
Fixpoint iterate_word (blk : BitMapClosure) (index rightOffset offset rest : Z)
    (st : iter_state) (n : nat) {struct n} : bool * iter_state :=
  match n with
  | O => (true, st)
  | Datatypes.S n' =>
      if (offset <? rightOffset) && negb (rest =? 0) then
        if negb (Z.land rest 1 =? 0) then
          let '(ok, st') := do_bit blk st offset in
          if negb ok then (false, st')
          else
            let rest' :=
              Z.shiftr (word_at (words st') index) (Z.land offset (BitsPerWord - 1)) in
            iterate_word blk index rightOffset (wrap (offset + 1)) (Z.shiftr rest' 1) st' n'
        else
          iterate_word blk index rightOffset (wrap (offset + 1)) (Z.shiftr rest 1) st n'
      else (true, st)
  end.

(** The outer loop [for (...; offset < rightOffset && index < endIndex;
    offset = (++index) << LogBitsPerWord)], with [n] iterations left: [n]
    starts at [endIndex - startIndex]. *)
Fixpoint iterate_loop (blk : BitMapClosure) (endIndex rightOffset index offset : Z)
    (st : iter_state) (n : nat) {struct n} : bool * iter_state :=
  match n with
  | O => (true, st)
  | Datatypes.S n' =>
      if (offset <? rightOffset) && (index <? endIndex) then
        let rest := Z.shiftr (word_at (words st) index) (Z.land offset (BitsPerWord - 1)) in
        let '(ok, st') :=
          iterate_word blk index rightOffset offset rest st (Z.to_nat (rightOffset - offset)) in
        if negb ok then (false, st')
        else
          let index' := wrap (index + 1) in
          iterate_loop blk endIndex rightOffset index' (bit_index index') st' n'
      else (true, st)
  end.

Definition iterate (blk : BitMapClosure) (bm : BitMap) (leftOffset rightOffset : Z) (s : S)
    : bool * iter_state :=
  let startIndex := word_index leftOffset in
  let endIndex := MIN2 (wrap (word_index rightOffset + 1)) (size_in_words bm) in
  iterate_loop blk endIndex rightOffset startIndex leftOffset
    (mkIter s (_map bm) []) (Z.to_nat (endIndex - startIndex)).

(** The traversal in the words of the specification: the positions
    [offset, offset + n) are visited in increasing order; at each one the
    bit is read in the array as it is then, the closure is called when it
    is set, and the traversal stops with [false] as soon as the closure
    answers [false]. *)
Fixpoint visit_bits (blk : BitMapClosure) (offset : Z) (st : iter_state) (n : nat)
    {struct n} : bool * iter_state :=
  match n with
  | O => (true, st)
  | Datatypes.S n' =>
      if at_ (words st) offset then
        let '(ok, st') := do_bit blk st offset in
        if negb ok then (false, st') else visit_bits blk (offset + 1) st' n'
      else visit_bits blk (offset + 1) st n'
  end.

(** A log of calls with positions strictly increasing inside [lo, hi), in
    which an answer [false] can only be the last one. *)
Fixpoint calls_ok (lo hi : Z) (l : list (Z * bool)) : Prop :=
  match l with
  | [] => True
  | (o, ok) :: t => lo <= o < hi /\ (ok = false -> t = []) /\ calls_ok (o + 1) hi t
  end.

(** The closure leaves 64-bit words in the array. *)
Definition closure_ok (blk : BitMapClosure) : Prop :=
  forall s offset w, words_ok w -> words_ok (snd (blk s offset w)).

End Iterate.

(** ** The old collection-set selection of the G1 policy *)

(** Modelled from the spec: g1Policy.cpp is not under src/ (g1Policy.hpp
    only declares [calculate_old_collection_set_regions],
    [calc_min_old_cset_length] and [calc_max_old_cset_length]).  A
    candidate old region, with its reclaimable bytes and the predicted time
    to copy it, in milliseconds. *)
Record Candidate : Type := mkCandidate {
  reclaimable_bytes : Z;
  predicted_time_ms : Q
}.

(** Modelled from the spec: g1Policy.cpp is not under src/.  The mandatory
    pass of section 4.4: walk the candidates in order, accumulating their
    predicted times.  The minimum count is always included: while fewer
    than [min_length] regions have been taken the next candidate is taken,
    whatever the budget (the spec puts no other condition on the floor).
    Beyond the minimum a candidate is taken until the mandatory time
    budget is exhausted or the maximum old-region count is reached.
    [count] regions have been taken so far, for [used_ms] of predicted
    time. *)
Fixpoint mandatory_pass (budget_ms : Q) (min_length max_length : nat)
    (count : nat) (used_ms : Q) (candidates : list Candidate) {struct candidates} : nat :=
  match candidates with
  | [] => count
  | r :: rest =>
      if (count <? min_length)%nat then
        mandatory_pass budget_ms min_length max_length
          (Datatypes.S count) (used_ms + predicted_time_ms r)%Q rest
      else if (max_length <=? count)%nat then count
      else if Qle_bool (used_ms + predicted_time_ms r)%Q budget_ms then
        mandatory_pass budget_ms min_length max_length
          (Datatypes.S count) (used_ms + predicted_time_ms r)%Q rest
      else count
  end.

(** Modelled from the spec: g1Policy.cpp is not under src/.  The number of
    mandatory regions returned by [calculate_old_collection_set_regions]
    for a candidate list and a mandatory time budget. *)
Definition mandatory_old_regions (candidates : list Candidate) (budget_ms : Q)
    (min_length max_length : nat) : nat :=
  mandatory_pass budget_ms min_length max_length 0 0%Q candidates.

(** ** bitMap.cpp: the atomic range write *)

(** Modelled from the spec: (atomic.hpp is missing)
    [Atomic::cmpxchg(dest, compare_value, exchange_value)], the atomic
    compare-and-swap on one word of the shared array: it returns the value
    found at [dest] and stores [exchange_value] there when the value found
    is [compare_value].  It is one indivisible step. *)
Definition cmpxchg (m : list Z) (dest compare_value exchange_value : Z) : Z * list Z :=
  let found := word_at m dest in
  (found, if found =? compare_value then store m dest exchange_value else m).

(** The arguments of one call of [par_put_range_within_word]. *)
Record par_call : Type := mkParCall {
  call_beg : Z;
  call_end : Z;
  call_value : bool
}.

(** [value ? (w | ~mr) : (w & mr)] with
    [mr = inverted_bit_mask_for_range(beg, end)]. *)
Definition new_word (c : par_call) (w : Z) : Z :=
  let mr := inverted_bit_mask_for_range (call_beg c) (call_end c) in
  if call_value c then Z.lor w (word_not mr) else Z.land w mr.

(** Where a thread stands in [par_put_range_within_word]: before its
    first access to the shared array ([Start]); holding the locals [w] and
    [nw], about to execute [Atomic::cmpxchg(pw, w, nw)] ([Cas w nw]);
    returned ([Done]). *)
Inductive par_pc : Type :=
  | Start
  | Cas (w nw : Z)
  | Done.

(** One step of a thread in [par_put_range_within_word]: the statements up
    to and including its next access to the shared array.  From [Start]
    the test [beg != end], then the read [w = *pw]; from [Cas w nw] the
    compare-and-swap, then [break] when it found [w], otherwise
    [w = res; nw = ...] and round the loop again. *)
Definition par_put_range_within_word (c : par_call) (pc : par_pc) (m : list Z)
    : par_pc * list Z :=
  match pc with
  | Start =>
      if negb (call_beg c =? call_end c) then
        let w := word_at m (word_index (call_beg c)) in
        (Cas w (new_word c w), m)
      else (Done, m)
  | Cas w nw =>
      let '(res, m') := cmpxchg m (word_index (call_beg c)) w nw in
      if res =? w then (Done, m') else (Cas res (new_word c res), m')
  | Done => (Done, m)
  end.

(** Two threads, each in a call of [par_put_range_within_word], and the
    word array they share. *)
Record par_state : Type := mkPar {
  pc1 : par_pc;
  pc2 : par_pc;
  shared : list Z
}.

(** The thread chosen by the scheduler ([true]: the first, [false]: the
    second) takes one step. *)
Definition par_step (c1 c2 : par_call) (first : bool) (s : par_state) : par_state :=
  if first then
    let '(pc, m) := par_put_range_within_word c1 (pc1 s) (shared s) in
    mkPar pc (pc2 s) m
  else
    let '(pc, m) := par_put_range_within_word c2 (pc2 s) (shared s) in
    mkPar (pc1 s) pc m.

(** The run of the two threads under a schedule, the list of the
    scheduler's choices. *)
Fixpoint par_run (c1 c2 : par_call) (schedule : list bool) (s : par_state)
    {struct schedule} : par_state :=
  match schedule with
  | [] => s
  | first :: rest => par_run c1 c2 rest (par_step c1 c2 first s)
  end.

(** The range of a call lies in one word of the array. *)
Definition within_word (m : list Z) (c : par_call) : Prop :=
  0 <= call_beg c <= call_end c /\
  (call_beg c < call_end c -> call_beg c / 64 = (call_end c - 1) / 64) /\
  call_end c <= 64 * Z.of_nat (length m).

Definition is_done (pc : par_pc) : bool :=
  match pc with
  | Done => true
  | _ => false
  end.

(** A bound on the steps a thread in a call [c] still takes before it
    returns, [other] being where the other thread stands: its
    compare-and-swap fails only when the other thread's has succeeded
    since it read the word, and that happens once. *)
Definition steps_left (c : par_call) (pc other : par_pc) (m : list Z) : nat :=
  match pc with
  | Start => if is_done other then 2 else 3
  | Cas w _ =>
      if (word_at m (word_index (call_beg c)) =? w) && is_done other then 1 else 2
  | Done => 0
  end.

(** What holds of the two threads and the array all along a run from
    [m0]. *)
Definition par_invariant (c1 c2 : par_call) (m0 : list Z) (s : par_state) : Prop :=
  length (shared s) = length m0 /\
  words_ok (shared s) /\
  (forall i, 0 <= i ->
     bit_of (shared s) i =
     if in_range (call_beg c1) (call_end c1) i && is_done (pc1 s) then call_value c1
     else if in_range (call_beg c2) (call_end c2) i && is_done (pc2 s) then call_value c2
     else bit_of m0 i) /\
  (forall w nw, pc1 s = Cas w nw ->
     nw = new_word c1 w /\ call_beg c1 <> call_end c1 /\
     (word_at (shared s) (word_index (call_beg c1)) <> w -> pc2 s = Done)) /\
  (forall w nw, pc2 s = Cas w nw ->
     nw = new_word c2 w /\ call_beg c2 <> call_end c2 /\
     (word_at (shared s) (word_index (call_beg c2)) <> w -> pc1 s = Done)).

(** The number of steps the scheduler gives to a thread. *)
Definition turns (first : bool) (schedule : list bool) : nat :=
  length (List.filter (Bool.eqb first) schedule).

(** ** bitMap.cpp: the remaining operations *)

Definition at_put_range (bm : BitMap) (start_offset end_offset : Z) (value : bool) : BitMap :=
  if value then set_range bm start_offset end_offset
  else clear_range bm start_offset end_offset.

Definition clear_large (bm : BitMap) : BitMap :=
  mkBitMap (clear_large_range_of_words (_map bm) 0 (size_in_words bm)) (_size bm).

(** [BitMap::free]: [reallocate] to a size of 0 bits; the result is what
    the source asserts to be NULL.  The [clear] argument is the default of
    the declaration in bitMap.hpp, which is not under src/; nothing is
    allocated for 0 bits, so it plays no role. *)
Definition free_map (allocator : Allocator) (map : list Z) (size_in_bits : Z)
    : list Z * list mem_event :=
  reallocate allocator map size_in_bits 0 true.

(** The two [assert]s at the head of [initialize]. *)
Definition initialize_precondition (bm : BitMap) : Prop :=
  _map bm = [] /\ _size bm = 0.

Definition initialize (allocator : Allocator) (bm : BitMap) (size_in_bits : Z) (clear : bool)
    : BitMap * list mem_event :=
  resize allocator bm size_in_bits clear.

(** [reinitialize]: [resize] to 0 bits without clearing, then [initialize],
    both with the allocator passed in.  The first call requests no block
    (nothing is allocated for 0 bits), so the one request of
    [reinitialize] is that of [initialize]. *)
Definition reinitialize (allocator : Allocator) (bm : BitMap) (new_size_in_bits : Z)
    (clear : bool) : BitMap * list mem_event :=
  let '(bm0, ev0) := resize allocator bm 0 false in
  let '(bm1, ev1) := initialize allocator bm0 new_size_in_bits clear in
  (bm1, ev0 ++ ev1).

(** [CHeapBitMap::~CHeapBitMap]: [free] on the array of the bitmap. *)
Definition destroy (allocator : Allocator) (bm : BitMap) : list Z * list mem_event :=
  free_map allocator (_map bm) (_size bm).

(** The positions of [offset, offset + n) whose bit is set, in increasing
    order. *)
Fixpoint set_positions (m : list Z) (offset : Z) (n : nat) {struct n} : list Z :=
  match n with
  | O => []
  | Datatypes.S n' =>
      if at_ m offset then offset :: set_positions m (offset + 1) n'
      else set_positions m (offset + 1) n'
  end.

(** A closure that only looks: it leaves the words as they are and
    always asks to go on. *)
Definition watching_closure {S : Type} (blk : @BitMapClosure S) : Prop :=
  forall s offset w, fst (fst (blk s offset w)) = true /\ snd (blk s offset w) = w.

(** A word operation that works bit by bit on 64-bit words, as [fb] does
    on each pair of bits. *)
Definition bitwise (f : Z -> Z -> Z) (fb : bool -> bool -> bool) : Prop :=
  (forall a b, 0 <= a < 2 ^ BitsPerWord -> 0 <= b < 2 ^ BitsPerWord ->
     0 <= f a b < 2 ^ BitsPerWord) /\
  (forall a b j, 0 <= j < 64 -> Z.testbit (f a b) j = fb (Z.testbit a j) (Z.testbit b j)).

(** A list of positions strictly increasing from [lo] on. *)
Fixpoint increasing_from (lo : Z) (l : list Z) : Prop :=
  match l with
  | [] => True
  | o :: t => lo <= o /\ increasing_from (o + 1) t
  end.

(** ** Example bitmaps *)

(** A bitmap of 64 bits in which only bit 3 is set. *)
Definition bm_bit3 : BitMap := mkBitMap [8] 64.

(** A bitmap of 70 bits, in two words, bits 64..69 set. *)
Definition bm70 : BitMap := mkBitMap [0; 63] 70.

(** A bitmap of 2200 bits (35 words), all clear. *)
Definition bm2200 : BitMap := mkBitMap (replicate 35 0) 2200.

(** One-bit bitmaps: bit 0 set, and bit 0 clear. *)
Definition bm_one : BitMap := mkBitMap [1] 1.
Definition bm_none : BitMap := mkBitMap [0] 1.

(** A bitmap of 70 bits whose two storage words have every bit set, the
    bits 70..127 of the last word included. *)
Definition bm70_dirty : BitMap := mkBitMap [all_ones; all_ones] 70.

(** Allocators whose fresh blocks hold stale all-ones words. *)
Definition stale_cheap : Allocator :=
  mkAllocator CHeapBitMapAllocator (fun n => replicate (Z.to_nat n) all_ones).
Definition stale_resource : Allocator :=
  mkAllocator ResourceBitMapAllocator (fun n => replicate (Z.to_nat n) all_ones).

(** A C-heap bitmap of 128 bits, allocated clear, then filled, then
    resized down to 70 bits, then resized back up to 128 bits. *)
Definition bm128_full : BitMap := set_range (new_bitmap stale_cheap 128 true) 0 128.
Definition bm128_shrunk : BitMap := fst (resize stale_cheap bm128_full 70 true).
Definition bm128_regrown : BitMap := fst (resize stale_cheap bm128_shrunk 128 true).

(** A 70-bit bitmap allocated clear, then filled by [set_range(0,70)]: the
    rest of its last word is clear. *)
Definition bm70_full : BitMap := set_range (new_bitmap stale_cheap 70 true) 0 70.

(** A 70-bit bitmap allocated without clearing, on memory that holds stale
    all-ones words, then filled by [set_range(0,70)]: the rest of its last
    word is as the allocator left it. *)
Definition bm70_uncleared : BitMap := set_range (new_bitmap stale_cheap 70 false) 0 70.

(** A closure that logs the positions it is given, clears the bit right
    after the one it is given, and asks to stop at position 66. *)
Definition skip_next_closure : @BitMapClosure (list Z) :=
  fun seen offset w =>
    (negb (offset =? 66), offset :: seen, clear_range_within_word w (offset + 1) (offset + 2)).

(** The candidates of the specification's example: R1 (reclaim 100, 10 ms),
    R2 (reclaim 80, 8 ms), R3 (reclaim 50, 40 ms). *)
Definition spec_candidates : list Candidate :=
  [mkCandidate 100 (10 # 1); mkCandidate 80 (8 # 1); mkCandidate 50 (40 # 1)].

(** Two calls of [par_put_range_within_word] on the second word of [bm70]:
    one clears the bits 64..65, the other sets the bits 70..74. *)
Definition par_clear_64_66 : par_call := mkParCall 64 66 false.
Definition par_set_70_75 : par_call := mkParCall 70 75 true.

(** Both threads read the word, then both try to write: the scheduler's
    choices are first, second, first, second, second. *)
Definition read_read_write_write : list bool := [true; false; true; false; false].

(** A closure that logs the positions it is given, leaves the words alone
    and always asks to go on. *)
Definition log_closure : @BitMapClosure (list Z) :=
  fun seen offset w => (true, offset :: seen, w).

(** A C-heap allocator that hands back the words of an array released
    earlier, followed by zero words when the request is longer. *)
Definition recycling_cheap (released : list Z) : Allocator :=
  mkAllocator CHeapBitMapAllocator
    (fun n => take (Z.to_nat n) (released ++ replicate (Z.to_nat n) 0)).

(** * Proofs *)

(** ** Arithmetic of words and indices *)

Section WordFacts.

Lemma pow64 : 2 ^ BitsPerWord = 18446744073709551616.
Proof. reflexivity. Qed.

Lemma wrap_small x : 0 <= x < 2 ^ BitsPerWord -> wrap x = x.
Proof. intros H. unfold wrap. now apply Z.mod_small. Qed.

Lemma wrap_range x : 0 <= wrap x < 2 ^ BitsPerWord.
Proof. unfold wrap. apply Z.mod_pos_bound. reflexivity. Qed.

Lemma word_index_div b : word_index b = b / 64.
Proof. unfold word_index, LogBitsPerWord. now rewrite Z.shiftr_div_pow2. Qed.

Lemma bit_in_word_mod b : bit_in_word b = b mod 64.
Proof.
  unfold bit_in_word, BitsPerWord.
  change (64 - 1) with (Z.ones 6). now rewrite Z.land_ones.
Qed.

Lemma bit_index_mul w : 0 <= w -> 64 * w < 2 ^ BitsPerWord -> bit_index w = 64 * w.
Proof.
  intros H0 H1. unfold bit_index, LogBitsPerWord.
  rewrite Z.shiftl_mul_pow2 by lia. change (2 ^ 6) with 64.
  rewrite Z.mul_comm. apply wrap_small. lia.
Qed.

Lemma pow2_mod64_range b : 1 <= 2 ^ (b mod 64) < 2 ^ BitsPerWord.
Proof.
  assert (0 <= b mod 64 < 64) by (apply Z.mod_pos_bound; lia).
  split.
  - assert (0 < 2 ^ (b mod 64)) by (apply Z.pow_pos_nonneg; lia). lia.
  - apply Z.pow_lt_mono_r; unfold BitsPerWord; lia.
Qed.

Lemma bit_mask_pow b : bit_mask b = 2 ^ (b mod 64).
Proof.
  unfold bit_mask. rewrite bit_in_word_mod.
  assert (0 <= b mod 64 < 64) by (apply Z.mod_pos_bound; lia).
  rewrite Z.shiftl_mul_pow2 by lia. rewrite Z.mul_1_l.
  apply wrap_small. pose proof (pow2_mod64_range b). lia.
Qed.

Lemma testbit_wrap x j : Z.testbit (wrap x) j = (j <? 64) && Z.testbit x j.
Proof.
  unfold wrap, BitsPerWord.
  destruct (Z.ltb_spec j 64) as [Hlt|Hge]; simpl.
  - destruct (Z.ltb_spec j 0) as [Hn|Hp].
    + now rewrite !Z.testbit_neg_r.
    + apply Z.mod_pow2_bits_low. lia.
  - apply Z.mod_pow2_bits_high. lia.
Qed.

Lemma testbit_word_not w j :
  0 <= j -> Z.testbit (word_not w) j = (j <? 64) && negb (Z.testbit w j).
Proof.
  intros Hj. unfold word_not. rewrite testbit_wrap. now rewrite Z.lnot_spec.
Qed.

Lemma testbit_all_ones j : 0 <= j -> Z.testbit all_ones j = (j <? 64).
Proof.
  intros Hj. unfold all_ones. rewrite testbit_word_not by assumption.
  rewrite Z.bits_0. now rewrite andb_true_r.
Qed.

Lemma word_not_range w : 0 <= word_not w < 2 ^ BitsPerWord.
Proof. apply wrap_range. Qed.

Lemma all_ones_range : 0 <= all_ones < 2 ^ BitsPerWord.
Proof. apply wrap_range. Qed.

(** A 64-bit value is determined by its low 64 bits. *)
Lemma word_high_bits w j : 0 <= w < 2 ^ BitsPerWord -> 64 <= j -> Z.testbit w j = false.
Proof.
  intros Hw Hj. rewrite <- (wrap_small w Hw), testbit_wrap.
  destruct (Z.ltb_spec j 64); [lia | reflexivity].
Qed.

Lemma word_ext v w :
  0 <= v < 2 ^ BitsPerWord -> 0 <= w < 2 ^ BitsPerWord ->
  (forall j, 0 <= j < 64 -> Z.testbit v j = Z.testbit w j) -> v = w.
Proof.
  intros Hv Hw H. apply Z.bits_inj'. intros j Hj.
  destruct (Z.ltb_spec j 64) as [Hlt|Hge].
  - apply H. lia.
  - now rewrite !word_high_bits.
Qed.

Lemma lor_range v w :
  0 <= v < 2 ^ BitsPerWord -> 0 <= w < 2 ^ BitsPerWord -> 0 <= Z.lor v w < 2 ^ BitsPerWord.
Proof.
  intros Hv Hw. split.
  - apply Z.lor_nonneg. lia.
  - destruct (Z.eq_dec (Z.lor v w) 0) as [->|Hne]; [reflexivity|].
    assert (0 <= Z.lor v w) by (apply Z.lor_nonneg; lia).
    apply Z.log2_lt_pow2; [lia|]. rewrite Z.log2_lor by lia.
    unfold BitsPerWord in *.
    destruct (Z.eq_dec v 0) as [->|Hv0]; destruct (Z.eq_dec w 0) as [->|Hw0];
      simpl in *; try lia.
    + rewrite Z.max_r by apply Z.log2_nonneg. apply Z.log2_lt_pow2; lia.
    + rewrite Z.max_l by apply Z.log2_nonneg. apply Z.log2_lt_pow2; lia.
    + apply Z.max_lub_lt; apply Z.log2_lt_pow2; lia.
Qed.

Lemma land_range v w :
  0 <= v < 2 ^ BitsPerWord -> 0 <= Z.land v w < 2 ^ BitsPerWord.
Proof.
  intros Hv.
  assert (H0 : 0 <= Z.land v w) by (apply Z.land_nonneg; lia).
  split; [assumption|].
  assert (Hle : Z.land v w <= v).
  { destruct (Z.eq_dec v 0) as [->|Hne]; [now rewrite Z.land_0_l|].
    rewrite <- (Z.lor_ldiff_and v w) at 2.
    assert (Hd : Z.land (Z.ldiff v w) (Z.land v w) = 0).
    { apply Z.bits_inj'. intros j Hj.
      rewrite !Z.land_spec, Z.ldiff_spec, Z.bits_0.
      destruct (Z.testbit v j), (Z.testbit w j); reflexivity. }
    rewrite <- Z.lxor_lor by assumption. rewrite <- Z.add_nocarry_lxor by assumption.
    assert (0 <= Z.ldiff v w) by (apply Z.ldiff_nonneg; lia). lia. }
  lia.
Qed.

(** The test of one bit by a one-bit mask is [Z.testbit]. *)
Lemma land_pow2_testbit w k :
  0 <= k -> negb (Z.land w (2 ^ k) =? 0) = Z.testbit w k.
Proof.
  intros Hk. destruct (Z.testbit w k) eqn:Hb.
  - assert (H : Z.land w (2 ^ k) = 2 ^ k).
    { apply Z.bits_inj'. intros j Hj. rewrite Z.land_spec, Z.pow2_bits_eqb by lia.
      destruct (Z.eqb_spec k j) as [->|]; [now rewrite Hb | now rewrite andb_false_r]. }
    rewrite H. assert (0 < 2 ^ k) by (apply Z.pow_pos_nonneg; lia).
    destruct (Z.eqb_spec (2 ^ k) 0); [lia | reflexivity].
  - assert (H : Z.land w (2 ^ k) = 0).
    { apply Z.bits_inj'. intros j Hj. rewrite Z.land_spec, Z.pow2_bits_eqb, Z.bits_0 by lia.
      destruct (Z.eqb_spec k j) as [->|]; [now rewrite Hb | now rewrite andb_false_r]. }
    now rewrite H.
Qed.

Lemma testbit_inverted_mask beg end_ j :
  0 <= j < 64 ->
  Z.testbit (inverted_bit_mask_for_range beg end_) j =
  (j <? beg mod 64) || (negb (end_ mod 64 =? 0) && (end_ mod 64 <=? j)).
Proof.
  intros Hj. unfold inverted_bit_mask_for_range.
  rewrite !bit_mask_pow, !bit_in_word_mod.
  assert (Hb : 0 <= beg mod 64 < 64) by (apply Z.mod_pos_bound; lia).
  assert (He : 0 <= end_ mod 64 < 64) by (apply Z.mod_pos_bound; lia).
  pose proof (pow2_mod64_range beg). pose proof (pow2_mod64_range end_).
  rewrite !wrap_small by lia.
  change (2 ^ (beg mod 64) - 1) with (Z.pred (2 ^ (beg mod 64))).
  change (2 ^ (end_ mod 64) - 1) with (Z.pred (2 ^ (end_ mod 64))).
  rewrite <- !Z.ones_equiv.
  destruct (Z.eqb_spec (end_ mod 64) 0) as [E0|E0]; simpl.
  - rewrite Z.testbit_ones_nonneg by lia. now rewrite orb_false_r.
  - rewrite Z.lor_spec, testbit_word_not by lia.
    rewrite !Z.testbit_ones_nonneg by lia.
    destruct (Z.ltb_spec j 64); [|lia]. simpl.
    destruct (Z.ltb_spec j (end_ mod 64)), (Z.leb_spec (end_ mod 64) j); simpl; try lia; reflexivity.
Qed.

Lemma inverted_mask_range beg end_ :
  0 <= inverted_bit_mask_for_range beg end_ < 2 ^ BitsPerWord.
Proof.
  unfold inverted_bit_mask_for_range.
  destruct (negb (bit_in_word end_ =? 0)).
  - apply lor_range; [apply wrap_range | apply word_not_range].
  - apply wrap_range.
Qed.

End WordFacts.

(** ** Facts on the bit view *)

Ltac zdiv := Z.to_euclidean_division_equations; lia.

Section ArrayFacts.

Lemma at_bit_of m i : at_ m i = bit_of m i.
Proof.
  unfold at_, bit_of. rewrite bit_mask_pow, word_index_div.
  apply land_pow2_testbit. apply Z.mod_pos_bound. lia.
Qed.

Lemma store_length m i w : length (store m i w) = length m.
Proof. unfold store. apply length_insert. Qed.

Lemma word_at_store m i w j :
  0 <= i -> 0 <= j ->
  word_at (store m i w) j =
  if (i =? j) && (i <? Z.of_nat (length m)) then w else word_at m j.
Proof.
  intros Hi Hj. unfold word_at, store.
  destruct (Z.eqb_spec i j) as [->|Hne]; simpl.
  - destruct (Z.ltb_spec j (Z.of_nat (length m))) as [Hlt|Hge].
    + rewrite list_lookup_insert_eq by lia. reflexivity.
    + rewrite list_insert_ge by lia. reflexivity.
  - rewrite list_lookup_insert_ne by lia. reflexivity.
Qed.

Lemma word_at_range m j : words_ok m -> 0 <= word_at m j < 2 ^ BitsPerWord.
Proof.
  intros Hm. unfold word_at.
  destruct (m !! Z.to_nat j) as [w|] eqn:E; simpl.
  - unfold words_ok in Hm. rewrite Forall_lookup in Hm. exact (Hm _ _ E).
  - rewrite pow64. lia.
Qed.

Lemma word_at_out m j : Z.of_nat (length m) <= j -> word_at m j = 0.
Proof.
  intros H. unfold word_at. rewrite lookup_ge_None_2 by lia. reflexivity.
Qed.

Lemma bit_of_out m i : 64 * Z.of_nat (length m) <= i -> bit_of m i = false.
Proof.
  intros H. unfold bit_of. rewrite word_at_out by zdiv. apply Z.bits_0.
Qed.

Lemma words_ok_store m i w :
  words_ok m -> 0 <= w < 2 ^ BitsPerWord -> words_ok (store m i w).
Proof.
  intros Hm Hw. unfold words_ok, store in *.
  rewrite Forall_lookup in *. intros k x Hk.
  destruct (decide (Z.to_nat i = k)) as [<-|Hne].
  - destruct (decide (Z.to_nat i < length m)%nat) as [Hlt|Hge].
    + rewrite list_lookup_insert_eq in Hk by assumption. now inversion Hk; subst.
    + rewrite list_insert_ge in Hk by lia. eauto.
  - rewrite list_lookup_insert_ne in Hk by assumption. eauto.
Qed.

Lemma words_ext (m1 m2 : list Z) :
  length m1 = length m2 ->
  (forall j, 0 <= j < Z.of_nat (length m1) -> word_at m1 j = word_at m2 j) ->
  m1 = m2.
Proof.
  intros Hlen H. apply list_eq_same_length with (n := length m1); [lia | reflexivity |].
  intros k x y Hk Hx Hy.
  specialize (H (Z.of_nat k) ltac:(lia)). unfold word_at in H.
  rewrite Nat2Z.id, Hx, Hy in H. exact H.
Qed.

(** Two arrays of 64-bit words with the same bits are the same array. *)
Lemma bits_ext (m1 m2 : list Z) :
  words_ok m1 -> words_ok m2 -> length m1 = length m2 ->
  (forall i, 0 <= i < 64 * Z.of_nat (length m1) -> bit_of m1 i = bit_of m2 i) ->
  m1 = m2.
Proof.
  intros H1 H2 Hlen H. apply words_ext; [assumption|].
  intros j Hj. apply word_ext; try now apply word_at_range.
  intros k Hk. specialize (H (64 * j + k) ltac:(lia)). unfold bit_of in H.
  replace ((64 * j + k) / 64) with j in H by zdiv.
  replace ((64 * j + k) mod 64) with k in H by zdiv.
  exact H.
Qed.

Lemma put_spec_refl v m b : put_spec v m m b b.
Proof.
  split; [reflexivity|]. split; [tauto|]. intros i Hi. unfold in_range.
  destruct (Z.leb_spec b i), (Z.ltb_spec i b); simpl; try lia; reflexivity.
Qed.

(** Two adjacent ranges put one after the other make one range. *)
Lemma put_spec_trans v m0 m1 m2 a b c :
  a <= b <= c ->
  put_spec v m0 m1 a b -> put_spec v m1 m2 b c -> put_spec v m0 m2 a c.
Proof.
  intros Habc (L1 & W1 & B1) (L2 & W2 & B2).
  split; [congruence|]. split; [tauto|].
  intros i Hi. rewrite B2, B1 by assumption. unfold in_range.
  destruct (Z.leb_spec b i), (Z.ltb_spec i c), (Z.leb_spec a i), (Z.ltb_spec i b);
    simpl; try lia; reflexivity.
Qed.

Lemma mask_bit_in_range b e i :
  0 <= b -> b < e -> b / 64 = (e - 1) / 64 -> 0 <= i -> i / 64 = b / 64 ->
  Z.testbit (inverted_bit_mask_for_range b e) (i mod 64) = negb (in_range b e i).
Proof.
  intros Hb Hbe Hw Hi Hib.
  rewrite testbit_inverted_mask by (apply Z.mod_pos_bound; lia).
  unfold in_range.
  destruct (Z.ltb_spec (i mod 64) (b mod 64)), (Z.eqb_spec (e mod 64) 0),
    (Z.leb_spec (e mod 64) (i mod 64)), (Z.leb_spec b i), (Z.ltb_spec i e);
    simpl; try reflexivity; exfalso; zdiv.
Qed.

Lemma in_range_other_word b e i :
  0 <= b -> b < e -> b / 64 = (e - 1) / 64 -> i / 64 <> b / 64 -> in_range b e i = false.
Proof.
  intros Hb Hbe Hw Hib. unfold in_range.
  destruct (Z.leb_spec b i), (Z.ltb_spec i e); simpl; try reflexivity; exfalso; zdiv.
Qed.

Lemma set_range_within_word_spec m b e :
  0 <= b <= e -> (b < e -> b / 64 = (e - 1) / 64) -> e <= 64 * Z.of_nat (length m) ->
  put_spec true m (set_range_within_word m b e) b e.
Proof.
  intros Hbe Hw Hlen. unfold set_range_within_word.
  destruct (Z.eqb_spec b e) as [->|Hne]; simpl; [apply put_spec_refl|].
  specialize (Hw ltac:(lia)). rewrite word_index_div.
  split; [apply store_length|]. split.
  - intros Hm. apply words_ok_store; [assumption|].
    apply lor_range; [now apply word_at_range | apply word_not_range].
  - intros i Hi. unfold bit_of at 1.
    rewrite word_at_store by zdiv.
    destruct (Z.eqb_spec (b / 64) (i / 64)) as [E|E]; simpl.
    + destruct (Z.ltb_spec (b / 64) (Z.of_nat (length m))); [|exfalso; zdiv].
      rewrite Z.lor_spec, testbit_word_not by (apply Z.mod_pos_bound; lia).
      rewrite mask_bit_in_range by (try assumption; lia).
      destruct (Z.ltb_spec (i mod 64) 64); [|exfalso; zdiv]. simpl.
      rewrite negb_involutive, E. fold (bit_of m i).
      destruct (in_range b e i); [apply orb_true_r | apply orb_false_r].
    + rewrite in_range_other_word by (try assumption; lia). reflexivity.
Qed.

Lemma clear_range_within_word_spec m b e :
  0 <= b <= e -> (b < e -> b / 64 = (e - 1) / 64) -> e <= 64 * Z.of_nat (length m) ->
  put_spec false m (clear_range_within_word m b e) b e.
Proof.
  intros Hbe Hw Hlen. unfold clear_range_within_word.
  destruct (Z.eqb_spec b e) as [->|Hne]; simpl; [apply put_spec_refl|].
  specialize (Hw ltac:(lia)). rewrite word_index_div.
  split; [apply store_length|]. split.
  - intros Hm. apply words_ok_store; [assumption|].
    apply land_range. now apply word_at_range.
  - intros i Hi. unfold bit_of at 1.
    rewrite word_at_store by zdiv.
    destruct (Z.eqb_spec (b / 64) (i / 64)) as [E|E]; simpl.
    + destruct (Z.ltb_spec (b / 64) (Z.of_nat (length m))); [|exfalso; zdiv].
      rewrite Z.land_spec.
      rewrite mask_bit_in_range by (try assumption; lia).
      rewrite E. fold (bit_of m i).
      destruct (in_range b e i); [apply andb_false_r | apply andb_true_r].
    + rewrite in_range_other_word by (try assumption; lia). reflexivity.
Qed.

End ArrayFacts.

(** ** Whole-word stores *)

Section WordRanges.

Lemma fill_words_loop_length n i v m : length (fill_words_loop n i v m) = length m.
Proof.
  revert i m. induction n as [|n IH]; intros i m; simpl; [reflexivity|].
  rewrite IH. apply store_length.
Qed.

Lemma fill_words_loop_at n : forall i v m j,
  0 <= i -> 0 <= j -> i + Z.of_nat n <= Z.of_nat (length m) ->
  word_at (fill_words_loop n i v m) j =
  if in_range i (i + Z.of_nat n) j then v else word_at m j.
Proof.
  induction n as [|n IH]; intros i v m j Hi Hj Hlen; simpl fill_words_loop.
  - unfold in_range.
    destruct (Z.leb_spec i j), (Z.ltb_spec j (i + Z.of_nat 0)); simpl; try lia; reflexivity.
  - rewrite IH by (rewrite ?store_length; lia).
    rewrite word_at_store by lia. unfold in_range.
    destruct (Z.leb_spec (i + 1) j), (Z.ltb_spec j (i + 1 + Z.of_nat n)),
      (Z.leb_spec i j), (Z.ltb_spec j (i + Z.of_nat (S n))),
      (Z.eqb_spec i j), (Z.ltb_spec i (Z.of_nat (length m))); simpl; try lia; reflexivity.
Qed.

Lemma memset_words_length m b e v :
  0 <= b <= e -> e <= Z.of_nat (length m) -> length (memset_words m b e v) = length m.
Proof.
  intros Hbe Hlen. unfold memset_words.
  rewrite !length_app, length_take, length_replicate, length_drop. lia.
Qed.

Lemma memset_words_at m b e v j :
  0 <= b <= e -> e <= Z.of_nat (length m) -> 0 <= j ->
  word_at (memset_words m b e v) j = if in_range b e j then v else word_at m j.
Proof.
  intros Hbe Hlen Hj. unfold memset_words, word_at, in_range.
  replace (Nat.min (Z.to_nat e) (length m) - Z.to_nat b)%nat
    with (Z.to_nat e - Z.to_nat b)%nat by lia.
  replace (Nat.max (Z.to_nat b) (Z.to_nat e)) with (Z.to_nat e) by lia.
  destruct (Z.leb_spec b j) as [Hb|Hb]; simpl.
  - rewrite lookup_app_r by (rewrite length_take; lia).
    rewrite length_take. replace (Nat.min (Z.to_nat b) (length m)) with (Z.to_nat b) by lia.
    destruct (Z.ltb_spec j e) as [He|He].
    + rewrite lookup_app_l by (rewrite length_replicate; lia).
      rewrite lookup_replicate_2 by lia. reflexivity.
    + rewrite lookup_app_r by (rewrite length_replicate; lia).
      rewrite length_replicate, lookup_drop. f_equal. f_equal. lia.
  - rewrite lookup_app_l by (rewrite length_take; lia).
    rewrite lookup_take_lt by lia. reflexivity.
Qed.

(** The word-at-a-time loop and the bulk [memset] write the same array. *)
Lemma fill_words_loop_memset m b e v :
  0 <= b <= e -> e <= Z.of_nat (length m) ->
  fill_words_loop (Z.to_nat (e - b)) b v m = memset_words m b e v.
Proof.
  intros Hbe Hlen. apply words_ext.
  - rewrite fill_words_loop_length, memset_words_length by assumption. reflexivity.
  - intros j Hj. rewrite fill_words_loop_at by lia.
    rewrite memset_words_at by lia.
    replace (b + Z.of_nat (Z.to_nat (e - b))) with e by lia. reflexivity.
Qed.

Lemma words_ok_fill n : forall i v m,
  words_ok m -> 0 <= v < 2 ^ BitsPerWord -> words_ok (fill_words_loop n i v m).
Proof.
  induction n as [|n IH]; intros i v m Hm Hv; simpl; [assumption|].
  apply IH; [|assumption]. now apply words_ok_store.
Qed.

Lemma fill_words_put_spec (v : bool) (w : Z) m b e :
  0 <= w < 2 ^ BitsPerWord ->
  (forall k, 0 <= k < 64 -> Z.testbit w k = v) ->
  0 <= b <= e -> e <= Z.of_nat (length m) ->
  put_spec v m (fill_words_loop (Z.to_nat (e - b)) b w m) (64 * b) (64 * e).
Proof.
  intros Hw Hbits Hbe Hlen.
  split; [apply fill_words_loop_length|]. split; [intros; now apply words_ok_fill|].
  intros i Hi. unfold bit_of at 1. rewrite fill_words_loop_at by zdiv.
  replace (b + Z.of_nat (Z.to_nat (e - b))) with e by lia.
  unfold in_range.
  destruct (Z.leb_spec b (i / 64)), (Z.ltb_spec (i / 64) e),
    (Z.leb_spec (64 * b) i), (Z.ltb_spec i (64 * e)); simpl;
    try reflexivity; try (exfalso; zdiv).
  apply Hbits. apply Z.mod_pos_bound. lia.
Qed.

Lemma set_range_of_words_spec m b e :
  0 <= b <= e -> e <= Z.of_nat (length m) ->
  put_spec true m (set_range_of_words m b e) (64 * b) (64 * e).
Proof.
  intros. apply fill_words_put_spec; try assumption; [apply all_ones_range|].
  intros k Hk. rewrite testbit_all_ones by lia.
  destruct (Z.ltb_spec k 64); [reflexivity | lia].
Qed.

Lemma clear_range_of_words_spec m b e :
  0 <= b <= e -> e <= Z.of_nat (length m) ->
  put_spec false m (clear_range_of_words m b e) (64 * b) (64 * e).
Proof.
  intros. apply fill_words_put_spec; try assumption; [rewrite pow64; lia|].
  intros k Hk. apply Z.bits_0.
Qed.

End WordRanges.

(** ** [set_range] and [clear_range] as bit updates *)

Section Ranges.

Variable bm : BitMap.
Hypothesis Hwf : wf bm.

Lemma wf_size_in_words : size_in_words bm = (_size bm + 63) / 64.
Proof.
  destruct Hwf as (H0 & H1 & _). rewrite pow64 in H1. unfold BitsPerWord in H1.
  unfold size_in_words, calc_size_in_words, BitsPerWord.
  rewrite wrap_small by (rewrite pow64; lia). now rewrite word_index_div.
Qed.

Lemma wf_length : Z.of_nat (length (_map bm)) = (_size bm + 63) / 64.
Proof. destruct Hwf as (_ & _ & H & _). now rewrite H, wf_size_in_words. Qed.

Lemma wf_round_up b :
  0 <= b <= _size bm -> word_index_round_up bm b = (b + 63) / 64.
Proof.
  intros Hb. destruct Hwf as (H0 & H1 & _). rewrite pow64 in H1. unfold BitsPerWord in H1.
  unfold word_index_round_up, BitsPerWord.
  rewrite wrap_small by (rewrite pow64; lia).
  destruct (Z.ltb_spec b (b + (64 - 1))); [|lia]. now rewrite word_index_div.
Qed.

Lemma wf_bit_index w :
  0 <= w -> 64 * w <= _size bm + 63 -> bit_index w = 64 * w.
Proof.
  intros Hw Hle. destruct Hwf as (H0 & H1 & _). rewrite pow64 in H1. unfold BitsPerWord in H1.
  apply bit_index_mul; [assumption | rewrite pow64; lia].
Qed.

Ltac range_setup b e :=
  let Hlen := fresh "Hlen" in
  pose proof wf_length as Hlen;
  rewrite (wf_round_up b) by lia; rewrite (word_index_div e);
  assert (bit_index ((b + 63) / 64) = 64 * ((b + 63) / 64)) as -> by (apply wf_bit_index; zdiv);
  assert (bit_index (e / 64) = 64 * (e / 64)) as -> by (apply wf_bit_index; zdiv).

Lemma set_range_spec b e :
  valid_range bm b e ->
  _size (set_range bm b e) = _size bm /\
  put_spec true (_map bm) (_map (set_range bm b e)) b e.
Proof.
  intros (Hb & Hbe & He). unfold set_range. range_setup b e.
  destruct (Z.ltb_spec ((b + 63) / 64) (e / 64)) as [Hlt|Hge]; simpl;
    (split; [reflexivity|]).
  - apply put_spec_trans with (b := 64 * (e / 64))
      (m1 := set_range_of_words
               (set_range_within_word (_map bm) b (64 * ((b + 63) / 64)))
               ((b + 63) / 64) (e / 64)); [zdiv | |].
    + apply put_spec_trans with (b := 64 * ((b + 63) / 64))
        (m1 := set_range_within_word (_map bm) b (64 * ((b + 63) / 64))); [zdiv | |].
      * apply set_range_within_word_spec; zdiv.
      * apply set_range_of_words_spec; [zdiv|].
        destruct (set_range_within_word_spec (_map bm) b (64 * ((b + 63) / 64)))
          as (L & _); [zdiv..|]. rewrite L. zdiv.
    + apply set_range_within_word_spec; [zdiv | zdiv |].
      unfold set_range_of_words. rewrite fill_words_loop_length.
      destruct (set_range_within_word_spec (_map bm) b (64 * ((b + 63) / 64)))
        as (L & _); [zdiv..|]. rewrite L. zdiv.
  - unfold MIN2.
    destruct (Z.ltb_spec (64 * ((b + 63) / 64)) e) as [Hm|Hm].
    + apply put_spec_trans with (b := 64 * ((b + 63) / 64))
        (m1 := set_range_within_word (_map bm) b (64 * ((b + 63) / 64))); [zdiv | |].
      * apply set_range_within_word_spec; zdiv.
      * destruct (set_range_within_word_spec (_map bm) b (64 * ((b + 63) / 64)))
          as (L & _); [zdiv..|].
        apply set_range_within_word_spec; [zdiv | zdiv |]. rewrite L. zdiv.
    + apply put_spec_trans with (b := e)
        (m1 := set_range_within_word (_map bm) b e); [lia | |].
      * apply set_range_within_word_spec; zdiv.
      * destruct (set_range_within_word_spec (_map bm) b e) as (L & _); [zdiv..|].
        apply set_range_within_word_spec; [lia | lia |]. rewrite L. zdiv.
Qed.

Lemma clear_range_spec b e :
  valid_range bm b e ->
  _size (clear_range bm b e) = _size bm /\
  put_spec false (_map bm) (_map (clear_range bm b e)) b e.
Proof.
  intros (Hb & Hbe & He). unfold clear_range. range_setup b e.
  destruct (Z.ltb_spec ((b + 63) / 64) (e / 64)) as [Hlt|Hge]; simpl;
    (split; [reflexivity|]).
  - apply put_spec_trans with (b := 64 * (e / 64))
      (m1 := clear_range_of_words
               (clear_range_within_word (_map bm) b (64 * ((b + 63) / 64)))
               ((b + 63) / 64) (e / 64)); [zdiv | |].
    + apply put_spec_trans with (b := 64 * ((b + 63) / 64))
        (m1 := clear_range_within_word (_map bm) b (64 * ((b + 63) / 64))); [zdiv | |].
      * apply clear_range_within_word_spec; zdiv.
      * apply clear_range_of_words_spec; [zdiv|].
        destruct (clear_range_within_word_spec (_map bm) b (64 * ((b + 63) / 64)))
          as (L & _); [zdiv..|]. rewrite L. zdiv.
    + apply clear_range_within_word_spec; [zdiv | zdiv |].
      unfold clear_range_of_words. rewrite fill_words_loop_length.
      destruct (clear_range_within_word_spec (_map bm) b (64 * ((b + 63) / 64)))
        as (L & _); [zdiv..|]. rewrite L. zdiv.
  - unfold MIN2.
    destruct (Z.ltb_spec (64 * ((b + 63) / 64)) e) as [Hm|Hm].
    + apply put_spec_trans with (b := 64 * ((b + 63) / 64))
        (m1 := clear_range_within_word (_map bm) b (64 * ((b + 63) / 64))); [zdiv | |].
      * apply clear_range_within_word_spec; zdiv.
      * destruct (clear_range_within_word_spec (_map bm) b (64 * ((b + 63) / 64)))
          as (L & _); [zdiv..|].
        apply clear_range_within_word_spec; [zdiv | zdiv |]. rewrite L. zdiv.
    + apply put_spec_trans with (b := e)
        (m1 := clear_range_within_word (_map bm) b e); [lia | |].
      * apply clear_range_within_word_spec; zdiv.
      * destruct (clear_range_within_word_spec (_map bm) b e) as (L & _); [zdiv..|].
        apply clear_range_within_word_spec; [lia | lia |]. rewrite L. zdiv.
Qed.

End Ranges.

(** ** Properties of the range operations *)

Section RangeProperties.

Lemma wfb_wf bm : wfb bm = true -> wf bm.
Proof.
  unfold wfb, wf. rewrite !andb_true_iff, forallb_forall.
  intros (((H0 & H1) & H2) & H3).
  apply Z.leb_le in H0. apply Z.leb_le in H1. apply Z.eqb_eq in H2.
  repeat split; try assumption.
  apply Forall_forall. intros w Hw. apply list_elem_of_In in Hw.
  specialize (H3 w Hw). apply andb_true_iff in H3 as (Ha & Hb).
  apply Z.leb_le in Ha. apply Z.ltb_lt in Hb. lia.
Qed.

Lemma set_range_wf bm b e : wf bm -> valid_range bm b e -> wf (set_range bm b e).
Proof.
  intros Hwf Hv. destruct (set_range_spec bm Hwf b e Hv) as (Hs & L & W & _).
  destruct Hwf as (H0 & H1 & H2 & H3). unfold wf, size_in_words in *.
  rewrite Hs, L. auto.
Qed.

Lemma clear_range_wf bm b e : wf bm -> valid_range bm b e -> wf (clear_range bm b e).
Proof.
  intros Hwf Hv. destruct (clear_range_spec bm Hwf b e Hv) as (Hs & L & W & _).
  destruct Hwf as (H0 & H1 & H2 & H3). unfold wf, size_in_words in *.
  rewrite Hs, L. auto.
Qed.

Lemma BitMap_ext (x y : BitMap) : _size x = _size y -> _map x = _map y -> x = y.
Proof. destruct x, y; simpl; intros; subst; reflexivity. Qed.

(** After [set_range] then [clear_range] the bits of the range are clear
    and all others are the ones of the state before. *)
Lemma set_then_clear_bits bm b e i :
  wf bm -> valid_range bm b e -> 0 <= i ->
  bit_of (_map (clear_range (set_range bm b e) b e)) i =
  if in_range b e i then false else bit_of (_map bm) i.
Proof.
  intros Hwf Hv Hi.
  destruct (set_range_spec bm Hwf b e Hv) as (Hs & L & W & B).
  assert (Hv' : valid_range (set_range bm b e) b e) by (unfold valid_range in *; rewrite Hs; exact Hv).
  destruct (clear_range_spec _ (set_range_wf bm b e Hwf Hv) b e Hv') as (Hs' & L' & W' & B').
  rewrite B', B by assumption. destruct (in_range b e i); reflexivity.
Qed.

(** The same final state as a plain [clear_range]. *)
Lemma set_then_clear_is_clear bm b e :
  wf bm -> valid_range bm b e ->
  clear_range (set_range bm b e) b e = clear_range bm b e.
Proof.
  intros Hwf Hv.
  destruct (set_range_spec bm Hwf b e Hv) as (Hs & L & W & B).
  assert (Hv' : valid_range (set_range bm b e) b e) by (unfold valid_range in *; rewrite Hs; exact Hv).
  destruct (clear_range_spec _ (set_range_wf bm b e Hwf Hv) b e Hv') as (Hs' & L' & W' & B').
  destruct (clear_range_spec bm Hwf b e Hv) as (Hs2 & L2 & W2 & B2).
  pose proof Hwf as (_ & _ & _ & Hok).
  apply BitMap_ext; [congruence|].
  apply bits_ext; [tauto | tauto | congruence |].
  intros i Hi. rewrite set_then_clear_bits, B2 by (assumption || lia). reflexivity.
Qed.

End RangeProperties.

(** ** Whole-bitmap scans *)

Section Scans.

Lemma testbit_tail_mask r j :
  0 <= r < 64 -> 0 <= j -> Z.testbit (tail_mask r) j = (j <? r).
Proof.
  intros Hr Hj. unfold tail_mask.
  rewrite Z.shiftl_mul_pow2, Z.mul_1_l by lia.
  assert (1 <= 2 ^ r < 2 ^ BitsPerWord).
  { split.
    - assert (0 < 2 ^ r) by (apply Z.pow_pos_nonneg; lia). lia.
    - apply Z.pow_lt_mono_r; unfold BitsPerWord; lia. }
  rewrite (wrap_small (2 ^ r)) by lia. rewrite wrap_small by lia.
  change (2 ^ r - 1) with (Z.pred (2 ^ r)). rewrite <- Z.ones_equiv.
  apply Z.testbit_ones_nonneg; lia.
Qed.

Lemma tail_mask_range r : 0 <= tail_mask r < 2 ^ BitsPerWord.
Proof. apply wrap_range. Qed.

Lemma any_word_false n : forall i hit,
  any_word n i hit = false <-> forall k, i <= k < i + Z.of_nat n -> hit k = false.
Proof.
  induction n as [|n IH]; intros i hit; simpl any_word.
  - split; [intros _ k Hk; lia | reflexivity].
  - destruct (hit i) eqn:Hi.
    + split; [discriminate|]. intros H. rewrite H in Hi by lia. discriminate.
    + rewrite IH. split; intros H k Hk.
      * destruct (Z.eq_dec k i) as [->|Hne]; [assumption | apply H; lia].
      * apply H. lia.
Qed.

Lemma word_zero_bits w :
  0 <= w < 2 ^ BitsPerWord ->
  (w = 0 <-> forall j, 0 <= j < 64 -> Z.testbit w j = false).
Proof.
  intros Hw. split.
  - intros -> j _. apply Z.bits_0.
  - intros H. apply word_ext; [assumption | rewrite pow64; lia |].
    intros j Hj. rewrite Z.bits_0. now apply H.
Qed.

Lemma tail_zero_bits w r :
  0 <= w < 2 ^ BitsPerWord -> 0 <= r < 64 ->
  (tail_of_map w r = 0 <-> forall j, 0 <= j < r -> Z.testbit w j = false).
Proof.
  intros Hw Hr. unfold tail_of_map.
  rewrite (word_zero_bits (Z.land w (tail_mask r))) by now apply land_range.
  split; intros H j Hj.
  - specialize (H j ltac:(lia)). rewrite Z.land_spec, testbit_tail_mask in H by lia.
    destruct (Z.ltb_spec j r); [|lia]. now rewrite andb_true_r in H.
  - rewrite Z.land_spec, testbit_tail_mask by lia.
    destruct (Z.ltb_spec j r); [|apply andb_false_r].
    rewrite andb_true_r. apply H. lia.
Qed.

Lemma no_bit_below_spec g size :
  0 <= size -> (forall k, 0 <= g k < 2 ^ BitsPerWord) ->
  (no_bit_below g size = true <->
   forall i, 0 <= i < size -> Z.testbit (g (i / 64)) (i mod 64) = false).
Proof.
  intros Hs Hg. unfold no_bit_below.
  rewrite word_index_div, bit_in_word_mod.
  destruct (any_word _ _ _) eqn:Ea.
  - split; [discriminate|]. intros H. exfalso.
    assert (Hf : any_word (Z.to_nat (size / 64)) 0 (fun index => negb (g index =? 0)) = false).
    { apply any_word_false. intros k Hk.
      assert (Hk0 : g k = 0).
      { apply word_zero_bits; [apply Hg|]. intros j Hj.
        specialize (H (64 * k + j) ltac:(zdiv)).
        replace ((64 * k + j) / 64) with k in H by zdiv.
        replace ((64 * k + j) mod 64) with j in H by zdiv. exact H. }
      rewrite Hk0. reflexivity. }
    congruence.
  - rewrite any_word_false in Ea.
    assert (Hwords : forall k, 0 <= k < size / 64 -> g k = 0).
    { intros k Hk. specialize (Ea k ltac:(lia)).
      apply negb_false_iff in Ea. now apply Z.eqb_eq in Ea. }
    rewrite orb_true_iff, !Z.eqb_eq.
    assert (Hr : 0 <= size mod 64 < 64) by (apply Z.mod_pos_bound; lia).
    rewrite (tail_zero_bits (g (size / 64)) (size mod 64)) by (auto || lia).
    split.
    + intros H i Hi.
      destruct (Z.eq_dec (i / 64) (size / 64)) as [E|E].
      * rewrite E. destruct H as [H|H]; [exfalso; zdiv|]. apply H. zdiv.
      * rewrite Hwords by zdiv. apply Z.bits_0.
    + intros H. right. intros j Hj.
      specialize (H (64 * (size / 64) + j) ltac:(zdiv)).
      replace ((64 * (size / 64) + j) / 64) with (size / 64) in H by zdiv.
      replace ((64 * (size / 64) + j) mod 64) with j in H by zdiv. exact H.
Qed.

Lemma contains_no_bit bm other :
  contains bm other =
  no_bit_below (fun index => Z.land (word_not (word_at (_map bm) index)) (word_at (_map other) index))
               (_size bm).
Proof. reflexivity. Qed.

Lemma is_full_no_bit bm :
  is_full bm = no_bit_below (fun index => word_not (word_at (_map bm) index)) (_size bm).
Proof. reflexivity. Qed.

Lemma intersects_no_bit bm other :
  0 <= _size bm ->
  intersects bm other =
  negb (no_bit_below (fun index => Z.land (word_at (_map bm) index) (word_at (_map other) index))
                     (_size bm)).
Proof.
  intros Hs. unfold intersects, no_bit_below.
  destruct (any_word _ _ _); [reflexivity|].
  rewrite negb_orb. f_equal.
  rewrite bit_in_word_mod.
  assert (Hr : 0 <= _size bm mod 64 < 64) by (apply Z.mod_pos_bound; lia).
  destruct (Z.ltb_spec 0 (_size bm mod 64)), (Z.eqb_spec (_size bm mod 64) 0);
    simpl; try lia; reflexivity.
Qed.

(** [contains]: every bit of [other] below [size] is a bit of [bm]. *)
Lemma contains_spec bm other :
  wf bm -> wf other ->
  (contains bm other = true <->
   forall i, 0 <= i < _size bm -> bit_of (_map other) i = true -> bit_of (_map bm) i = true).
Proof.
  intros (H0 & _ & _ & Hok) (_ & _ & _ & Hok').
  rewrite contains_no_bit, no_bit_below_spec;
    [|assumption | intros k; apply land_range, word_not_range].
  split; intros H i Hi.
  - specialize (H i Hi). rewrite Z.land_spec, testbit_word_not in H by zdiv.
    unfold bit_of. intros Ho. rewrite Ho in H.
    destruct (Z.ltb_spec (i mod 64) 64); [|exfalso; zdiv].
    destruct (Z.testbit (word_at (_map bm) (i / 64)) (i mod 64)); [reflexivity | discriminate].
  - specialize (H i Hi). rewrite Z.land_spec, testbit_word_not by zdiv. unfold bit_of in H.
    destruct (Z.testbit (word_at (_map other) (i / 64)) (i mod 64)); [|apply andb_false_r].
    rewrite H by reflexivity. now rewrite andb_false_r.
Qed.

(** [intersects]: some bit below [size] is set in both. *)
Lemma intersects_false_spec bm other :
  wf bm -> wf other ->
  (intersects bm other = false <->
   forall i, 0 <= i < _size bm -> bit_of (_map bm) i && bit_of (_map other) i = false).
Proof.
  intros (H0 & _ & _ & Hok) (_ & _ & _ & Hok').
  rewrite intersects_no_bit by assumption. rewrite negb_false_iff.
  rewrite no_bit_below_spec;
    [|assumption | intros k; apply land_range; now apply word_at_range].
  split; intros H i Hi; specialize (H i Hi); rewrite Z.land_spec in *; exact H.
Qed.

(** [is_full]: every bit below [size] is set; nothing else is looked at. *)
Lemma is_full_spec bm :
  0 <= _size bm ->
  (is_full bm = true <-> forall i, 0 <= i < _size bm -> bit_of (_map bm) i = true).
Proof.
  intros H0. rewrite is_full_no_bit, no_bit_below_spec;
    [|assumption | intros k; apply word_not_range].
  split; intros H i Hi; specialize (H i Hi).
  - rewrite testbit_word_not in H by zdiv. unfold bit_of.
    destruct (Z.ltb_spec (i mod 64) 64); [|exfalso; zdiv].
    destruct (Z.testbit _ _); [reflexivity | discriminate].
  - rewrite testbit_word_not by zdiv. unfold bit_of in H. rewrite H. apply andb_false_r.
Qed.

End Scans.

(** ** The complement *)

Section Complement.

Lemma word_at_imap (f : nat -> Z -> Z) (m : list Z) k :
  0 <= k < Z.of_nat (length m) ->
  word_at (imap f m) k = f (Z.to_nat k) (word_at m k).
Proof.
  intros Hk. unfold word_at. rewrite list_lookup_imap.
  destruct (m !! Z.to_nat k) as [w|] eqn:E; [reflexivity|].
  apply lookup_ge_None in E. lia.
Qed.

Lemma complement_size bm : _size (complement bm) = _size bm.
Proof. reflexivity. Qed.

Lemma complement_wf bm : wf bm -> wf (complement bm).
Proof.
  intros (H0 & H1 & H2 & H3). unfold wf, size_in_words, complement; simpl.
  rewrite length_imap. repeat split; try assumption.
  unfold words_ok. apply Forall_lookup. intros k x Hk.
  rewrite list_lookup_imap in Hk.
  destruct (_map bm !! k) as [w|]; simpl in Hk; [|discriminate].
  inversion Hk; subst x. destruct (Z.of_nat k <? _).
  - apply word_not_range.
  - apply land_range, word_not_range.
Qed.

Lemma complement_bit bm i :
  wf bm -> 0 <= i < _size bm ->
  bit_of (_map (complement bm)) i = negb (bit_of (_map bm) i).
Proof.
  intros Hwf Hi. pose proof (wf_length bm Hwf) as Hlen.
  unfold complement, bit_of; simpl.
  rewrite word_at_imap by zdiv. rewrite Z2Nat.id by zdiv.
  rewrite word_index_div, bit_in_word_mod.
  destruct (Z.ltb_spec (i / 64) (_size bm / 64)) as [Hlt|Hge].
  - rewrite testbit_word_not by zdiv.
    destruct (Z.ltb_spec (i mod 64) 64); [reflexivity | exfalso; zdiv].
  - unfold tail_of_map. rewrite Z.land_spec, testbit_tail_mask, testbit_word_not by zdiv.
    destruct (Z.ltb_spec (i mod 64) 64); [|exfalso; zdiv].
    destruct (Z.ltb_spec (i mod 64) (_size bm mod 64)); [|exfalso; zdiv].
    simpl. apply andb_true_r.
Qed.

End Complement.

(** ** Set algebra: the words written *)

Section SetAlgebra.

Lemma combine_words_length n : forall i f d o, length (combine_words n i f d o) = length d.
Proof.
  induction n as [|n IH]; intros i f d o; simpl; [reflexivity|].
  rewrite IH. apply store_length.
Qed.

Lemma combine_words_at n : forall i f d o k,
  0 <= i -> 0 <= k -> i + Z.of_nat n <= Z.of_nat (length d) ->
  word_at (combine_words n i f d o) k =
  if in_range i (i + Z.of_nat n) k then f (word_at d k) (word_at o k) else word_at d k.
Proof.
  induction n as [|n IH]; intros i f d o k Hi Hk Hlen; simpl combine_words.
  - unfold in_range.
    destruct (Z.leb_spec i k), (Z.ltb_spec k (i + Z.of_nat 0)); simpl; try lia; reflexivity.
  - rewrite IH by (rewrite ?store_length; lia).
    rewrite !word_at_store by lia. unfold in_range.
    destruct (Z.leb_spec (i + 1) k), (Z.ltb_spec k (i + 1 + Z.of_nat n)),
      (Z.leb_spec i k), (Z.ltb_spec k (i + Z.of_nat (S n))),
      (Z.eqb_spec i k), (Z.ltb_spec i (Z.of_nat (length d))); simpl; try lia;
      subst; reflexivity.
Qed.

Lemma combine_words_with_result_fst n : forall i f d o c,
  fst (combine_words_with_result n i f d o c) = combine_words n i f d o.
Proof.
  induction n as [|n IH]; intros i f d o c; simpl; [reflexivity|]. apply IH.
Qed.

Lemma set_combine_with_result_fst f bm other :
  fst (set_combine_with_result f bm other) = set_combine f bm other.
Proof.
  unfold set_combine_with_result, set_combine.
  pose proof (combine_words_with_result_fst (Z.to_nat (word_index (_size bm))) 0 f
                (_map bm) (_map other) false) as H.
  destruct (combine_words_with_result _ _ _ _ _ _) as [d c]. simpl in H. subst d.
  destruct (0 <? bit_in_word (_size bm)); reflexivity.
Qed.

Lemma testbit_merge_tail new_value old_value r j :
  0 <= r < 64 -> 0 <= j < 64 ->
  Z.testbit (merge_tail_of_map new_value old_value r) j =
  if j <? r then Z.testbit new_value j else Z.testbit old_value j.
Proof.
  intros Hr Hj. unfold merge_tail_of_map.
  rewrite Z.lor_spec, !Z.land_spec, testbit_word_not, testbit_tail_mask by lia.
  destruct (Z.ltb_spec j r), (Z.ltb_spec j 64); simpl; try lia.
  - now rewrite !andb_true_r, andb_false_r, orb_false_r.
  - now rewrite andb_false_r, andb_true_r.
Qed.

Lemma merge_tail_range new_value old_value r :
  0 <= old_value < 2 ^ BitsPerWord ->
  0 <= merge_tail_of_map new_value old_value r < 2 ^ BitsPerWord.
Proof.
  intros Ho. unfold merge_tail_of_map. apply lor_range.
  - rewrite Z.land_comm. apply land_range, tail_mask_range.
  - now apply land_range.
Qed.

Lemma set_combine_size f bm other : _size (set_combine f bm other) = _size bm.
Proof. unfold set_combine. destruct (0 <? _); reflexivity. Qed.

Lemma set_combine_length f bm other :
  length (_map (set_combine f bm other)) = length (_map bm).
Proof.
  unfold set_combine. destruct (0 <? _); simpl;
    rewrite ?store_length; apply combine_words_length.
Qed.

(** The bits at and beyond [size] are not changed by the set operations. *)
Lemma set_combine_frame f bm other i :
  wf bm -> _size bm <= i ->
  bit_of (_map (set_combine f bm other)) i = bit_of (_map bm) i.
Proof.
  intros Hwf Hi. pose proof (wf_length bm Hwf) as Hlen.
  pose proof Hwf as (H0 & _ & _ & Hok).
  unfold set_combine. rewrite word_index_div, bit_in_word_mod.
  destruct (Z.ltb_spec 0 (_size bm mod 64)) as [Hr|Hr]; simpl; unfold bit_of.
  - rewrite word_at_store by zdiv. rewrite combine_words_length.
    destruct (Z.eqb_spec (_size bm / 64) (i / 64)) as [E|E]; simpl.
    + destruct (Z.ltb_spec (_size bm / 64) (Z.of_nat (length (_map bm)))); [|exfalso; zdiv].
      rewrite testbit_merge_tail by zdiv.
      destruct (Z.ltb_spec (i mod 64) (_size bm mod 64)); [exfalso; zdiv|].
      rewrite combine_words_at by zdiv. unfold in_range.
      destruct (Z.leb_spec 0 (_size bm / 64)),
        (Z.ltb_spec (_size bm / 64) (0 + Z.of_nat (Z.to_nat (_size bm / 64))));
        simpl; try (exfalso; zdiv); now rewrite E.
    + rewrite combine_words_at by zdiv. unfold in_range.
      destruct (Z.leb_spec 0 (i / 64)),
        (Z.ltb_spec (i / 64) (0 + Z.of_nat (Z.to_nat (_size bm / 64))));
        simpl; try (exfalso; zdiv); reflexivity.
  - rewrite combine_words_at by zdiv. unfold in_range.
    destruct (Z.leb_spec 0 (i / 64)),
      (Z.ltb_spec (i / 64) (0 + Z.of_nat (Z.to_nat (_size bm / 64))));
      simpl; try (exfalso; zdiv); reflexivity.
Qed.

Lemma disjoint_words_length (from to_ : list Z) n :
  0 <= n <= Z.of_nat (length from) -> n <= Z.of_nat (length to_) ->
  length (disjoint_words from to_ n) = length to_.
Proof.
  intros Hf Ht. unfold disjoint_words.
  rewrite length_app, length_take, length_drop. lia.
Qed.

Lemma disjoint_words_at (from to_ : list Z) n k :
  0 <= n <= Z.of_nat (length from) -> 0 <= k ->
  word_at (disjoint_words from to_ n) k = if k <? n then word_at from k else word_at to_ k.
Proof.
  intros Hn Hk. unfold disjoint_words, word_at.
  destruct (Z.ltb_spec k n) as [Hlt|Hge].
  - rewrite lookup_app_l by (rewrite length_take; lia).
    rewrite lookup_take_lt by lia. reflexivity.
  - rewrite lookup_app_r by (rewrite length_take; lia).
    rewrite length_take, lookup_drop. f_equal. f_equal. lia.
Qed.

Lemma set_from_frame bm other i :
  wf bm -> wf other -> _size bm = _size other -> _size bm <= i ->
  bit_of (_map (set_from bm other)) i = bit_of (_map bm) i.
Proof.
  intros Hwf Hwo Hsz Hi. pose proof (wf_length bm Hwf) as Hlen.
  pose proof (wf_length other Hwo) as Hlen'. rewrite <- Hsz in Hlen'.
  pose proof Hwf as (H0 & _ & _ & Hok).
  unfold set_from. rewrite word_index_div, bit_in_word_mod.
  destruct (Z.ltb_spec 0 (_size bm mod 64)) as [Hr|Hr]; simpl; unfold bit_of.
  - rewrite word_at_store by zdiv. rewrite disjoint_words_length by zdiv.
    destruct (Z.eqb_spec (_size bm / 64) (i / 64)) as [E|E]; simpl.
    + destruct (Z.ltb_spec (_size bm / 64) (Z.of_nat (length (_map bm)))); [|exfalso; zdiv].
      rewrite testbit_merge_tail by zdiv.
      destruct (Z.ltb_spec (i mod 64) (_size bm mod 64)); [exfalso; zdiv|].
      rewrite disjoint_words_at by zdiv.
      destruct (Z.ltb_spec (_size bm / 64) (_size bm / 64)); [lia|]. now rewrite E.
    + rewrite disjoint_words_at by zdiv.
      destruct (Z.ltb_spec (i / 64) (_size bm / 64)); [exfalso; zdiv | reflexivity].
  - rewrite disjoint_words_at by zdiv.
    destruct (Z.ltb_spec (i / 64) (_size bm / 64)); [exfalso; zdiv | reflexivity].
Qed.

End SetAlgebra.

(** ** Population count *)

Section PopCount.

Lemma count_bits_S n b m :
  count_bits (S n) b m = Z.b2z (bit_of m b) + count_bits n (b + 1) m.
Proof. simpl. now rewrite at_bit_of. Qed.

Lemma count_bits_app n1 : forall n2 b m,
  count_bits (n1 + n2) b m = count_bits n1 b m + count_bits n2 (b + Z.of_nat n1) m.
Proof.
  induction n1 as [|n1 IH]; intros n2 b m.
  - simpl. now rewrite Z.add_0_r.
  - change (S n1 + n2)%nat with (S (n1 + n2)). rewrite !count_bits_S, IH.
    replace (b + 1 + Z.of_nat n1) with (b + Z.of_nat (S n1)) by lia. lia.
Qed.

Lemma count_bits_ext n : forall b m m',
  (forall i, b <= i < b + Z.of_nat n -> bit_of m i = bit_of m' i) ->
  count_bits n b m = count_bits n b m'.
Proof.
  induction n as [|n IH]; intros b m m' H; [reflexivity|].
  rewrite !count_bits_S. rewrite (H b) by lia. f_equal.
  apply IH. intros i Hi. apply H. lia.
Qed.

Lemma count_bits_all_set n : forall b m,
  (forall i, b <= i < b + Z.of_nat n -> bit_of m i = true) ->
  count_bits n b m = Z.of_nat n.
Proof.
  induction n as [|n IH]; intros b m H; [reflexivity|].
  rewrite count_bits_S, (H b) by lia. rewrite IH by (intros i Hi; apply H; lia).
  simpl Z.b2z. lia.
Qed.

Lemma count_bits_bound n : forall b m, 0 <= count_bits n b m <= Z.of_nat n.
Proof.
  induction n as [|n IH]; intros b m; [simpl; lia|].
  rewrite count_bits_S. specialize (IH (b + 1) m).
  destruct (bit_of m b); simpl Z.b2z; lia.
Qed.

Lemma word_bits_app n1 : forall n2 b w,
  word_bits (n1 + n2) b w = word_bits n1 b w + word_bits n2 (b + Z.of_nat n1) w.
Proof.
  induction n1 as [|n1 IH]; intros n2 b w.
  - simpl. now rewrite Z.add_0_r.
  - change (S n1 + n2)%nat with (S (n1 + n2)). simpl word_bits. rewrite IH.
    replace (b + 1 + Z.of_nat n1) with (b + Z.of_nat (S n1)) by lia. lia.
Qed.

Lemma word_bits_ext n : forall b v w,
  (forall j, b <= j < b + Z.of_nat n -> Z.testbit v j = Z.testbit w j) ->
  word_bits n b v = word_bits n b w.
Proof.
  induction n as [|n IH]; intros b v w H; [reflexivity|].
  simpl. rewrite (H b) by lia. f_equal. apply IH. intros j Hj. apply H. lia.
Qed.

Lemma word_bits_shiftr n : forall b w s,
  0 <= b -> 0 <= s -> word_bits n b (Z.shiftr w s) = word_bits n (b + s) w.
Proof.
  induction n as [|n IH]; intros b w s Hb Hs; [reflexivity|].
  simpl. rewrite Z.shiftr_spec by lia. rewrite IH by lia.
  replace (b + 1 + s) with (b + s + 1) by lia. reflexivity.
Qed.

Lemma word_bits_bound n : forall b w, 0 <= word_bits n b w <= Z.of_nat n.
Proof.
  induction n as [|n IH]; intros b w; [simpl; lia|].
  simpl word_bits. specialize (IH (b + 1) w).
  destruct (Z.testbit w b); simpl Z.b2z; lia.
Qed.

(** The bits of word [k] are the array bits [64 k .. 64 k + 63]. *)
Lemma count_bits_word n : forall m k j,
  0 <= k -> 0 <= j -> j + Z.of_nat n <= 64 ->
  count_bits n (64 * k + j) m = word_bits n j (word_at m k).
Proof.
  induction n as [|n IH]; intros m k j Hk Hj Hn; [reflexivity|].
  rewrite count_bits_S. simpl word_bits.
  replace (64 * k + j + 1) with (64 * k + (j + 1)) by lia.
  rewrite IH by lia. f_equal. unfold bit_of.
  replace ((64 * k + j) / 64) with k by zdiv.
  replace ((64 * k + j) mod 64) with j by zdiv. reflexivity.
Qed.

(** The table built by [init_pop_count_table] holds the bit counts of the
    byte values: checked on its 256 entries. *)
Lemma init_pop_count_table_ok :
  exists table, init_pop_count_table = Some table /\ pop_count_table_ok table = true.
Proof.
  destruct init_pop_count_table as [table|] eqn:E.
  - exists table. split; [reflexivity|].
    revert E. vm_compute. intros E. inversion E. reflexivity.
  - revert E. vm_compute. discriminate.
Qed.

Lemma table_lookup table c :
  pop_count_table_ok table = true -> 0 <= c < 256 ->
  num_set_bits_from_table table c = word_bits 8 0 c.
Proof.
  unfold pop_count_table_ok. rewrite andb_true_iff, forallb_forall.
  intros (_ & H) Hc. specialize (H (Z.to_nat c)).
  rewrite Z2Nat.id in H by lia. apply Z.eqb_eq, H.
  apply in_seq. lia.
Qed.

Lemma count_bytes_spec table n :
  pop_count_table_ok table = true ->
  forall w sum, 0 <= sum < 2 ^ BitsPerWord ->
  count_bytes table w sum n = wrap (sum + word_bits (8 * n) 0 w).
Proof.
  intros Ht. induction n as [|n IH]; intros w sum Hs.
  - simpl. rewrite Z.add_0_r. symmetry. now apply wrap_small.
  - cbn [count_bytes]. rewrite IH by apply wrap_range.
    change 255 with (Z.ones 8). rewrite Z.land_ones by lia.
    rewrite table_lookup by (assumption || (apply Z.mod_pos_bound; lia)).
    replace (8 * S n)%nat with (8 + 8 * n)%nat by lia.
    rewrite word_bits_app, word_bits_shiftr by lia.
    rewrite (word_bits_ext 8 0 (w mod 2 ^ 8) w).
    + unfold wrap. rewrite Zplus_mod_idemp_l. f_equal.
      assert (E8 : Z.of_nat 8 = 8) by reflexivity. rewrite E8. lia.
    + intros j Hj. apply Z.mod_pow2_bits_low. lia.
Qed.

Lemma count_bits_one_word m i :
  0 <= i -> count_bits 64 (64 * i) m = word_bits 64 0 (word_at m i).
Proof.
  intros Hi. assert (H64 : 0 + Z.of_nat 64 <= 64) by lia.
  pose proof (count_bits_word 64 m i 0 Hi (Z.le_refl 0) H64) as H.
  rewrite Z.add_0_r in H. exact H.
Qed.

Lemma count_words_spec table n :
  pop_count_table_ok table = true ->
  forall i m sum, 0 <= i -> 0 <= sum < 2 ^ BitsPerWord ->
  count_words table m i sum n = wrap (sum + count_bits (64 * n) (64 * i) m).
Proof.
  intros Ht. induction n as [|n IH]; intros i m sum Hi Hs.
  - simpl. rewrite Z.add_0_r. symmetry. now apply wrap_small.
  - cbn [count_words]. unfold count_word_bytes. rewrite count_bytes_spec by assumption.
    rewrite IH by (lia || apply wrap_range).
    replace (64 * S n)%nat with (64 + 64 * n)%nat by lia.
    rewrite count_bits_app.
    assert (E64 : Z.of_nat 64 = 64) by reflexivity.
    assert (E8 : (8 * Z.to_nat BytesPerWord)%nat = 64%nat) by reflexivity.
    rewrite E8, count_bits_one_word by assumption.
    unfold wrap. rewrite Zplus_mod_idemp_l. f_equal.
    replace (64 * (i + 1)) with (64 * i + Z.of_nat 64) by lia. lia.
Qed.

(** [count_one_bits] returns, and returns the number of set bits of the
    whole word array. *)
Lemma count_one_bits_spec bm :
  wf bm ->
  count_one_bits bm = Some (count_bits (64 * length (_map bm)) 0 (_map bm)).
Proof.
  intros Hwf. pose proof (wf_length bm Hwf) as Hlen.
  pose proof Hwf as (H0 & H1 & H2 & _). rewrite pow64 in H1. unfold BitsPerWord in H1.
  unfold count_one_bits.
  destruct init_pop_count_table_ok as (table & -> & Ht).
  f_equal. rewrite <- H2, Nat2Z.id.
  rewrite count_words_spec by (assumption || lia || (rewrite pow64; lia)).
  rewrite Z.add_0_l, Z.mul_0_r. apply wrap_small. rewrite pow64.
  pose proof (count_bits_bound (64 * length (_map bm)) 0 (_map bm)). zdiv.
Qed.

End PopCount.

(** ** Counting after a range update *)

Section CountAfterSet.

(** Setting the bits of [b, e) adds to the count the bits of the range
    that were clear. *)
Lemma set_bits_count N (m m' : list Z) b e :
  (forall i, 0 <= i -> bit_of m' i = if in_range b e i then true else bit_of m i) ->
  0 <= b <= e -> e <= Z.of_nat N ->
  count_bits N 0 m' =
  count_bits N 0 m + ((e - b) - count_bits (Z.to_nat (e - b)) b m).
Proof.
  intros Hbits Hbe HN.
  replace N with (Z.to_nat b + (Z.to_nat (e - b) + (N - Z.to_nat e)))%nat by lia.
  rewrite !count_bits_app. rewrite !Z.add_0_l.
  rewrite (count_bits_ext (Z.to_nat b) 0 m' m).
  2:{ intros i Hi. rewrite Hbits by lia. unfold in_range.
      destruct (Z.leb_spec b i); [lia | reflexivity]. }
  rewrite (count_bits_all_set (Z.to_nat (e - b)) (Z.of_nat (Z.to_nat b)) m').
  2:{ intros i Hi. rewrite Hbits by lia. unfold in_range.
      destruct (Z.leb_spec b i), (Z.ltb_spec i e); simpl; try lia; reflexivity. }
  rewrite (count_bits_ext (N - Z.to_nat e) _ m' m).
  2:{ intros i Hi. rewrite Hbits by lia. unfold in_range.
      destruct (Z.leb_spec b i), (Z.ltb_spec i e); simpl; try lia; reflexivity. }
  rewrite !Z2Nat.id by lia. lia.
Qed.

End CountAfterSet.

(** ** Resizing *)

Section Resize.

Lemma calc_size_in_words_div s :
  0 <= s -> s + BitsPerWord <= 2 ^ BitsPerWord -> calc_size_in_words s = (s + 63) / 64.
Proof.
  intros H0 H1. rewrite pow64 in H1. unfold BitsPerWord in H1.
  unfold calc_size_in_words, BitsPerWord.
  rewrite wrap_small by (rewrite pow64; lia). now rewrite word_index_div.
Qed.

Lemma not_null_length (m : list Z) : not_null m = (0 <? Z.of_nat (length m)).
Proof. destruct m; reflexivity. Qed.

Lemma words_ok_word_at (m : list Z) :
  (forall k, 0 <= k < Z.of_nat (length m) -> 0 <= word_at m k < 2 ^ BitsPerWord) ->
  words_ok m.
Proof.
  intros H. apply Forall_lookup. intros k x Hk.
  specialize (H (Z.of_nat k)). unfold word_at in H. rewrite Nat2Z.id, Hk in H.
  apply H. apply lookup_lt_Some in Hk. lia.
Qed.

Lemma MIN2_min a b : MIN2 a b = Z.min a b.
Proof. unfold MIN2. destruct (Z.ltb_spec a b); lia. Qed.

(** The array returned by [reallocate]: the first [min(old, new)] words are
    the old ones; the words beyond are zero when [clear] is requested and
    the allocator's otherwise. *)
Lemma reallocate_words a (old_map : list Z) old_size new_size clear :
  allocator_ok a ->
  0 <= old_size -> old_size + BitsPerWord <= 2 ^ BitsPerWord ->
  0 <= new_size -> new_size + BitsPerWord <= 2 ^ BitsPerWord ->
  Z.of_nat (length old_map) = calc_size_in_words old_size -> words_ok old_map ->
  let m := fst (reallocate a old_map old_size new_size clear) in
  let ow := calc_size_in_words old_size in
  let nw := calc_size_in_words new_size in
  Z.of_nat (length m) = nw /\ words_ok m /\
  forall k, 0 <= k < nw ->
    word_at m k =
    if k <? Z.min ow nw then word_at old_map k
    else if clear then 0 else word_at (fresh_words a nw) k.
Proof.
  intros Ha Ho0 Ho1 Hn0 Hn1 Hlen Hok. cbv zeta.
  unfold reallocate, allocator_allocate.
  rewrite not_null_length, Hlen, MIN2_min.
  rewrite (calc_size_in_words_div old_size), (calc_size_in_words_div new_size) in * by assumption.
  set (ow := (old_size + 63) / 64) in *. set (nw := (new_size + 63) / 64) in *.
  assert (How : 0 <= ow) by (subst ow; zdiv).
  assert (Hnw : 0 <= nw) by (subst nw; zdiv).
  destruct (Ha nw Hnw) as (Hfl & Hfok).
  destruct (Z.ltb_spec 0 nw) as [Hpos|Hzero]; simpl fst.
  2:{ split; [simpl; lia|]. split; [constructor|]. intros k Hk. lia. }
  set (map1 := if 0 <? ow then disjoint_words old_map (fresh_words a nw) (Z.min ow nw)
               else fresh_words a nw).
  assert (L1 : Z.of_nat (length map1) = nw).
  { subst map1. destruct (0 <? ow); [|assumption].
    rewrite disjoint_words_length by lia. assumption. }
  assert (A1 : forall k, 0 <= k < nw ->
            word_at map1 k = if k <? Z.min ow nw then word_at old_map k
                             else word_at (fresh_words a nw) k).
  { intros k Hk. subst map1. destruct (Z.ltb_spec 0 ow).
    - apply disjoint_words_at; lia.
    - destruct (Z.ltb_spec k (Z.min ow nw)); [lia | reflexivity]. }
  assert (W1 : words_ok map1).
  { apply words_ok_word_at. intros k Hk. rewrite A1 by lia.
    destruct (k <? Z.min ow nw); now apply word_at_range. }
  destruct clear; simpl andb.
  - destruct (Z.ltb_spec ow nw) as [Hgrow|Hshrink].
    + unfold clear_range_of_words.
      split; [rewrite fill_words_loop_length; assumption|].
      split; [apply words_ok_fill; [assumption | rewrite pow64; lia]|].
      intros k Hk. rewrite fill_words_loop_at by lia.
      replace (ow + Z.of_nat (Z.to_nat (nw - ow))) with nw by lia.
      unfold in_range. rewrite A1 by lia.
      destruct (Z.leb_spec ow k), (Z.ltb_spec k nw), (Z.ltb_spec k (Z.min ow nw));
        simpl; try lia; reflexivity.
    + split; [assumption|]. split; [assumption|].
      intros k Hk. rewrite A1 by lia.
      destruct (Z.ltb_spec k (Z.min ow nw)); [reflexivity | lia].
  - split; [assumption|]. split; [assumption|]. exact A1.
Qed.

End Resize.

Section ExampleAllocators.

Lemma stale_allocator_ok kind :
  allocator_ok (mkAllocator kind (fun n => replicate (Z.to_nat n) all_ones)).
Proof.
  intros n Hn. simpl. split.
  - rewrite length_replicate. lia.
  - apply Forall_replicate. apply all_ones_range.
Qed.

(** [is_full] gives the same answer on two bitmaps of the same size with
    the same bits below the size, whatever the rest of the last word. *)
Lemma is_full_ignores_tail bm bm' :
  0 <= _size bm -> _size bm = _size bm' ->
  (forall i, 0 <= i < _size bm -> bit_of (_map bm) i = bit_of (_map bm') i) ->
  is_full bm = is_full bm'.
Proof.
  intros H0 Hs Hbits.
  destruct (is_full bm) eqn:E1, (is_full bm') eqn:E2; try reflexivity; exfalso.
  - rewrite is_full_spec in E1 by assumption.
    assert (E : is_full bm' = true).
    { apply is_full_spec; [lia|]. intros i Hi. rewrite <- Hbits by lia. apply E1. lia. }
    congruence.
  - rewrite is_full_spec in E2 by lia.
    assert (E : is_full bm = true).
    { apply is_full_spec; [lia|]. intros i Hi. rewrite Hbits by lia. apply E2. lia. }
    congruence.
Qed.

End ExampleAllocators.

(** ** [iterate] *)

Section IterateFacts.

Context {S : Type}.
Variable blk : @BitMapClosure S.
Hypothesis Hblk : closure_ok blk.

Lemma low_bit_of_shift w k :
  0 <= k -> negb (Z.land (Z.shiftr w k) 1 =? 0) = Z.testbit w k.
Proof.
  intros Hk. change 1 with (2 ^ 0) at 1. rewrite land_pow2_testbit by lia.
  rewrite Z.shiftr_spec by lia. reflexivity.
Qed.

Lemma shift_zero_bits w k j :
  0 <= k <= j -> Z.shiftr w k = 0 -> Z.testbit w j = false.
Proof.
  intros Hk H0. replace j with ((j - k) + k) by lia.
  rewrite <- Z.shiftr_spec by lia. rewrite H0. apply Z.bits_0.
Qed.

Lemma shift_word_out w : 0 <= w < 2 ^ BitsPerWord -> Z.shiftr w 64 = 0.
Proof.
  intros Hw. rewrite Z.shiftr_div_pow2 by lia. apply Z.div_small. exact Hw.
Qed.

Lemma do_bit_words_ok st offset :
  words_ok (words st) -> words_ok (words (snd (do_bit blk st offset))).
Proof.
  intros Hok. unfold do_bit. specialize (Hblk (closure_state st) offset (words st) Hok).
  destruct (blk (closure_state st) offset (words st)) as [[ok s'] w']. exact Hblk.
Qed.

Lemma do_bit_calls st offset :
  calls (snd (do_bit blk st offset)) = calls st ++ [(offset, fst (do_bit blk st offset))].
Proof.
  unfold do_bit. destruct (blk (closure_state st) offset (words st)) as [[ok s'] w'].
  reflexivity.
Qed.

Lemma visit_bits_S offset st n :
  visit_bits blk offset st (Datatypes.S n) =
  if at_ (words st) offset then
    if negb (fst (do_bit blk st offset)) then (false, snd (do_bit blk st offset))
    else visit_bits blk (offset + 1) (snd (do_bit blk st offset)) n
  else visit_bits blk (offset + 1) st n.
Proof.
  cbn [visit_bits]. destruct (at_ (words st) offset); [|reflexivity].
  destruct (do_bit blk st offset) as [ok st']. reflexivity.
Qed.

Lemma visit_bits_words_ok n : forall offset st,
  words_ok (words st) -> words_ok (words (snd (visit_bits blk offset st n))).
Proof.
  induction n as [|n IH]; intros offset st Hok; [exact Hok|].
  rewrite visit_bits_S. destruct (at_ (words st) offset); [|now apply IH].
  destruct (negb (fst (do_bit blk st offset))).
  - now apply do_bit_words_ok.
  - apply IH. now apply do_bit_words_ok.
Qed.

(** Nothing happens over positions whose bits are clear. *)
Lemma visit_bits_clear n : forall offset st,
  (forall i, offset <= i < offset + Z.of_nat n -> at_ (words st) i = false) ->
  visit_bits blk offset st n = (true, st).
Proof.
  induction n as [|n IH]; intros offset st H; [reflexivity|].
  rewrite visit_bits_S, (H offset) by lia. apply IH. intros i Hi. apply H. lia.
Qed.

(** A traversal is the traversal of a first part followed, unless it was
    stopped, by the traversal of the rest. *)
Lemma visit_bits_app n1 : forall n2 offset st,
  visit_bits blk offset st (n1 + n2) =
  if fst (visit_bits blk offset st n1)
  then visit_bits blk (offset + Z.of_nat n1) (snd (visit_bits blk offset st n1)) n2
  else (false, snd (visit_bits blk offset st n1)).
Proof.
  induction n1 as [|n1 IH]; intros n2 offset st.
  - simpl. now rewrite Z.add_0_r.
  - change (Datatypes.S n1 + n2)%nat with (Datatypes.S (n1 + n2)).
    rewrite !visit_bits_S.
    replace (offset + Z.of_nat (Datatypes.S n1)) with (offset + 1 + Z.of_nat n1) by lia.
    destruct (at_ (words st) offset); [|apply IH].
    destruct (negb (fst (do_bit blk st offset))); [reflexivity | apply IH].
Qed.

Lemma calls_ok_weaken l : forall lo lo' hi,
  lo' <= lo -> calls_ok lo hi l -> calls_ok lo' hi l.
Proof.
  destruct l as [|[o ok] t]; intros lo lo' hi Hle H; [exact I|].
  simpl in *. destruct H as (H1 & H2 & H3). repeat split; try assumption; lia.
Qed.

(** The calls made by a traversal of [offset, offset + n). *)
Lemma visit_bits_calls n : forall offset st,
  exists new,
    calls (snd (visit_bits blk offset st n)) = calls st ++ new /\
    calls_ok offset (offset + Z.of_nat n) new /\
    fst (visit_bits blk offset st n) = forallb snd new.
Proof.
  induction n as [|n IH]; intros offset st.
  - exists []. simpl. rewrite app_nil_r. auto.
  - rewrite visit_bits_S. destruct (at_ (words st) offset).
    + destruct (fst (do_bit blk st offset)) eqn:Eok; simpl negb; cbv iota.
      * destruct (IH (offset + 1) (snd (do_bit blk st offset))) as (new & Hc & Hok & Hf).
        exists ((offset, true) :: new). rewrite Hc, do_bit_calls, Eok.
        split; [now rewrite <- app_assoc|]. split.
        -- simpl. split; [lia|]. split; [discriminate|].
           replace (offset + Z.of_nat (Datatypes.S n)) with (offset + 1 + Z.of_nat n) by lia.
           exact Hok.
        -- simpl. exact Hf.
      * exists [(offset, false)]. simpl. rewrite do_bit_calls, Eok.
        split; [reflexivity|]. split; [|reflexivity]. repeat split; lia.
    + destruct (IH (offset + 1) st) as (new & Hc & Hok & Hf).
      exists new. split; [exact Hc|]. split; [|exact Hf].
      apply calls_ok_weaken with (lo := offset + 1); [lia|].
      replace (offset + Z.of_nat (Datatypes.S n)) with (offset + 1 + Z.of_nat n) by lia.
      exact Hok.
Qed.

End IterateFacts.

Section IterateLoops.

Context {S : Type}.
Variable blk : @BitMapClosure S.
Hypothesis Hblk : closure_ok blk.

Lemma iterate_word_S index right offset rest st n :
  iterate_word blk index right offset rest st (Datatypes.S n) =
  if (offset <? right) && negb (rest =? 0) then
    if negb (Z.land rest 1 =? 0) then
      if negb (fst (do_bit blk st offset)) then (false, snd (do_bit blk st offset))
      else
        iterate_word blk index right (wrap (offset + 1))
          (Z.shiftr (Z.shiftr (word_at (words (snd (do_bit blk st offset))) index)
                              (Z.land offset (BitsPerWord - 1))) 1)
          (snd (do_bit blk st offset)) n
    else iterate_word blk index right (wrap (offset + 1)) (Z.shiftr rest 1) st n
  else (true, st).
Proof.
  cbn [iterate_word]. destruct ((offset <? right) && negb (rest =? 0)); [|reflexivity].
  destruct (negb (Z.land rest 1 =? 0)); [|reflexivity].
  destruct (do_bit blk st offset) as [ok st']. reflexivity.
Qed.

Lemma at_in_word (m : list Z) index offset :
  64 * index <= offset < 64 * (index + 1) ->
  at_ m offset = Z.testbit (word_at m index) (offset - 64 * index).
Proof.
  intros H. rewrite at_bit_of. unfold bit_of.
  replace (offset / 64) with index by zdiv.
  replace (offset mod 64) with (offset - 64 * index) by zdiv. reflexivity.
Qed.

(** The inner loop visits the bits of word [index] from [offset] up to the
    end of the word or [right], whichever comes first. *)
Lemma iterate_word_visit index right :
  0 <= index -> right < 2 ^ BitsPerWord ->
  forall n offset st,
    words_ok (words st) ->
    64 * index <= offset <= 64 * (index + 1) ->
    Z.min right (64 * (index + 1)) - offset <= Z.of_nat n ->
    iterate_word blk index right offset
      (Z.shiftr (word_at (words st) index) (offset - 64 * index)) st n =
    visit_bits blk offset st (Z.to_nat (Z.min right (64 * (index + 1)) - offset)).
Proof.
  intros Hidx Hright. induction n as [|n IH]; intros offset st Hok Hoff Hn.
  - replace (Z.to_nat _) with 0%nat by lia. reflexivity.
  - rewrite iterate_word_S.
    destruct (Z.ltb_spec offset right) as [Hlt|Hge]; simpl andb.
    2:{ replace (Z.to_nat _) with 0%nat by lia. reflexivity. }
    destruct (Z.eqb_spec (Z.shiftr (word_at (words st) index) (offset - 64 * index)) 0)
      as [Hz|Hnz]; simpl negb; cbv iota.
    { symmetry. apply visit_bits_clear. intros i Hi.
      rewrite (at_in_word _ index) by lia.
      apply shift_zero_bits with (k := offset - 64 * index); [lia | exact Hz]. }
    assert (Hin : offset < 64 * (index + 1)).
    { destruct (Z.eq_dec offset (64 * (index + 1))) as [E|E]; [|lia].
      exfalso. apply Hnz. replace (offset - 64 * index) with 64 by lia.
      apply shift_word_out. now apply word_at_range. }
    replace (Z.to_nat (Z.min right (64 * (index + 1)) - offset))
      with (Datatypes.S (Z.to_nat (Z.min right (64 * (index + 1)) - (offset + 1)))) by lia.
    rewrite visit_bits_S.
    rewrite low_bit_of_shift by lia. rewrite <- (at_in_word _ index) by lia.
    assert (Ew : wrap (offset + 1) = offset + 1) by (apply wrap_small; lia).
    assert (El : Z.land offset (BitsPerWord - 1) = offset - 64 * index).
    { fold (bit_in_word offset). rewrite bit_in_word_mod. zdiv. }
    destruct (at_ (words st) offset).
    + destruct (negb (fst (do_bit blk st offset))); [reflexivity|].
      rewrite Ew, El, Z.shiftr_shiftr by lia.
      replace (offset - 64 * index + 1) with (offset + 1 - 64 * index) by lia.
      apply IH; [now apply do_bit_words_ok | lia | lia].
    + rewrite Ew, Z.shiftr_shiftr by lia.
      replace (offset - 64 * index + 1) with (offset + 1 - 64 * index) by lia.
      apply IH; [assumption | lia | lia].
Qed.

Lemma iterate_loop_S endIndex right index offset st n :
  iterate_loop blk endIndex right index offset st (Datatypes.S n) =
  if (offset <? right) && (index <? endIndex) then
    let r := iterate_word blk index right offset
               (Z.shiftr (word_at (words st) index) (Z.land offset (BitsPerWord - 1)))
               st (Z.to_nat (right - offset)) in
    if negb (fst r) then (false, snd r)
    else iterate_loop blk endIndex right (wrap (index + 1)) (bit_index (wrap (index + 1)))
           (snd r) n
  else (true, st).
Proof.
  cbn [iterate_loop]. destruct ((offset <? right) && (index <? endIndex)); [|reflexivity].
  cbv zeta. destruct (iterate_word _ _ _ _ _ _ _) as [ok st']. reflexivity.
Qed.

(** The outer loop visits the bits from [offset] up to [right]. *)
Lemma iterate_loop_visit sw right :
  0 <= right -> right <= 64 * sw -> 64 * sw < 2 ^ BitsPerWord ->
  forall n index offset st,
    words_ok (words st) ->
    0 <= index -> 64 * index <= offset < 64 * (index + 1) ->
    Z.min (right / 64 + 1) sw - index <= Z.of_nat n ->
    iterate_loop blk (Z.min (right / 64 + 1) sw) right index offset st n =
    visit_bits blk offset st (Z.to_nat (right - offset)).
Proof.
  intros Hr0 Hrsw Hsw. induction n as [|n IH]; intros index offset st Hok Hidx Hoff Hn.
  - replace (Z.to_nat (right - offset)) with 0%nat by zdiv. reflexivity.
  - rewrite iterate_loop_S.
    destruct (Z.ltb_spec offset right) as [Hlt|Hge]; simpl andb.
    2:{ replace (Z.to_nat (right - offset)) with 0%nat by lia. reflexivity. }
    destruct (Z.ltb_spec index (Z.min (right / 64 + 1) sw)) as [Hi|Hi]; [|exfalso; zdiv].
    cbv zeta.
    assert (El : Z.land offset (BitsPerWord - 1) = offset - 64 * index).
    { fold (bit_in_word offset). rewrite bit_in_word_mod. zdiv. }
    rewrite El, iterate_word_visit by (assumption || lia).
    set (e := Z.min right (64 * (index + 1))).
    replace (Z.to_nat (right - offset))
      with (Z.to_nat (e - offset) + Z.to_nat (right - e))%nat by lia.
    rewrite visit_bits_app.
    destruct (fst (visit_bits blk offset st (Z.to_nat (e - offset)))) eqn:Eok;
      simpl negb; cbv iota; [|reflexivity].
    assert (Ew : wrap (index + 1) = index + 1) by (apply wrap_small; lia).
    rewrite Ew, bit_index_mul by lia.
    rewrite IH by (try (now apply visit_bits_words_ok); lia).
    destruct (Z.le_gt_cases (64 * (index + 1)) right) as [Hfull|Hpart].
    + f_equal; lia.
    + replace (Z.to_nat (right - 64 * (index + 1))) with 0%nat by lia.
      replace (Z.to_nat (right - e)) with 0%nat by lia. reflexivity.
Qed.

(** [iterate] is the traversal of the bits of [left, right), one position
    after the other, on the array as the closure leaves it. *)
Lemma iterate_visit bm left right (s : S) :
  wf bm -> valid_range bm left right ->
  iterate blk bm left right s =
  visit_bits blk left (mkIter s (_map bm) []) (Z.to_nat (right - left)).
Proof.
  intros Hwf (Hl & Hlr & Hr).
  pose proof (wf_size_in_words bm Hwf) as Hsw.
  pose proof Hwf as (H0 & H1 & _ & Hok). rewrite pow64 in H1. unfold BitsPerWord in H1.
  unfold iterate. rewrite !word_index_div, MIN2_min.
  rewrite wrap_small by (rewrite pow64; zdiv).
  apply iterate_loop_visit; simpl; try assumption; try lia;
    rewrite ?Hsw, ?pow64; zdiv.
Qed.

End IterateLoops.

Section ExampleClosure.

Lemma clear_range_within_word_words_ok m b e :
  words_ok m -> words_ok (clear_range_within_word m b e).
Proof.
  intros Hm. unfold clear_range_within_word.
  destruct (negb (b =? e)); [|assumption].
  apply words_ok_store; [assumption|]. apply land_range. now apply word_at_range.
Qed.

Lemma skip_next_closure_ok : closure_ok skip_next_closure.
Proof.
  intros s offset w Hw. unfold skip_next_closure. simpl.
  now apply clear_range_within_word_words_ok.
Qed.

End ExampleClosure.

(** ** The mandatory pass *)

Section MandatoryPass.

Variables (budget_ms : Q) (min_length max_length : nat).

Lemma mandatory_pass_ge_count candidates : forall count used_ms,
  (count <= mandatory_pass budget_ms min_length max_length count used_ms candidates)%nat.
Proof.
  induction candidates as [|r rest IH]; intros count used_ms; simpl; [lia|].
  destruct (count <? min_length)%nat.
  - specialize (IH (Datatypes.S count) (used_ms + predicted_time_ms r)%Q). lia.
  - destruct (max_length <=? count)%nat; [lia|].
    destruct (Qle_bool _ _); [|lia].
    specialize (IH (Datatypes.S count) (used_ms + predicted_time_ms r)%Q). lia.
Qed.

(** The floor: neither the budget nor the maximum keeps the count below
    the minimum, as far as there are candidates. *)
Lemma mandatory_pass_floor candidates : forall count used_ms,
  (Nat.min min_length (count + length candidates) <=
   mandatory_pass budget_ms min_length max_length count used_ms candidates)%nat.
Proof.
  induction candidates as [|r rest IH]; intros count used_ms; simpl.
  - lia.
  - destruct (Nat.ltb_spec count min_length).
    + specialize (IH (Datatypes.S count) (used_ms + predicted_time_ms r)%Q). lia.
    + destruct (max_length <=? count)%nat; [lia|].
      destruct (Qle_bool _ _); [|lia].
      pose proof (mandatory_pass_ge_count rest (Datatypes.S count)
                    (used_ms + predicted_time_ms r)%Q). lia.
Qed.

End MandatoryPass.

(** ** The example bitmaps are well-formed *)

Section ExampleBitmaps.

Lemma bm70_wf : wf bm70.
Proof.
  apply wfb_wf. vm_compute. reflexivity.
Defined.

Lemma bm2200_wf : wf bm2200.
Proof.
  apply wfb_wf. vm_compute. reflexivity.
Defined.

End ExampleBitmaps.


(** ** The atomic range write *)

(** The clause of the invariant about the thread that did not move, and
    the one about a thread that has just read the word. *)
Ltac other_thread H :=
  let w := fresh "w" in let nw := fresh "nw" in let Hc := fresh "Hc" in
  let A := fresh "A" in let B := fresh "B" in let C := fresh "C" in
  let Hx := fresh "Hx" in
  intros w nw Hc; destruct (H w nw Hc) as (A & B & C);
  split; [exact A|]; split; [exact B|]; intros Hx;
  first [reflexivity | exact (C Hx) | specialize (C Hx); discriminate C].

Ltac this_thread Hne :=
  let w := fresh "w" in let nw := fresh "nw" in let Hc := fresh "Hc" in
  let Hx := fresh "Hx" in
  intros w nw Hc; injection Hc as <- <-; split; [reflexivity|];
  split; [exact Hne|]; intros Hx; contradiction Hx; reflexivity.

Ltac steps_arith :=
  cbn [steps_left is_done]; rewrite ?andb_false_r, ?andb_true_r;
  repeat match goal with
         | |- context [if ?b then _ else _] => destruct b
         end;
  lia.

Section ParPut.

Variables (c1 c2 : par_call) (m0 : list Z).
Hypothesis Hok0 : words_ok m0.
Hypothesis Hc1 : within_word m0 c1.
Hypothesis Hc2 : within_word m0 c2.
Hypothesis Hdisjoint : call_end c1 <= call_beg c2 \/ call_end c2 <= call_beg c1.

(** A successful compare-and-swap is the sequential write on the array as
    it is then. *)
Lemma cas_success_put c (m : list Z) :
  within_word m c -> call_beg c <> call_end c ->
  put_spec (call_value c) m
    (store m (word_index (call_beg c)) (new_word c (word_at m (word_index (call_beg c)))))
    (call_beg c) (call_end c).
Proof.
  intros (Hb & Hw & He) Hne. unfold new_word.
  destruct (call_value c).
  - pose proof (set_range_within_word_spec m _ _ Hb Hw He) as H.
    unfold set_range_within_word in H.
    destruct (Z.eqb_spec (call_beg c) (call_end c)); [contradiction|]. exact H.
  - pose proof (clear_range_within_word_spec m _ _ Hb Hw He) as H.
    unfold clear_range_within_word in H.
    destruct (Z.eqb_spec (call_beg c) (call_end c)); [contradiction|]. exact H.
Qed.

Lemma within_word_length c (m m' : list Z) :
  length m' = length m -> within_word m c -> within_word m' c.
Proof. unfold within_word. intros ->. auto. Qed.

Lemma par_invariant_init : par_invariant c1 c2 m0 (mkPar Start Start m0).
Proof.
  unfold par_invariant. simpl. split; [reflexivity|]. split; [exact Hok0|].
  split; [|split; intros w nw H; discriminate H].
  intros i Hi. rewrite !andb_false_r. reflexivity.
Qed.

Lemma in_range_disjoint i :
  in_range (call_beg c1) (call_end c1) i = true ->
  in_range (call_beg c2) (call_end c2) i = true -> False.
Proof.
  unfold in_range. rewrite !andb_true_iff, !Z.leb_le, !Z.ltb_lt. lia.
Qed.

Lemma in_range_empty b i : in_range b b i = false.
Proof.
  unfold in_range. destruct (Z.leb_spec b i), (Z.ltb_spec i b); simpl; try reflexivity; lia.
Qed.

(** A thread's step from [Start]. *)
Lemma par_start_bits c (v : bool) (other : bool) (x y : bool) i :
  call_beg c = call_end c ->
  (if in_range (call_beg c) (call_end c) i && other then v else x) = x.
Proof. intros ->. rewrite in_range_empty. reflexivity. Qed.

Lemma par_invariant_step first s :
  par_invariant c1 c2 m0 s -> par_invariant c1 c2 m0 (par_step c1 c2 first s).
Proof.
  intros (HL & HW & HB & H1 & H2). destruct s as [p1 p2 m]. cbn [pc1 pc2 shared] in *.
  destruct first; unfold par_step; cbn [pc1 pc2 shared].
  - (* the first thread *)
    destruct p1 as [|w nw|]; cbn [par_put_range_within_word].
    + destruct (Z.eqb_spec (call_beg c1) (call_end c1)) as [E|E]; cbn [negb].
      * split; [exact HL|]. split; [exact HW|]. cbn [pc1 pc2 shared].
        split; [|split; [intros w nw H; discriminate H | other_thread H2]].
        intros i Hi. rewrite HB by exact Hi.
        rewrite !(par_start_bits c1 _ _ _ true i E). reflexivity.
      * split; [exact HL|]. split; [exact HW|]. cbn [pc1 pc2 shared].
        split; [intros i Hi; rewrite HB by exact Hi; reflexivity|].
        split; [this_thread E | other_thread H2].
    + destruct (H1 w nw eq_refl) as (Hnw & Hne & Hother).
      unfold cmpxchg.
      destruct (Z.eqb_spec (word_at m (word_index (call_beg c1))) w) as [E|E].
      * (* the compare-and-swap succeeds *)
        subst nw. rewrite <- E.
        pose proof (cas_success_put c1 m (within_word_length c1 m0 m HL Hc1) Hne)
          as (PL & PW & PB).
        split; [cbn [shared]; rewrite PL; exact HL|]. split; [exact (PW HW)|].
        cbn [pc1 pc2 shared].
        split; [|split; [intros w' nw' H; discriminate H | other_thread H2]].
        intros i Hi. rewrite PB by exact Hi. cbn [is_done]. rewrite andb_true_r.
        destruct (in_range (call_beg c1) (call_end c1) i) eqn:R1; [reflexivity|].
        rewrite HB by exact Hi. rewrite R1. reflexivity.
      * (* it fails: the word is read again *)
        split; [exact HL|]. split; [exact HW|]. cbn [pc1 pc2 shared].
        split; [intros i Hi; rewrite HB by exact Hi; reflexivity|].
        split; [this_thread Hne | other_thread H2].
    + split; [exact HL|]. split; [exact HW|].
      split; [exact HB|]. split; [intros w nw H; discriminate H | exact H2].
  - (* the second thread *)
    destruct p2 as [|w nw|]; cbn [par_put_range_within_word].
    + destruct (Z.eqb_spec (call_beg c2) (call_end c2)) as [E|E]; cbn [negb].
      * split; [exact HL|]. split; [exact HW|]. cbn [pc1 pc2 shared].
        split; [|split; [other_thread H1 | intros w nw H; discriminate H]].
        intros i Hi. rewrite HB by exact Hi.
        rewrite !(par_start_bits c2 _ _ _ true i E). reflexivity.
      * split; [exact HL|]. split; [exact HW|]. cbn [pc1 pc2 shared].
        split; [intros i Hi; rewrite HB by exact Hi; reflexivity|].
        split; [other_thread H1 | this_thread E].
    + destruct (H2 w nw eq_refl) as (Hnw & Hne & Hother).
      unfold cmpxchg.
      destruct (Z.eqb_spec (word_at m (word_index (call_beg c2))) w) as [E|E].
      * subst nw. rewrite <- E.
        pose proof (cas_success_put c2 m (within_word_length c2 m0 m HL Hc2) Hne)
          as (PL & PW & PB).
        split; [cbn [shared]; rewrite PL; exact HL|]. split; [exact (PW HW)|].
        cbn [pc1 pc2 shared].
        split; [|split; [other_thread H1 | intros w' nw' H; discriminate H]].
        intros i Hi. rewrite PB by exact Hi. cbn [is_done]. rewrite andb_true_r.
        destruct (in_range (call_beg c2) (call_end c2) i) eqn:R2.
        -- destruct (in_range (call_beg c1) (call_end c1) i) eqn:R1;
             [exfalso; exact (in_range_disjoint i R1 R2) | reflexivity].
        -- rewrite HB by exact Hi. rewrite R2. reflexivity.
      * split; [exact HL|]. split; [exact HW|]. cbn [pc1 pc2 shared].
        split; [intros i Hi; rewrite HB by exact Hi; reflexivity|].
        split; [other_thread H1 | this_thread Hne].
    + split; [exact HL|]. split; [exact HW|].
      split; [exact HB|]. split; [exact H1 | intros w nw H; discriminate H].
Qed.

Lemma par_invariant_run schedule : forall s,
  par_invariant c1 c2 m0 s -> par_invariant c1 c2 m0 (par_run c1 c2 schedule s).
Proof.
  induction schedule as [|first rest IH]; intros s Hs; [exact Hs|].
  simpl. apply IH. now apply par_invariant_step.
Qed.

(** A thread that has returned does nothing more. *)
Lemma par_done_stays c (m : list Z) : par_put_range_within_word c Done m = (Done, m).
Proof. reflexivity. Qed.

Lemma steps_left_done c pc other (m : list Z) :
  steps_left c pc other m = 0%nat -> pc = Done.
Proof.
  destruct pc as [|w nw|]; simpl; [| |reflexivity].
  - destruct (is_done other); discriminate.
  - destruct (_ && _); discriminate.
Qed.

(** Its own step brings a thread nearer to its return; a step of the
    other thread does not take it further away. *)
Lemma steps_left_step1 first s :
  par_invariant c1 c2 m0 s ->
  let s' := par_step c1 c2 first s in
  let before := steps_left c1 (pc1 s) (pc2 s) (shared s) in
  let after := steps_left c1 (pc1 s') (pc2 s') (shared s') in
  (if first then after < before \/ after = 0 else after <= before)%nat.
Proof.
  intros (HL & HW & HB & H1 & H2). destruct s as [p1 p2 m]. cbn [pc1 pc2 shared] in *.
  cbv zeta. destruct first; unfold par_step; cbn [pc1 pc2 shared].
  - destruct p1 as [|w nw|]; cbn [par_put_range_within_word].
    + destruct (Z.eqb_spec (call_beg c1) (call_end c1)); cbn [negb pc1 pc2 shared steps_left].
      * right. reflexivity.
      * left. rewrite Z.eqb_refl. destruct (is_done p2); simpl; lia.
    + destruct (H1 w nw eq_refl) as (_ & _ & Hother). unfold cmpxchg.
      destruct (Z.eqb_spec (word_at m (word_index (call_beg c1))) w) as [E|E];
        cbn [pc1 pc2 shared steps_left].
      * right. reflexivity.
      * left. rewrite (Hother E). rewrite Z.eqb_refl.
        apply Z.eqb_neq in E. rewrite E. simpl. lia.
    + right. reflexivity.
  - destruct p2 as [|w nw|]; cbn [par_put_range_within_word].
    + destruct (negb (call_beg c2 =? call_end c2)); cbn [pc1 pc2 shared];
        destruct p1 as [|w1 nw1|]; steps_arith.
    + unfold cmpxchg.
      destruct (Z.eqb_spec (word_at m (word_index (call_beg c2))) w) as [E|E];
        cbn [pc1 pc2 shared]; destruct p1 as [|w1 nw1|]; steps_arith.
    + cbn [pc1 pc2 shared]. lia.
Qed.

Lemma steps_left_step2 first s :
  par_invariant c1 c2 m0 s ->
  let s' := par_step c1 c2 first s in
  let before := steps_left c2 (pc2 s) (pc1 s) (shared s) in
  let after := steps_left c2 (pc2 s') (pc1 s') (shared s') in
  (if first then after <= before else after < before \/ after = 0)%nat.
Proof.
  intros (HL & HW & HB & H1 & H2). destruct s as [p1 p2 m]. cbn [pc1 pc2 shared] in *.
  cbv zeta. destruct first; unfold par_step; cbn [pc1 pc2 shared].
  - destruct p1 as [|w nw|]; cbn [par_put_range_within_word].
    + destruct (negb (call_beg c1 =? call_end c1)); cbn [pc1 pc2 shared];
        destruct p2 as [|w2 nw2|]; steps_arith.
    + unfold cmpxchg.
      destruct (Z.eqb_spec (word_at m (word_index (call_beg c1))) w) as [E|E];
        cbn [pc1 pc2 shared]; destruct p2 as [|w2 nw2|]; steps_arith.
    + cbn [pc1 pc2 shared]. lia.
  - destruct p2 as [|w nw|]; cbn [par_put_range_within_word].
    + destruct (Z.eqb_spec (call_beg c2) (call_end c2)); cbn [negb pc1 pc2 shared steps_left].
      * right. reflexivity.
      * left. rewrite Z.eqb_refl. destruct (is_done p1); simpl; lia.
    + destruct (H2 w nw eq_refl) as (_ & _ & Hother). unfold cmpxchg.
      destruct (Z.eqb_spec (word_at m (word_index (call_beg c2))) w) as [E|E];
        cbn [pc1 pc2 shared steps_left].
      * right. reflexivity.
      * left. rewrite (Hother E). rewrite Z.eqb_refl.
        apply Z.eqb_neq in E. rewrite E. simpl. lia.
    + right. reflexivity.
Qed.

Lemma steps_left_run1 schedule : forall s,
  par_invariant c1 c2 m0 s ->
  let s' := par_run c1 c2 schedule s in
  (steps_left c1 (pc1 s') (pc2 s') (shared s') + turns true schedule <=
     steps_left c1 (pc1 s) (pc2 s) (shared s) \/
   steps_left c1 (pc1 s') (pc2 s') (shared s') = 0)%nat.
Proof.
  induction schedule as [|first rest IH]; intros s Hs; cbv zeta.
  - left. unfold turns. simpl. lia.
  - cbn [par_run].
    pose proof (steps_left_step1 first s Hs) as Hstep. cbv zeta in Hstep.
    specialize (IH _ (par_invariant_step first s Hs)). cbv zeta in IH.
    unfold turns in *. destruct first; simpl in *; lia.
Qed.

Lemma steps_left_run2 schedule : forall s,
  par_invariant c1 c2 m0 s ->
  let s' := par_run c1 c2 schedule s in
  (steps_left c2 (pc2 s') (pc1 s') (shared s') + turns false schedule <=
     steps_left c2 (pc2 s) (pc1 s) (shared s) \/
   steps_left c2 (pc2 s') (pc1 s') (shared s') = 0)%nat.
Proof.
  induction schedule as [|first rest IH]; intros s Hs; cbv zeta.
  - left. unfold turns. simpl. lia.
  - cbn [par_run].
    pose proof (steps_left_step2 first s Hs) as Hstep. cbv zeta in Hstep.
    specialize (IH _ (par_invariant_step first s Hs)). cbv zeta in IH.
    unfold turns in *. destruct first; simpl in *; lia.
Qed.

(** The two calls under a schedule, from the array [m0]. *)
Lemma par_run_spec schedule :
  let s := par_run c1 c2 schedule (mkPar Start Start m0) in
  (pc1 s = Done -> forall i, call_beg c1 <= i < call_end c1 ->
     at_ (shared s) i = call_value c1) /\
  (pc2 s = Done -> forall i, call_beg c2 <= i < call_end c2 ->
     at_ (shared s) i = call_value c2) /\
  (forall i, 0 <= i ->
     in_range (call_beg c1) (call_end c1) i = false ->
     in_range (call_beg c2) (call_end c2) i = false ->
     at_ (shared s) i = at_ m0 i) /\
  ((3 <= turns true schedule)%nat -> pc1 s = Done) /\
  ((3 <= turns false schedule)%nat -> pc2 s = Done).
Proof.
  cbv zeta.
  pose proof (par_invariant_run schedule _ par_invariant_init) as (HL & HW & HB & _).
  pose proof (steps_left_run1 schedule _ par_invariant_init) as R1.
  pose proof (steps_left_run2 schedule _ par_invariant_init) as R2.
  cbv zeta in R1, R2. cbn [pc1 pc2 shared steps_left is_done] in R1, R2.
  destruct Hc1 as (Hb1 & _). destruct Hc2 as (Hb2 & _).
  split; [|split; [|split; [|split]]].
  - intros Hd i Hi. rewrite at_bit_of, HB by lia. rewrite Hd.
    unfold in_range at 1.
    destruct (Z.leb_spec (call_beg c1) i), (Z.ltb_spec i (call_end c1)); try reflexivity; lia.
  - intros Hd i Hi. rewrite at_bit_of, HB by lia. rewrite Hd.
    destruct (in_range (call_beg c1) (call_end c1) i) eqn:E1.
    + exfalso. apply (in_range_disjoint i E1). unfold in_range.
      destruct (Z.leb_spec (call_beg c2) i), (Z.ltb_spec i (call_end c2)); try reflexivity; lia.
    + cbn [andb]. unfold in_range at 1.
      destruct (Z.leb_spec (call_beg c2) i), (Z.ltb_spec i (call_end c2)); try reflexivity; lia.
  - intros i Hi E1 E2. rewrite !at_bit_of, HB by lia. rewrite E1, E2. reflexivity.
  - intros Ht. destruct R1 as [R1|R1]; [|exact (steps_left_done _ _ _ _ R1)].
    apply (steps_left_done c1 _ (pc2 (par_run c1 c2 schedule (mkPar Start Start m0)))
             (shared (par_run c1 c2 schedule (mkPar Start Start m0)))). lia.
  - intros Ht. destruct R2 as [R2|R2]; [|exact (steps_left_done _ _ _ _ R2)].
    apply (steps_left_done c2 _ (pc1 (par_run c1 c2 schedule (mkPar Start Start m0)))
             (shared (par_run c1 c2 schedule (mkPar Start Start m0)))). lia.
Qed.

End ParPut.

(** * Further properties of bitMap.cpp *)

(** ** Ranges *)

Section MoreRanges.

(** Two arrays obtained from the same array by the same bit update are the
    same array. *)
Lemma put_spec_unique v (m m1 m2 : list Z) b e :
  words_ok m -> put_spec v m m1 b e -> put_spec v m m2 b e -> m1 = m2.
Proof.
  intros Hok (L1 & W1 & B1) (L2 & W2 & B2).
  apply bits_ext; [tauto | tauto | congruence |].
  intros i Hi. rewrite B1, B2 by lia. reflexivity.
Qed.

Lemma at_put_range_spec bm b e v :
  wf bm -> valid_range bm b e ->
  _size (at_put_range bm b e v) = _size bm /\
  put_spec v (_map bm) (_map (at_put_range bm b e v)) b e.
Proof.
  intros Hwf Hv. destruct v; simpl.
  - now apply set_range_spec.
  - now apply clear_range_spec.
Qed.

Lemma at_put_range_wf bm b e v :
  wf bm -> valid_range bm b e -> wf (at_put_range bm b e v).
Proof.
  intros Hwf Hv. destruct v; simpl; [now apply set_range_wf | now apply clear_range_wf].
Qed.

(** A bit update that changes no bit gives the array back. *)
Lemma at_put_range_id bm b e v :
  wf bm -> valid_range bm b e ->
  (forall i, b <= i < e -> bit_of (_map bm) i = v) ->
  at_put_range bm b e v = bm.
Proof.
  intros Hwf Hv Hbits.
  destruct (at_put_range_spec bm b e v Hwf Hv) as (Hs & L & W & B).
  pose proof Hwf as (_ & _ & _ & Hok).
  apply BitMap_ext; [assumption|].
  apply bits_ext; [tauto | assumption | assumption |].
  intros i Hi. rewrite B by lia. unfold in_range.
  destruct (Z.leb_spec b i), (Z.ltb_spec i e); simpl; try reflexivity.
  symmetry. apply Hbits. lia.
Qed.

(** Two updates to the same value over ranges that overlap or touch are
    one update over their union. *)
Lemma at_put_range_union bm a b c d v :
  wf bm -> valid_range bm a b -> valid_range bm c d -> c <= b -> a <= d ->
  at_put_range (at_put_range bm a b v) c d v =
  at_put_range bm (Z.min a c) (Z.max b d) v.
Proof.
  intros Hwf Hab Hcd Hcb Had.
  destruct (at_put_range_spec bm a b v Hwf Hab) as (Hs1 & L1 & W1 & B1).
  pose proof (at_put_range_wf bm a b v Hwf Hab) as Hwf1.
  assert (Hcd' : valid_range (at_put_range bm a b v) c d)
    by (unfold valid_range in *; rewrite Hs1; exact Hcd).
  destruct (at_put_range_spec _ c d v Hwf1 Hcd') as (Hs2 & L2 & W2 & B2).
  assert (Hu : valid_range bm (Z.min a c) (Z.max b d)) by (unfold valid_range in *; lia).
  destruct (at_put_range_spec bm (Z.min a c) (Z.max b d) v Hwf Hu) as (Hs3 & L3 & W3 & B3).
  pose proof Hwf as (_ & _ & _ & Hok).
  apply BitMap_ext; [congruence|].
  apply bits_ext; [tauto | tauto | congruence |].
  intros i Hi. rewrite B2, B1, B3 by lia. unfold in_range.
  destruct Hab as (? & ? & ?), Hcd as (? & ? & ?).
  destruct (Z.leb_spec c i), (Z.ltb_spec i d), (Z.leb_spec a i), (Z.ltb_spec i b),
    (Z.leb_spec (Z.min a c) i), (Z.ltb_spec i (Z.max b d)); simpl; try reflexivity; lia.
Qed.

End MoreRanges.

(** ** Queries *)

Section MoreQueries.

Lemma any_word_ext n : forall i hit hit',
  (forall k, i <= k < i + Z.of_nat n -> hit k = hit' k) ->
  any_word n i hit = any_word n i hit'.
Proof.
  induction n as [|n IH]; intros i hit hit' H; [reflexivity|].
  simpl. rewrite (H i) by lia. destruct (hit' i); [reflexivity|].
  apply IH. intros k Hk. apply H. lia.
Qed.

Lemma is_same_no_bit bm other :
  is_same bm other =
  no_bit_below (fun index => Z.lxor (word_at (_map bm) index) (word_at (_map other) index))
               (_size bm).
Proof.
  unfold is_same, no_bit_below.
  rewrite (any_word_ext _ 0 _
             (fun index => negb (Z.lxor (word_at (_map bm) index)
                                        (word_at (_map other) index) =? 0))).
  - reflexivity.
  - intros k _. f_equal.
    destruct (Z.eqb_spec (word_at (_map bm) k) (word_at (_map other) k)) as [E|E].
    + rewrite E, Z.lxor_nilpotent. reflexivity.
    + destruct (Z.eqb_spec (Z.lxor (word_at (_map bm) k) (word_at (_map other) k)) 0) as [E0|E0];
        [|reflexivity].
      apply Z.lxor_eq in E0. contradiction.
Qed.

Lemma lxor_range v w :
  0 <= v < 2 ^ BitsPerWord -> 0 <= w < 2 ^ BitsPerWord -> 0 <= Z.lxor v w < 2 ^ BitsPerWord.
Proof.
  intros Hv Hw.
  assert (H0 : 0 <= Z.lxor v w) by (apply Z.lxor_nonneg; lia).
  split; [assumption|].
  destruct (Z.eq_dec (Z.lxor v w) 0) as [->|Hne]; [reflexivity|].
  apply Z.log2_lt_pow2; [lia|].
  pose proof (Z.log2_lxor v w ltac:(lia) ltac:(lia)) as Hl.
  unfold BitsPerWord in *.
  assert (Z.log2 v < 64).
  { destruct (Z.eq_dec v 0) as [->|]; [simpl; lia | apply Z.log2_lt_pow2; lia]. }
  assert (Z.log2 w < 64).
  { destruct (Z.eq_dec w 0) as [->|]; [simpl; lia | apply Z.log2_lt_pow2; lia]. }
  lia.
Qed.

(** [is_same]: the bits below [size] are the same. *)
Lemma is_same_spec bm other :
  wf bm -> wf other ->
  (is_same bm other = true <->
   forall i, 0 <= i < _size bm -> bit_of (_map bm) i = bit_of (_map other) i).
Proof.
  intros (H0 & _ & _ & Hok) (_ & _ & _ & Hok').
  rewrite is_same_no_bit, no_bit_below_spec;
    [|assumption | intros k; apply lxor_range; now apply word_at_range].
  split; intros H i Hi; specialize (H i Hi); unfold bit_of in *.
  - rewrite Z.lxor_spec in H.
    destruct (Z.testbit (word_at (_map bm) (i / 64)) (i mod 64)),
      (Z.testbit (word_at (_map other) (i / 64)) (i mod 64)); simpl in H; congruence.
  - rewrite Z.lxor_spec, H. apply xorb_nilpotent.
Qed.

Lemma is_empty_no_bit bm :
  is_empty bm = no_bit_below (fun index => word_at (_map bm) index) (_size bm).
Proof. reflexivity. Qed.

(** [is_empty]: every bit below [size] is clear. *)
Lemma is_empty_spec bm :
  wf bm ->
  (is_empty bm = true <-> forall i, 0 <= i < _size bm -> bit_of (_map bm) i = false).
Proof.
  intros (H0 & _ & _ & Hok).
  rewrite is_empty_no_bit, no_bit_below_spec;
    [|assumption | intros k; now apply word_at_range].
  reflexivity.
Qed.

End MoreQueries.

(** ** Set algebra below [size] *)

Section MoreSetAlgebra.

Lemma union_word_bitwise : bitwise union_word orb.
Proof.
  split.
  - intros a b Ha Hb. now apply lor_range.
  - intros a b j Hj. apply Z.lor_spec.
Qed.

Lemma intersection_word_bitwise : bitwise intersection_word andb.
Proof.
  split.
  - intros a b Ha Hb. now apply land_range.
  - intros a b j Hj. apply Z.land_spec.
Qed.

Lemma difference_word_bitwise : bitwise difference_word (fun x y => x && negb y).
Proof.
  split.
  - intros a b Ha Hb. now apply land_range.
  - intros a b j Hj. unfold difference_word.
    rewrite Z.land_spec, testbit_word_not by lia.
    destruct (Z.ltb_spec j 64); [reflexivity | lia].
Qed.

Lemma combine_words_ok f fb n : forall i d o,
  bitwise f fb -> words_ok d -> words_ok o -> words_ok (combine_words n i f d o).
Proof.
  induction n as [|n IH]; intros i d o Hf Hd Ho; simpl; [assumption|].
  apply IH; try assumption. apply words_ok_store; [assumption|].
  apply Hf; now apply word_at_range.
Qed.

Lemma set_combine_wf f fb bm other :
  bitwise f fb -> wf bm -> wf other -> wf (set_combine f bm other).
Proof.
  intros Hf (H0 & H1 & H2 & H3) (_ & _ & _ & H3').
  unfold wf, size_in_words in *.
  rewrite set_combine_size, set_combine_length. repeat split; try assumption.
  unfold set_combine.
  assert (Hc : words_ok (combine_words (Z.to_nat (word_index (_size bm))) 0 f
                           (_map bm) (_map other)))
    by (now apply (combine_words_ok f fb)).
  destruct (0 <? bit_in_word (_size bm)); simpl; [|assumption].
  apply words_ok_store; [assumption|]. apply merge_tail_range. now apply word_at_range.
Qed.

(** Below [size] the set operations work bit by bit. *)
Lemma set_combine_below f fb bm other i :
  bitwise f fb -> wf bm -> wf other -> _size bm = _size other ->
  0 <= i < _size bm ->
  bit_of (_map (set_combine f bm other)) i = fb (bit_of (_map bm) i) (bit_of (_map other) i).
Proof.
  intros (_ & Hf) Hwf Hwo Hsz Hi. pose proof (wf_length bm Hwf) as Hlen.
  unfold set_combine. rewrite word_index_div, bit_in_word_mod.
  assert (Hin : forall k, 0 <= k ->
            word_at (combine_words (Z.to_nat (_size bm / 64)) 0 f (_map bm) (_map other)) k =
            if k <? _size bm / 64 then f (word_at (_map bm) k) (word_at (_map other) k)
            else word_at (_map bm) k).
  { intros k Hk. rewrite combine_words_at by zdiv. unfold in_range.
    destruct (Z.leb_spec 0 k), (Z.ltb_spec k (0 + Z.of_nat (Z.to_nat (_size bm / 64)))),
      (Z.ltb_spec k (_size bm / 64)); simpl; try reflexivity; exfalso; zdiv. }
  destruct (Z.ltb_spec 0 (_size bm mod 64)) as [Hr|Hr]; simpl; unfold bit_of.
  - rewrite word_at_store by zdiv. rewrite combine_words_length.
    destruct (Z.eqb_spec (_size bm / 64) (i / 64)) as [E|E]; simpl.
    + destruct (Z.ltb_spec (_size bm / 64) (Z.of_nat (length (_map bm)))); [|exfalso; zdiv].
      rewrite testbit_merge_tail by zdiv.
      destruct (Z.ltb_spec (i mod 64) (_size bm mod 64)); [|exfalso; zdiv].
      rewrite Hin by zdiv.
      destruct (Z.ltb_spec (_size bm / 64) (_size bm / 64)); [lia|].
      rewrite Hf by zdiv. now rewrite E.
    + rewrite Hin by zdiv.
      destruct (Z.ltb_spec (i / 64) (_size bm / 64)); [|exfalso; zdiv].
      apply Hf. zdiv.
  - rewrite Hin by zdiv.
    destruct (Z.ltb_spec (i / 64) (_size bm / 64)); [|exfalso; zdiv].
    apply Hf. zdiv.
Qed.

(** All the bits of the result of a set operation. *)
Lemma set_combine_bits f fb bm other i :
  bitwise f fb -> wf bm -> wf other -> _size bm = _size other -> 0 <= i ->
  bit_of (_map (set_combine f bm other)) i =
  if i <? _size bm then fb (bit_of (_map bm) i) (bit_of (_map other) i)
  else bit_of (_map bm) i.
Proof.
  intros Hf Hwf Hwo Hsz Hi. destruct (Z.ltb_spec i (_size bm)).
  - apply set_combine_below; auto.
  - now apply set_combine_frame.
Qed.

(** The destination is left as it was exactly when no bit below [size]
    has to change. *)
Lemma set_combine_unchanged_iff f fb bm other :
  bitwise f fb -> wf bm -> wf other -> _size bm = _size other ->
  (set_combine f bm other = bm <->
   forall i, 0 <= i < _size bm ->
     fb (bit_of (_map bm) i) (bit_of (_map other) i) = bit_of (_map bm) i).
Proof.
  intros Hf Hwf Hwo Hsz. split.
  - intros Heq i Hi. rewrite <- (set_combine_below f fb bm other i) by auto.
    now rewrite Heq.
  - intros H. apply BitMap_ext; [apply set_combine_size|].
    pose proof (set_combine_wf f fb bm other Hf Hwf Hwo) as (_ & _ & _ & Hok').
    pose proof Hwf as (_ & _ & _ & Hok).
    apply bits_ext; [assumption | assumption | apply set_combine_length |].
    intros i Hi. rewrite (set_combine_bits f fb) by (auto || lia).
    destruct (Z.ltb_spec i (_size bm)); [apply H; lia | reflexivity].
Qed.

Lemma set_from_size bm other : _size (set_from bm other) = _size bm.
Proof. unfold set_from. destruct (0 <? _); reflexivity. Qed.

(** [set_from] copies the bits below [size]. *)
Lemma set_from_below bm other i :
  wf bm -> wf other -> _size bm = _size other -> 0 <= i < _size bm ->
  bit_of (_map (set_from bm other)) i = bit_of (_map other) i.
Proof.
  intros Hwf Hwo Hsz Hi. pose proof (wf_length bm Hwf) as Hlen.
  pose proof (wf_length other Hwo) as Hlen'. rewrite <- Hsz in Hlen'.
  unfold set_from. rewrite word_index_div, bit_in_word_mod.
  destruct (Z.ltb_spec 0 (_size bm mod 64)) as [Hr|Hr]; simpl; unfold bit_of.
  - rewrite word_at_store by zdiv. rewrite disjoint_words_length by zdiv.
    destruct (Z.eqb_spec (_size bm / 64) (i / 64)) as [E|E]; simpl.
    + destruct (Z.ltb_spec (_size bm / 64) (Z.of_nat (length (_map bm)))); [|exfalso; zdiv].
      rewrite testbit_merge_tail by zdiv.
      destruct (Z.ltb_spec (i mod 64) (_size bm mod 64)); [|exfalso; zdiv].
      now rewrite E.
    + rewrite disjoint_words_at by zdiv.
      destruct (Z.ltb_spec (i / 64) (_size bm / 64)); [reflexivity | exfalso; zdiv].
  - rewrite disjoint_words_at by zdiv.
    destruct (Z.ltb_spec (i / 64) (_size bm / 64)); [reflexivity | exfalso; zdiv].
Qed.

Lemma set_from_wf bm other : wf bm -> wf other -> _size bm = _size other -> wf (set_from bm other).
Proof.
  intros Hwf Hwo Hsz. pose proof (wf_length bm Hwf) as Hlen.
  pose proof (wf_length other Hwo) as Hlen'. rewrite <- Hsz in Hlen'.
  pose proof Hwf as (H0 & H1 & H2 & H3). pose proof Hwo as (_ & _ & _ & H3').
  assert (Hd : words_ok (disjoint_words (_map other) (_map bm) (word_index (_size bm)))).
  { unfold disjoint_words, words_ok. apply Forall_app. split.
    - now apply Forall_take.
    - now apply Forall_drop. }
  assert (Ld : length (disjoint_words (_map other) (_map bm) (word_index (_size bm))) =
               length (_map bm)).
  { apply disjoint_words_length; rewrite word_index_div; zdiv. }
  unfold wf, size_in_words. rewrite set_from_size.
  split; [assumption|]. split; [assumption|].
  unfold set_from. destruct (0 <? bit_in_word (_size bm)); simpl.
  - rewrite store_length, Ld. split; [assumption|].
    apply words_ok_store; [assumption|]. apply merge_tail_range. now apply word_at_range.
  - rewrite Ld. split; assumption.
Qed.

End MoreSetAlgebra.

(** ** The [changed] result *)

Section ChangedResult.

Lemma store_same (m : list Z) i :
  0 <= i -> store m i (word_at m i) = m.
Proof.
  intros Hi. unfold store, word_at.
  destruct (m !! Z.to_nat i) as [w|] eqn:E; simpl.
  - now apply list_insert_id.
  - apply list_insert_ge. now apply lookup_ge_None.
Qed.

Lemma word_differs (m m' : list Z) k : word_at m' k <> word_at m k -> m' <> m.
Proof. intros H E. apply H. now rewrite E. Qed.

(** The loop of the [_with_result] variants answers whether it changed a
    word (or [changed] was already set). *)
Lemma combine_words_with_result_snd f n : forall i d o c,
  0 <= i -> i + Z.of_nat n <= Z.of_nat (length d) ->
  (snd (combine_words_with_result n i f d o c) = true <->
   c = true \/ combine_words n i f d o <> d).
Proof.
  induction n as [|n IH]; intros i d o c Hi Hlen.
  - simpl. split; [auto | intros [H|H]; [assumption | contradiction]].
  - cbn [combine_words_with_result combine_words].
    set (orig := word_at d i). set (temp := f orig (word_at o i)).
    rewrite IH by (rewrite ?store_length; lia).
    assert (Hw : word_at (combine_words n (i + 1) f (store d i temp) o) i = temp).
    { rewrite combine_words_at by (rewrite ?store_length; lia).
      unfold in_range. destruct (Z.leb_spec (i + 1) i); [lia|]. simpl.
      rewrite word_at_store by lia.
      destruct (Z.eqb_spec i i); [|lia].
      destruct (Z.ltb_spec i (Z.of_nat (length d))); [reflexivity | lia]. }
    destruct (Z.eqb_spec temp orig) as [E|E].
    + assert (Hs : store d i temp = d) by (rewrite E; now apply store_same).
      rewrite Hs. destruct c; simpl; tauto.
    + split; [|intros _; left; destruct c; reflexivity].
      intros _. right. apply word_differs with (k := i). now rewrite Hw.
Qed.

(** The [_with_result] variants return [true] exactly when they changed
    the destination. *)
Lemma set_combine_with_result_snd f bm other :
  wf bm ->
  (snd (set_combine_with_result f bm other) = true <-> set_combine f bm other <> bm).
Proof.
  intros Hwf. pose proof (wf_length bm Hwf) as Hlen.
  pose proof Hwf as (H0 & _).
  unfold set_combine_with_result, set_combine.
  pose proof (combine_words_with_result_fst (Z.to_nat (word_index (_size bm))) 0 f
                (_map bm) (_map other) false) as Hfst.
  pose proof (combine_words_with_result_snd f (Z.to_nat (word_index (_size bm))) 0
                (_map bm) (_map other) false (Z.le_refl 0)) as Hsnd.
  rewrite word_index_div in *. specialize (Hsnd ltac:(zdiv)).
  destruct (combine_words_with_result _ _ _ _ _ _) as [d c]. simpl in Hfst, Hsnd. subst d.
  set (d := combine_words (Z.to_nat (_size bm / 64)) 0 f (_map bm) (_map other)) in *.
  assert (Hc : c = true <-> d <> _map bm).
  { rewrite Hsnd. split; [intros [H|H]; [discriminate | assumption] | auto]. }
  assert (Hneq : forall m, mkBitMap m (_size bm) <> bm <-> m <> _map bm).
  { intros m. split; intros H E; apply H.
    - now apply BitMap_ext.
    - now rewrite <- E. }
  rewrite bit_in_word_mod.
  destruct (Z.ltb_spec 0 (_size bm mod 64)) as [Hr|Hr]; simpl.
  2:{ rewrite Hneq. exact Hc. }
  rewrite Hneq.
  set (orig := word_at d (_size bm / 64)).
  set (temp := merge_tail_of_map (f orig (word_at (_map other) (_size bm / 64))) orig
                 (_size bm mod 64)).
  assert (Hd : orig = word_at (_map bm) (_size bm / 64)).
  { subst orig d. rewrite combine_words_at by zdiv. unfold in_range.
    destruct (Z.leb_spec 0 (_size bm / 64)),
      (Z.ltb_spec (_size bm / 64) (0 + Z.of_nat (Z.to_nat (_size bm / 64))));
      simpl; try reflexivity; exfalso; zdiv. }
  assert (Ld : length d = length (_map bm)) by apply combine_words_length.
  destruct (Z.eqb_spec temp orig) as [E|E].
  - rewrite E. unfold orig at 1. rewrite store_same by zdiv.
    rewrite orb_false_r. exact Hc.
  - rewrite orb_true_r. split; [|reflexivity]. intros _.
    apply word_differs with (k := _size bm / 64).
    rewrite word_at_store by zdiv.
    destruct (Z.eqb_spec (_size bm / 64) (_size bm / 64)); [|lia].
    destruct (Z.ltb_spec (_size bm / 64) (Z.of_nat (length d))); [|exfalso; zdiv].
    simpl. rewrite <- Hd. exact E.
Qed.

End ChangedResult.

(** ** [num_set_bits] *)

Section NumSetBits.

Lemma land_one_testbit w : (Z.land w 1 =? 0) = negb (Z.testbit w 0).
Proof.
  pose proof (land_pow2_testbit w 0 (Z.le_refl 0)) as H. change (2 ^ 0) with 1 in H.
  rewrite <- H. now rewrite negb_involutive.
Qed.

Lemma word_bits_64_step w :
  0 <= w < 2 ^ BitsPerWord ->
  word_bits 64 0 w = Z.b2z (Z.testbit w 0) + word_bits 64 0 (Z.shiftr w 1).
Proof.
  intros Hw. rewrite word_bits_shiftr by lia.
  change 64%nat with (1 + 63)%nat at 1. rewrite word_bits_app.
  change 64%nat with (63 + 1)%nat. rewrite (word_bits_app 63 1 (0 + 1)).
  cbn [word_bits].
  replace (Z.testbit w (0 + 1 + Z.of_nat 63)) with false
    by (symmetry; apply word_high_bits; [assumption | lia]).
  simpl Z.b2z. change (0 + Z.of_nat 1) with (0 + 1). lia.
Qed.

Lemma half_bound w k : 0 <= w < 2 ^ k -> 1 <= k -> Z.shiftr w 1 < 2 ^ (k - 1).
Proof.
  intros Hw Hk. rewrite Z.shiftr_div_pow2 by lia. change (2 ^ 1) with 2.
  replace (2 ^ k) with (2 * 2 ^ (k - 1)) in Hw
    by (rewrite <- Z.pow_succ_r by lia; f_equal; lia).
  apply Z.div_lt_upper_bound; lia.
Qed.

Lemma pow2_ge_1 k : 0 <= k -> 1 <= 2 ^ k.
Proof. intros Hk. assert (0 < 2 ^ k) by (apply Z.pow_pos_nonneg; lia). lia. Qed.

Lemma small_pow_exponent w k : 1 <= w < 2 ^ k -> 1 <= k.
Proof.
  intros Hw. destruct (Z.le_gt_cases 1 k) as [H|H]; [assumption|]. exfalso.
  destruct (Z.eq_dec k 0) as [->|Hk]; [simpl in Hw; lia|].
  rewrite Z.pow_neg_r in Hw by lia. lia.
Qed.

Lemma shiftr1_le w : 0 <= w -> 0 <= Z.shiftr w 1 <= w.
Proof.
  intros Hw. rewrite Z.shiftr_div_pow2 by lia. change (2 ^ 1) with 2. zdiv.
Qed.

(** The inner loop finds the lowest set bit of a non-zero word. *)
Lemma skip_clear_bits_spec fuel : forall w,
  1 <= w < 2 ^ (Z.of_nat fuel - 1) -> w < 2 ^ BitsPerWord ->
  exists w', skip_clear_bits fuel w = Some w' /\ Z.testbit w' 0 = true /\
             1 <= w' <= w /\ word_bits 64 0 w' = word_bits 64 0 w.
Proof.
  induction fuel as [|fuel IH]; intros w Hw H64.
  - exfalso. simpl in Hw. rewrite Z.pow_neg_r in Hw by lia. lia.
  - replace (Z.of_nat (S fuel) - 1) with (Z.of_nat fuel) in Hw by lia.
    cbn [skip_clear_bits]. rewrite land_one_testbit.
    destruct (Z.testbit w 0) eqn:Eb; simpl negb; cbv iota.
    + exists w. repeat split; try assumption; lia.
    + pose proof (small_pow_exponent w _ Hw) as Hk.
      pose proof (shiftr1_le w ltac:(lia)) as Hh.
      assert (Hpos : 1 <= Z.shiftr w 1).
      { destruct (Z.eq_dec (Z.shiftr w 1) 0) as [E0|E0]; [|lia]. exfalso.
        assert (Hw1 : w = 1 \/ w = 0).
        { rewrite Z.shiftr_div_pow2 in E0 by lia. change (2 ^ 1) with 2 in E0. zdiv. }
        destruct Hw1 as [-> | ->]; [discriminate Eb | lia]. }
      destruct (IH (Z.shiftr w 1)) as (w' & E & Hb & Hle & Hpc).
      * split; [assumption|]. apply half_bound; lia.
      * lia.
      * exists w'. split; [assumption|]. split; [assumption|]. split; [lia|].
        rewrite Hpc. rewrite (word_bits_64_step w) by lia. rewrite Eb. simpl Z.b2z. lia.
Qed.

(** The outer loop counts the set bits of a 64-bit word. *)
Lemma num_set_bits_loop_spec fuel : forall w bits,
  0 <= w < 2 ^ (Z.of_nat fuel - 1) -> w < 2 ^ BitsPerWord ->
  0 <= bits -> bits + word_bits 64 0 w < 2 ^ BitsPerWord ->
  num_set_bits_loop w bits fuel = Some (bits + word_bits 64 0 w).
Proof.
  induction fuel as [|fuel IH]; intros w bits Hw H64 Hb Hpc.
  - exfalso. simpl in Hw. rewrite Z.pow_neg_r in Hw by lia. lia.
  - cbn [num_set_bits_loop].
    destruct (Z.eqb_spec w 0) as [->|Hne]; simpl negb; cbv iota.
    + f_equal. change (word_bits 64 0 0) with 0. lia.
    + destruct (skip_clear_bits_spec (S fuel) w ltac:(lia) H64)
        as (w' & E & Hbit & Hle & Hsame).
      rewrite E.
      replace (Z.of_nat (S fuel) - 1) with (Z.of_nat fuel) in Hw by lia.
      pose proof (small_pow_exponent w (Z.of_nat fuel) ltac:(lia)) as Hk.
      pose proof (shiftr1_le w' ltac:(lia)) as Hh.
      pose proof (word_bits_64_step w' ltac:(lia)) as Hstep. rewrite Hbit in Hstep.
      simpl Z.b2z in Hstep.
      pose proof (word_bits_bound 64 0 (Z.shiftr w' 1)) as Hbd.
      rewrite wrap_small by lia.
      rewrite IH.
      * f_equal. lia.
      * split; [lia|]. apply Z.le_lt_trans with (Z.shiftr w 1).
        -- rewrite !Z.shiftr_div_pow2 by lia. apply Z.div_le_mono; lia.
        -- apply half_bound; lia.
      * lia.
      * lia.
      * lia.
Qed.

Lemma num_set_bits_spec w :
  0 <= w < 2 ^ BitsPerWord -> num_set_bits w = Some (word_bits 64 0 w).
Proof.
  intros Hw. unfold num_set_bits.
  pose proof (word_bits_bound 64 0 w) as Hbd.
  rewrite num_set_bits_loop_spec; [reflexivity | | lia | lia |].
  - change (Z.of_nat (S (Z.to_nat BitsPerWord)) - 1) with BitsPerWord. exact Hw.
  - rewrite pow64. simpl Z.of_nat in Hbd. lia.
Qed.

End NumSetBits.

(** ** Counting with a clean last word *)

Section CleanTail.

Lemma count_bits_all_clear n : forall b m,
  (forall i, b <= i < b + Z.of_nat n -> bit_of m i = false) ->
  count_bits n b m = 0.
Proof.
  induction n as [|n IH]; intros b m H; [reflexivity|].
  rewrite count_bits_S, (H b) by lia. rewrite IH by (intros i Hi; apply H; lia).
  reflexivity.
Qed.

Lemma count_bits_zero_iff n : forall b m,
  count_bits n b m = 0 <-> forall i, b <= i < b + Z.of_nat n -> bit_of m i = false.
Proof.
  induction n as [|n IH]; intros b m.
  - split; [intros _ i Hi; lia | reflexivity].
  - rewrite count_bits_S. pose proof (count_bits_bound n (b + 1) m) as Hbd.
    split.
    + intros H i Hi. destruct (bit_of m b) eqn:Eb; simpl Z.b2z in H; [lia|].
      destruct (Z.eq_dec i b) as [->|Hne]; [assumption|].
      apply (proj1 (IH (b + 1) m)); lia.
    + intros H. rewrite (H b) by lia. simpl Z.b2z.
      rewrite (proj2 (IH (b + 1) m)); [reflexivity|]. intros i Hi. apply H. lia.
Qed.

Lemma count_bits_full_iff n : forall b m,
  count_bits n b m = Z.of_nat n <-> forall i, b <= i < b + Z.of_nat n -> bit_of m i = true.
Proof.
  induction n as [|n IH]; intros b m.
  - split; [intros _ i Hi; lia | reflexivity].
  - rewrite count_bits_S. pose proof (count_bits_bound n (b + 1) m) as Hbd.
    split.
    + intros H i Hi. destruct (bit_of m b) eqn:Eb; simpl Z.b2z in H; [|lia].
      destruct (Z.eq_dec i b) as [->|Hne]; [assumption|].
      apply (proj1 (IH (b + 1) m)); lia.
    + intros H. rewrite (H b) by lia. simpl Z.b2z.
      rewrite (proj2 (IH (b + 1) m)); [lia|]. intros i Hi. apply H. lia.
Qed.

(** With no stale bit beyond [size], [count_one_bits] is the number of
    set bits below [size]. *)
Lemma count_one_bits_clean bm :
  wf bm -> (forall i, _size bm <= i -> bit_of (_map bm) i = false) ->
  count_one_bits bm = Some (count_bits (Z.to_nat (_size bm)) 0 (_map bm)).
Proof.
  intros Hwf Hclean. pose proof (wf_length bm Hwf) as Hlen.
  pose proof Hwf as (H0 & _).
  rewrite count_one_bits_spec by assumption. f_equal.
  replace (64 * length (_map bm))%nat
    with (Z.to_nat (_size bm) + (64 * length (_map bm) - Z.to_nat (_size bm)))%nat by zdiv.
  rewrite count_bits_app.
  rewrite (count_bits_all_clear (64 * length (_map bm) - Z.to_nat (_size bm))).
  - lia.
  - intros i Hi. apply Hclean. lia.
Qed.

End CleanTail.

(** ** Allocation, resizing, clearing *)

Section MoreAllocation.

Lemma calc_size_in_words_0 : calc_size_in_words 0 = 0.
Proof. reflexivity. Qed.

Lemma resize_fst a bm N clear :
  fst (resize a bm N clear) = mkBitMap (fst (reallocate a (_map bm) (_size bm) N clear)) N.
Proof. unfold resize. destruct (reallocate _ _ _ _ _). reflexivity. Qed.

Lemma resize_snd a bm N clear :
  snd (resize a bm N clear) = snd (reallocate a (_map bm) (_size bm) N clear).
Proof. unfold resize. destruct (reallocate _ _ _ _ _). reflexivity. Qed.

(** The bitmap after [resize]. *)
Lemma resize_words a bm N clear :
  allocator_ok a -> wf bm -> 0 <= N -> N + BitsPerWord <= 2 ^ BitsPerWord ->
  wf (fst (resize a bm N clear)) /\
  forall k, 0 <= k < calc_size_in_words N ->
    word_at (_map (fst (resize a bm N clear))) k =
    if k <? Z.min (size_in_words bm) (calc_size_in_words N) then word_at (_map bm) k
    else if clear then 0 else word_at (fresh_words a (calc_size_in_words N)) k.
Proof.
  intros Ha Hwf HN0 HN1. pose proof Hwf as (H0 & H1 & Hlen & Hok).
  pose proof (reallocate_words a (_map bm) (_size bm) N clear Ha H0 H1 HN0 HN1 Hlen Hok)
    as Hre. cbv zeta in Hre. destruct Hre as (L & W & A).
  rewrite resize_fst. simpl. split; [|exact A].
  repeat split; assumption.
Qed.

Lemma word_at_neg (m : list Z) k : k < 0 -> word_at m k = word_at m 0.
Proof. intros Hk. unfold word_at. now replace (Z.to_nat k) with (Z.to_nat 0) by lia. Qed.

Lemma all_words (m : list Z) (P : Z -> Prop) :
  (forall k, 0 <= k -> P (word_at m k)) -> forall k, P (word_at m k).
Proof.
  intros H k. destruct (Z.lt_ge_cases k 0) as [Hneg|Hk]; [|now apply H].
  rewrite word_at_neg by assumption. apply H. lia.
Qed.

(** The array handed out by [allocate] with [clear]: all words are 0. *)
Lemma allocate_clear_words a n :
  allocator_ok a -> 0 <= n -> n + BitsPerWord <= 2 ^ BitsPerWord ->
  Z.of_nat (length (fst (allocate a n true))) = calc_size_in_words n /\
  words_ok (fst (allocate a n true)) /\
  forall k, word_at (fst (allocate a n true)) k = 0.
Proof.
  intros Ha Hn0 Hn1. unfold allocate.
  assert (Hz0 : 0 <= 0) by lia.
  assert (Hz1 : 0 + BitsPerWord <= 2 ^ BitsPerWord) by (rewrite pow64; unfold BitsPerWord; lia).
  assert (Hnil : words_ok []) by constructor.
  pose proof (reallocate_words a [] 0 n true Ha Hz0 Hz1 Hn0 Hn1 eq_refl Hnil)
    as Hre. cbv zeta in Hre. destruct Hre as (L & W & A).
  split; [assumption|]. split; [assumption|].
  apply (all_words _ (fun w => w = 0)). intros k Hk.
  destruct (Z.lt_ge_cases k (calc_size_in_words n)) as [Hin|Hout].
  - rewrite A by lia. rewrite calc_size_in_words_0.
    destruct (Z.ltb_spec k (Z.min 0 (calc_size_in_words n))); [lia | reflexivity].
  - apply word_at_out. lia.
Qed.

Lemma zero_words_bits (m : list Z) : (forall k, word_at m k = 0) -> forall i, bit_of m i = false.
Proof. intros H i. unfold bit_of. rewrite H. apply Z.bits_0. Qed.

(** [clear_large] leaves an array of zero words. *)
Lemma clear_large_words bm :
  wf bm -> wf (clear_large bm) /\ forall k, word_at (_map (clear_large bm)) k = 0.
Proof.
  intros Hwf. pose proof (wf_length bm Hwf) as Hlen.
  pose proof (wf_size_in_words bm Hwf) as Hsw.
  pose proof Hwf as (H0 & H1 & H2 & H3).
  unfold clear_large, clear_large_range_of_words. simpl.
  assert (L : length (memset_words (_map bm) 0 (size_in_words bm) 0) = length (_map bm))
    by (apply memset_words_length; lia).
  assert (A : forall k, word_at (memset_words (_map bm) 0 (size_in_words bm) 0) k = 0).
  { apply (all_words _ (fun w => w = 0)). intros k Hk.
    rewrite memset_words_at by lia. unfold in_range.
    destruct (Z.leb_spec 0 k), (Z.ltb_spec k (size_in_words bm)); simpl; try lia;
      try reflexivity.
    apply word_at_out. lia. }
  split; [|exact A].
  unfold wf, size_in_words in *. simpl. rewrite L. repeat split; try assumption.
  apply words_ok_word_at. intros k Hk. rewrite A. rewrite pow64. lia.
Qed.

End MoreAllocation.

(** ** [iterate] with a closure that only looks *)

Section Watching.

Context {S : Type}.
Variable blk : @BitMapClosure S.
Hypothesis Hwatch : watching_closure blk.

Lemma watching_closure_ok : closure_ok blk.
Proof.
  intros s offset w Hw. destruct (Hwatch s offset w) as (_ & ->). exact Hw.
Qed.

Lemma do_bit_watching st offset :
  fst (do_bit blk st offset) = true /\
  words (snd (do_bit blk st offset)) = words st /\
  calls (snd (do_bit blk st offset)) = calls st ++ [(offset, true)].
Proof.
  unfold do_bit. destruct (Hwatch (closure_state st) offset (words st)) as (H1 & H2).
  destruct (blk (closure_state st) offset (words st)) as [[ok s'] w']. simpl in *.
  subst. auto.
Qed.

(** The traversal calls the closure on the set positions, in order. *)
Lemma visit_bits_watching n : forall offset st,
  fst (visit_bits blk offset st n) = true /\
  words (snd (visit_bits blk offset st n)) = words st /\
  calls (snd (visit_bits blk offset st n)) =
    calls st ++ map (fun o => (o, true)) (set_positions (words st) offset n).
Proof.
  induction n as [|n IH]; intros offset st.
  - simpl. rewrite app_nil_r. auto.
  - rewrite visit_bits_S. cbn [set_positions].
    destruct (at_ (words st) offset).
    + destruct (do_bit_watching st offset) as (Hok & Hw & Hc).
      rewrite Hok. simpl negb. cbv iota.
      destruct (IH (offset + 1) (snd (do_bit blk st offset))) as (I1 & I2 & I3).
      rewrite I1, I2, I3, Hw, Hc. split; [reflexivity|]. split; [reflexivity|].
      rewrite <- app_assoc. reflexivity.
    + apply IH.
Qed.

End Watching.

(** ** The last partial word *)

Section TailWord.

Lemma testbit_tail_of_map value r j :
  0 <= r < 64 -> 0 <= j ->
  Z.testbit (tail_of_map value r) j = (j <? r) && Z.testbit value j.
Proof.
  intros Hr Hj. unfold tail_of_map. rewrite Z.land_spec, testbit_tail_mask by lia.
  apply andb_comm.
Qed.

End TailWord.

(** ** The set positions of a range *)

Section SetPositions.

Lemma set_positions_In (m : list Z) n : forall offset o,
  In o (set_positions m offset n) <->
  offset <= o < offset + Z.of_nat n /\ at_ m o = true.
Proof.
  induction n as [|n IH]; intros offset o.
  - simpl. split; [contradiction | lia].
  - cbn [set_positions]. destruct (at_ m offset) eqn:E.
    + simpl. rewrite IH. split.
      * intros [<-|(H1 & H2)]; [split; [lia | assumption] | split; [lia | assumption]].
      * intros (H1 & H2). destruct (Z.eq_dec offset o) as [Heq|Hne]; [now left|].
        right. split; [lia | assumption].
    + rewrite IH. split.
      * intros (H1 & H2). split; [lia | assumption].
      * intros (H1 & H2). split; [|assumption].
        destruct (Z.eq_dec offset o) as [<-|Hne]; [congruence | lia].
Qed.

Lemma increasing_from_weaken l : forall lo lo',
  lo' <= lo -> increasing_from lo l -> increasing_from lo' l.
Proof.
  destruct l as [|o t]; intros lo lo' Hle H; [exact I|].
  simpl in *. destruct H as (H1 & H2). split; [lia | assumption].
Qed.

Lemma set_positions_increasing (m : list Z) n : forall offset,
  increasing_from offset (set_positions m offset n).
Proof.
  induction n as [|n IH]; intros offset; [exact I|].
  cbn [set_positions]. destruct (at_ m offset).
  - simpl. split; [lia | apply IH].
  - apply increasing_from_weaken with (lo := offset + 1); [lia | apply IH].
Qed.

Lemma bool_eq_iff (a b : bool) : (a = true <-> b = true) -> a = b.
Proof. destruct a, b; intros [H1 H2]; try reflexivity; [symmetry; auto | auto]. Qed.

End SetPositions.

Section UnchangedResult.

Lemma BitMap_eq_dec (x y : BitMap) : {x = y} + {x <> y}.
Proof.
  destruct x as [m1 s1], y as [m2 s2].
  destruct (decide (m1 = m2)) as [-> | Hm]; [|right; congruence].
  destruct (Z.eq_dec s1 s2) as [-> | Hs]; [left; reflexivity | right; congruence].
Qed.

Lemma set_combine_with_result_false f bm other :
  wf bm ->
  (snd (set_combine_with_result f bm other) = false <-> set_combine f bm other = bm).
Proof.
  intros Hwf. pose proof (set_combine_with_result_snd f bm other Hwf) as H.
  destruct (snd (set_combine_with_result f bm other)).
  - split; [discriminate|]. intros E. exfalso. apply (proj1 H); [reflexivity | exact E].
  - split; [|reflexivity]. intros _.
    destruct (BitMap_eq_dec (set_combine f bm other) bm) as [E | E]; [exact E|].
    apply (proj2 H) in E. discriminate.
Qed.

Lemma set_combine_with_result_false_bits f fb bm other :
  bitwise f fb -> wf bm -> wf other -> _size bm = _size other ->
  (snd (set_combine_with_result f bm other) = false <->
   forall i, 0 <= i < _size bm ->
     fb (bit_of (_map bm) i) (bit_of (_map other) i) = bit_of (_map bm) i).
Proof.
  intros Hf Hwf Hwo Hsz. rewrite set_combine_with_result_false by assumption.
  now apply set_combine_unchanged_iff.
Qed.

End UnchangedResult.

Section TailCheck.

(** A test that computes for "no storage bit at or beyond [size] is set". *)
Lemma tail_clean_by_shift bm :
  wf bm ->
  Z.shiftr (word_at (_map bm) (_size bm / 64)) (_size bm mod 64) = 0 ->
  forall i, _size bm <= i -> bit_of (_map bm) i = false.
Proof.
  intros Hwf Hz i Hi. pose proof Hwf as (H0 & _).
  pose proof (wf_length bm Hwf) as Hlen.
  destruct (Z.eq_dec (i / 64) (_size bm / 64)) as [E | E].
  - unfold bit_of. rewrite E.
    replace (i mod 64) with ((i mod 64 - _size bm mod 64) + _size bm mod 64) by lia.
    rewrite <- Z.shiftr_spec by zdiv. rewrite Hz. apply Z.bits_0.
  - apply bit_of_out. rewrite Hlen. zdiv.
Qed.

Lemma count_storage_split bm :
  wf bm ->
  count_bits (64 * length (_map bm)) 0 (_map bm) =
  count_bits (Z.to_nat (_size bm)) 0 (_map bm) +
  count_bits (Z.to_nat (64 * size_in_words bm - _size bm)) (_size bm) (_map bm).
Proof.
  intros Hwf. pose proof Hwf as (H0 & _).
  pose proof (wf_length bm Hwf) as Hlen.
  rewrite (wf_size_in_words bm Hwf).
  replace (64 * length (_map bm))%nat
    with (Z.to_nat (_size bm) + Z.to_nat (64 * ((_size bm + 63) / 64) - _size bm))%nat
    by zdiv.
  rewrite count_bits_app. rewrite Z2Nat.id by lia. reflexivity.
Qed.

End TailCheck.

Section AllClear.

(** What the queries and the count answer on an array of zero words. *)
Lemma all_clear_facts bm :
  wf bm -> (forall k, word_at (_map bm) k = 0) ->
  (forall i, at_ (_map bm) i = false) /\
  is_empty bm = true /\
  count_one_bits bm = Some 0.
Proof.
  intros Hwf Hz.
  pose proof (zero_words_bits (_map bm) Hz) as Hb.
  split; [intros i; rewrite at_bit_of; apply Hb|]. split.
  - apply is_empty_spec; [assumption|]. intros i _. apply Hb.
  - rewrite count_one_bits_clean by (assumption || (intros i _; apply Hb)).
    f_equal. apply count_bits_all_clear. intros i _. apply Hb.
Qed.

Lemma allocate_events a n clear :
  snd (allocate a n clear) =
  if 0 <? calc_size_in_words n then [Allocated (calc_size_in_words n)] else [].
Proof.
  unfold allocate, reallocate, allocator_allocate. simpl not_null. cbv iota.
  destruct (0 <? calc_size_in_words n); reflexivity.
Qed.

Lemma reallocate_to_zero a (m : list Z) s clear :
  reallocate a m s 0 clear =
  ([], if not_null m then allocator_free a (calc_size_in_words s) else []).
Proof. unfold reallocate. rewrite calc_size_in_words_0. reflexivity. Qed.

Lemma new_bitmap_wf a n clear :
  allocator_ok a -> 0 <= n -> n + BitsPerWord <= 2 ^ BitsPerWord ->
  wf (new_bitmap a n clear).
Proof.
  intros Ha Hn0 Hn1. unfold allocate.
  assert (Hz0 : 0 <= 0) by lia.
  assert (Hz1 : 0 + BitsPerWord <= 2 ^ BitsPerWord) by (rewrite pow64; unfold BitsPerWord; lia).
  assert (Hnil : words_ok []) by constructor.
  pose proof (reallocate_words a [] 0 n clear Ha Hz0 Hz1 Hn0 Hn1 eq_refl Hnil)
    as Hre. cbv zeta in Hre. destruct Hre as (L & W & _).
  unfold new_bitmap, allocate, wf, size_in_words. simpl. repeat split; assumption.
Qed.

Lemma recycling_allocator_ok (released : list Z) :
  words_ok released -> allocator_ok (recycling_cheap released).
Proof.
  intros Hr n Hn. simpl. split.
  - rewrite length_take, length_app, length_replicate. lia.
  - apply Forall_take. apply Forall_app. split; [exact Hr|].
    apply Forall_replicate. rewrite pow64. lia.
Qed.

End AllClear.

(** * The claims *)

(** ** C1: the bits beyond [size] in the last word *)

Example bm70_full_value : bm70_full = mkBitMap [all_ones; 63] 70.
Proof. vm_compute. reflexivity. Qed.

Example bm70_uncleared_value : bm70_uncleared = mkBitMap [all_ones; all_ones] 70.
Proof. vm_compute. reflexivity. Qed.

(** The same state is reached by shrinking a full 128-bit bitmap. *)
Example bm128_shrunk_value : bm128_shrunk = bm70_uncleared.
Proof. vm_compute. reflexivity. Qed.

(** C1 fails on [count_one_bits]: the 70-bit bitmaps [bm70_uncleared]
    (allocated without clearing, then [set_range(0,70)]) and [bm70_full]
    (allocated clear, then [set_range(0,70)]) are well-formed, have the
    same size and the same bits at every position below 70, and [is_full]
    answers the same on both; only the storage bits 70..127 of the last
    word differ, and [count_one_bits] returns 128 on the first and 70 on
    the second. *)
Theorem C1_count_one_bits_counts_beyond_size :
  wf bm70_uncleared /\ wf bm70_full /\
  _size bm70_uncleared = 70 /\ _size bm70_full = 70 /\
  (forall i, 0 <= i < 70 -> at_ (_map bm70_uncleared) i = at_ (_map bm70_full) i) /\
  is_full bm70_uncleared = true /\ is_full bm70_full = true /\
  bit_of (_map bm70_uncleared) 70 = true /\ bit_of (_map bm70_full) 70 = false /\
  count_one_bits bm70_uncleared = Some 128 /\ count_one_bits bm70_full = Some 70.
Proof.
  assert (F1 : is_full bm70_uncleared = true) by (vm_compute; reflexivity).
  assert (F2 : is_full bm70_full = true) by (vm_compute; reflexivity).
  assert (S1 : _size bm70_uncleared = 70) by (vm_compute; reflexivity).
  assert (S2 : _size bm70_full = 70) by (vm_compute; reflexivity).
  split; [apply wfb_wf; vm_compute; reflexivity|].
  split; [apply wfb_wf; vm_compute; reflexivity|].
  split; [exact S1|]. split; [exact S2|].
  split.
  { intros i Hi. rewrite !at_bit_of.
    pose proof F1 as G1. pose proof F2 as G2.
    rewrite is_full_spec in G1 by (rewrite S1; lia).
    rewrite is_full_spec in G2 by (rewrite S2; lia).
    rewrite G1, G2 by (rewrite ?S1, ?S2; exact Hi). reflexivity. }
  split; [exact F1|]. split; [exact F2|].
  split; [vm_compute; reflexivity|]. split; [vm_compute; reflexivity|].
  split; vm_compute; reflexivity.
Qed.

(** ** C2: [set_range] followed by [clear_range] *)

(** C2, as stated, fails: on a 64-bit bitmap whose bit 3 is set,
    [set_range(0,8)] then [clear_range(0,8)] is a valid call sequence and
    leaves bit 3 clear, so the final state differs from the state before. *)
Lemma C2_set_clear_not_restoring :
  ~ (forall bm b e, wf bm -> valid_range bm b e ->
       clear_range (set_range bm b e) b e = bm).
Proof.
  intros H. specialize (H bm_bit3 0 8).
  assert (Hwf : wf bm_bit3) by (apply wfb_wf; vm_compute; reflexivity).
  assert (Hv : valid_range bm_bit3 0 8) by (unfold valid_range, bm_bit3; simpl; lia).
  specialize (H Hwf Hv). vm_compute in H. discriminate H.
Qed.

(** C2 (amended): for a well-formed bitmap and a valid range, [set_range]
    then [clear_range] over the same range leaves every bit of the range
    clear and every other bit as it was; the final state is bit-for-bit the
    state before exactly when no bit of the range was set before. *)
Theorem C2_set_clear_restores_iff_range_was_clear bm b e :
  wf bm -> valid_range bm b e ->
  (forall i, 0 <= i ->
     at_ (_map (clear_range (set_range bm b e) b e)) i =
     if in_range b e i then false else at_ (_map bm) i) /\
  (clear_range (set_range bm b e) b e = bm <->
   forall i, b <= i < e -> at_ (_map bm) i = false).
Proof.
  intros Hwf Hv. split.
  - intros i Hi. rewrite !at_bit_of. now apply set_then_clear_bits.
  - split.
    + intros Heq i Hi. rewrite <- Heq at 1. rewrite at_bit_of.
      pose proof Hv as (Hb & _). rewrite set_then_clear_bits by (assumption || lia).
      unfold in_range.
      destruct (Z.leb_spec b i), (Z.ltb_spec i e); simpl; try lia; reflexivity.
    + intros Hclear.
      pose proof (set_range_wf bm b e Hwf Hv) as Hwf1.
      destruct (set_range_spec bm Hwf b e Hv) as (Hs & L & W & B).
      assert (Hv' : valid_range (set_range bm b e) b e)
        by (unfold valid_range in *; rewrite Hs; exact Hv).
      pose proof (clear_range_wf _ b e Hwf1 Hv') as Hwf2.
      destruct (clear_range_spec _ Hwf1 b e Hv') as (Hs' & L' & W' & B').
      apply BitMap_ext; [congruence|].
      destruct Hwf as (_ & _ & _ & Hok). destruct Hwf2 as (_ & _ & _ & Hok2).
      apply bits_ext; [assumption | assumption | congruence |].
      intros i Hi. rewrite B', B by lia.
      unfold in_range.
      destruct (Z.leb_spec b i), (Z.ltb_spec i e); simpl; try reflexivity.
      rewrite <- at_bit_of. symmetry. apply Hclear. lia.
Qed.

Lemma C2_witness :
  clear_range (set_range bm70 3 60) 3 60 = bm70.
Proof.
  assert (Hv : valid_range bm70 3 60) by (unfold valid_range, bm70; simpl; lia).
  apply (proj2 (C2_set_clear_restores_iff_range_was_clear bm70 3 60 bm70_wf Hv)).
  intros i Hi. rewrite at_bit_of. unfold bit_of, bm70; simpl.
  replace (i / 64) with 0 by zdiv. apply Z.bits_0.
Defined.

(** ** C3: [contains] and [intersects] *)

(** C3, as stated, fails: the one-bit bitmap [{0}] contains the empty
    one-bit bitmap, and it also intersects the complement of the empty
    bitmap (which is [{0}]). *)
Lemma C3_contains_vs_intersects_complement_of_other :
  ~ (forall A B, wf A -> wf B -> _size A = _size B ->
       (contains A B = true <-> intersects A (complement B) = false)).
Proof.
  intros H.
  assert (HA : wf bm_one) by (apply wfb_wf; vm_compute; reflexivity).
  assert (HB : wf bm_none) by (apply wfb_wf; vm_compute; reflexivity).
  destruct (H bm_one bm_none HA HB eq_refl) as (H1 & _).
  specialize (H1 ltac:(vm_compute; reflexivity)).
  vm_compute in H1. discriminate H1.
Qed.

(** C3 (amended): for two well-formed bitmaps [A] and [B] of equal size,
    [A.contains(B)] is true if and only if [B.intersects(complement of A)]
    is false, the complement taken over the bit positions below the size. *)
Theorem C3_contains_iff_other_misses_complement A B :
  wf A -> wf B -> _size A = _size B ->
  (contains A B = true <-> intersects B (complement A) = false).
Proof.
  intros HA HB Hsz.
  rewrite contains_spec by assumption.
  rewrite intersects_false_spec by (assumption || now apply complement_wf).
  rewrite <- Hsz.
  split; intros H i Hi; specialize (H i Hi).
  - rewrite complement_bit by assumption.
    destruct (bit_of (_map B) i); [|reflexivity].
    rewrite H by reflexivity. reflexivity.
  - intros HBi. rewrite HBi, complement_bit in H by assumption.
    simpl in H. now apply negb_false_iff in H.
Qed.

Lemma C3_witness :
  contains bm70 (mkBitMap [0; 3] 70) = true <->
  intersects (mkBitMap [0; 3] 70) (complement bm70) = false.
Proof.
  apply (C3_contains_iff_other_misses_complement bm70 (mkBitMap [0; 3] 70) bm70_wf).
  - apply wfb_wf. vm_compute. reflexivity.
  - reflexivity.
Defined.

(** ** C4: concurrent writes to one word *)

(** Both threads have read the word 63; the first one's compare-and-swap
    stores 60; the second one's then finds 60 instead of 63, stores
    nothing and computes its new word again from 60. *)
Example par_second_write_retries :
  par_run par_clear_64_66 par_set_70_75 [true; false; true; false]
    (mkPar Start Start (_map bm70)) =
  mkPar Done (Cas 60 2044) [0; 60].
Proof. vm_compute. reflexivity. Qed.

Example par_both_writes_kept :
  par_run par_clear_64_66 par_set_70_75 read_read_write_write
    (mkPar Start Start (_map bm70)) =
  mkPar Done Done [0; 2044].
Proof. vm_compute. reflexivity. Qed.



(** ** C5: the large-range variants *)

(** C5: for a well-formed bitmap, a valid range and any small-range
    threshold of at least one word, [set_large_range] ends in the same
    state as [set_range], and [clear_large_range] in the same state as
    [clear_range]. *)
Theorem C5_large_range_same_state small_range_words bm b e :
  1 <= small_range_words < 2 ^ 63 ->
  wf bm -> valid_range bm b e ->
  set_large_range small_range_words bm b e = set_range bm b e /\
  clear_large_range small_range_words bm b e = clear_range bm b e.
Proof.
  intros Ht Hwf Hv. pose proof Hv as (Hb & Hbe & He).
  pose proof (wf_length bm Hwf) as Hlen.
  pose proof Hwf as (H0 & H1 & _). rewrite pow64 in H1. unfold BitsPerWord in H1.
  assert (H63 : 2 ^ 63 = 9223372036854775808) by reflexivity. rewrite H63 in Ht.
  assert (Hsmall : is_small_range_of_words small_range_words
                     (word_index_round_up bm b) (word_index e) = false ->
           (b + 63) / 64 < e / 64).
  { unfold is_small_range_of_words.
    rewrite (wf_round_up bm Hwf b) by lia. rewrite word_index_div.
    rewrite wrap_small by (rewrite pow64; zdiv).
    intros Hs. apply Z.leb_gt in Hs. lia. }
  assert (Hbi : bit_index ((b + 63) / 64) = 64 * ((b + 63) / 64))
    by (apply (wf_bit_index bm Hwf); zdiv).
  split.
  - unfold set_large_range.
    destruct (is_small_range_of_words _ _ _) eqn:Es; [reflexivity|].
    specialize (Hsmall eq_refl). unfold set_range.
    rewrite (wf_round_up bm Hwf b) by lia. rewrite word_index_div, Hbi.
    destruct (Z.ltb_spec ((b + 63) / 64) (e / 64)); [|lia].
    unfold set_large_range_of_words, set_range_of_words.
    rewrite fill_words_loop_memset; [reflexivity | zdiv |].
    destruct (set_range_within_word_spec (_map bm) b (64 * ((b + 63) / 64)))
      as (L & _); [zdiv..|]. rewrite L. zdiv.
  - unfold clear_large_range.
    destruct (is_small_range_of_words _ _ _) eqn:Es; [reflexivity|].
    specialize (Hsmall eq_refl). unfold clear_range.
    rewrite (wf_round_up bm Hwf b) by lia. rewrite word_index_div, Hbi.
    destruct (Z.ltb_spec ((b + 63) / 64) (e / 64)); [|lia].
    unfold clear_large_range_of_words, clear_range_of_words.
    rewrite fill_words_loop_memset; [reflexivity | zdiv |].
    destruct (clear_range_within_word_spec (_map bm) b (64 * ((b + 63) / 64)))
      as (L & _); [zdiv..|]. rewrite L. zdiv.
Qed.

Lemma C5_witness :
  set_large_range 32 bm2200 5 2190 = set_range bm2200 5 2190 /\
  clear_large_range 32 bm2200 5 2190 = clear_range bm2200 5 2190.
Proof.
  apply (C5_large_range_same_state 32 bm2200 5 2190).
  - split; [lia | reflexivity].
  - exact bm2200_wf.
  - unfold valid_range, bm2200; simpl; lia.
Defined.

(** With a threshold of 32 words the range of words 1..34 is not small:
    the bulk branch is the one taken. *)
Example large_range_not_small : is_small_range_of_words 32 1 34 = false.
Proof. reflexivity. Qed.

(** ** C6: [resize] *)

Example bm128_regrown_value : bm128_regrown = mkBitMap [all_ones; all_ones] 128.
Proof. vm_compute. reflexivity. Qed.

(** C6, as stated, fails: resizing the 70-bit bitmap [bm128_shrunk] to 128
    bits with [clear] through the resource allocator releases nothing (and,
    the last word of [bm128_shrunk] having stale set bits beyond bit 69,
    bit 70 of the result reads 1). *)
Lemma C6_resize_as_stated_fails :
  ~ (forall a bm N clear,
       allocator_ok a -> wf bm -> 0 <= N -> N + BitsPerWord <= 2 ^ BitsPerWord ->
       In (Allocated (calc_size_in_words N)) (snd (resize a bm N clear)) /\
       (forall k, 0 <= k < Z.min (size_in_words bm) (calc_size_in_words N) ->
          word_at (_map (fst (resize a bm N clear))) k = word_at (_map bm) k) /\
       (clear = true -> forall i, _size bm <= i < N ->
          at_ (_map (fst (resize a bm N clear))) i = false) /\
       In (Released (size_in_words bm)) (snd (resize a bm N clear))).
Proof.
  intros H.
  assert (Hwf : wf bm128_shrunk) by (apply wfb_wf; vm_compute; reflexivity).
  assert (HN0 : 0 <= 128) by lia.
  assert (HN1 : 128 + BitsPerWord <= 2 ^ BitsPerWord) by (rewrite pow64; unfold BitsPerWord; lia).
  destruct (H stale_resource bm128_shrunk 128 true
              (stale_allocator_ok ResourceBitMapAllocator) Hwf HN0 HN1)
    as (_ & _ & _ & Hfree).
  assert (E : snd (resize stale_resource bm128_shrunk 128 true) = [Allocated 2])
    by (vm_compute; reflexivity).
  rewrite E in Hfree. destruct Hfree as [Hfree|[]]. discriminate Hfree.
Qed.

(** What the same call does: nothing is released by the resource
    allocator, and bit 70 reads 1 after growing with [clear]. *)
Example resize_resource_grow :
  snd (resize stale_resource bm128_shrunk 128 true) = [Allocated 2] /\
  at_ (_map (fst (resize stale_resource bm128_shrunk 128 true))) 70 = true.
Proof. split; vm_compute; reflexivity. Qed.

(** Resizing to 0 bits allocates nothing. *)
Example resize_to_zero :
  resize stale_cheap bm128_shrunk 0 true = (mkBitMap [] 0, [Released 2]).
Proof. vm_compute. reflexivity. Qed.

(** C6 (amended): for a well-formed bitmap of old size [S] and a new size
    [N], [resize(N, clear)] gives a well-formed bitmap of size [N]; it
    allocates the new words when [N] needs at least one, copies exactly
    [min(ceil(S/64), ceil(N/64))] whole words, so that the bits below
    [min(S, N)] are preserved; the words beyond are zero when [clear] is
    requested (every bit position in [64 * ceil(S/64), N) reads 0) and the
    allocator's own otherwise; the old array, when there is one, is passed
    to the allocator's [free], which releases it for the C-heap allocator
    and does nothing for the resource and arena allocators. *)
Theorem C6_resize_copies_whole_words a bm N clear :
  allocator_ok a -> wf bm -> 0 <= N -> N + BitsPerWord <= 2 ^ BitsPerWord ->
  let bm' := fst (resize a bm N clear) in
  let ow := size_in_words bm in
  let nw := calc_size_in_words N in
  wf bm' /\ _size bm' = N /\
  ow = (_size bm + 63) / 64 /\ nw = (N + 63) / 64 /\
  (forall k, 0 <= k < Z.min ow nw -> word_at (_map bm') k = word_at (_map bm) k) /\
  (forall i, 0 <= i < Z.min (_size bm) N -> at_ (_map bm') i = at_ (_map bm) i) /\
  (forall k, Z.min ow nw <= k < nw ->
     word_at (_map bm') k = if clear then 0 else word_at (fresh_words a nw) k) /\
  (clear = true -> forall i, 64 * ow <= i < N -> at_ (_map bm') i = false) /\
  snd (resize a bm N clear) =
    (if 0 <? nw then [Allocated nw] else []) ++
    (if 0 <? ow then
       match alloc_kind a with
       | CHeapBitMapAllocator => [Released ow]
       | _ => []
       end
     else []).
Proof.
  intros Ha Hwf HN0 HN1. cbv zeta.
  pose proof Hwf as (H0 & H1 & Hlen & Hok).
  pose proof (reallocate_words a (_map bm) (_size bm) N clear Ha H0 H1 HN0 HN1 Hlen Hok)
    as Hre. cbv zeta in Hre. destruct Hre as (L & W & A).
  assert (Efst : fst (resize a bm N clear) =
                 mkBitMap (fst (reallocate a (_map bm) (_size bm) N clear)) N).
  { unfold resize. destruct (reallocate _ _ _ _ _). reflexivity. }
  assert (Esnd : snd (resize a bm N clear) =
                 snd (reallocate a (_map bm) (_size bm) N clear)).
  { unfold resize. destruct (reallocate _ _ _ _ _). reflexivity. }
  rewrite Efst, Esnd. simpl _map. simpl _size. unfold size_in_words in *.
  pose proof (calc_size_in_words_div (_size bm) H0 H1) as Eow.
  pose proof (calc_size_in_words_div N HN0 HN1) as Enw.
  split; [repeat split; assumption|]. split; [reflexivity|].
  split; [assumption|]. split; [assumption|].
  split; [|split; [|split; [|split]]].
  - intros k Hk. rewrite A by lia.
    destruct (Z.ltb_spec k (Z.min (calc_size_in_words (_size bm)) (calc_size_in_words N)));
      [reflexivity | lia].
  - intros i Hi. rewrite !at_bit_of. unfold bit_of. rewrite A by (rewrite Enw; zdiv).
    destruct (Z.ltb_spec (i / 64) (Z.min (calc_size_in_words (_size bm)) (calc_size_in_words N)));
      [reflexivity | exfalso; rewrite Eow, Enw in *; zdiv].
  - intros k Hk. rewrite A by lia.
    destruct (Z.ltb_spec k (Z.min (calc_size_in_words (_size bm)) (calc_size_in_words N)));
      [lia | reflexivity].
  - intros -> i Hi. rewrite at_bit_of. unfold bit_of.
    rewrite A by (rewrite Eow, Enw in *; zdiv).
    destruct (Z.ltb_spec (i / 64) (Z.min (calc_size_in_words (_size bm)) (calc_size_in_words N)));
      [exfalso; rewrite Eow, Enw in *; zdiv | apply Z.bits_0].
  - unfold reallocate, allocator_allocate, allocator_free.
    rewrite not_null_length, Hlen.
    destruct (0 <? calc_size_in_words N); simpl; reflexivity.
Qed.

Lemma C6_witness :
  let a := stale_cheap in
  let bm := bm70 in
  let N := 200 in
  let clear := true in
  let bm' := fst (resize a bm N clear) in
  let ow := size_in_words bm in
  let nw := calc_size_in_words N in
  wf bm' /\ _size bm' = N /\
  ow = (_size bm + 63) / 64 /\ nw = (N + 63) / 64 /\
  (forall k, 0 <= k < Z.min ow nw -> word_at (_map bm') k = word_at (_map bm) k) /\
  (forall i, 0 <= i < Z.min (_size bm) N -> at_ (_map bm') i = at_ (_map bm) i) /\
  (forall k, Z.min ow nw <= k < nw ->
     word_at (_map bm') k = if clear then 0 else word_at (fresh_words a nw) k) /\
  (clear = true -> forall i, 64 * ow <= i < N -> at_ (_map bm') i = false) /\
  snd (resize a bm N clear) =
    (if 0 <? nw then [Allocated nw] else []) ++
    (if 0 <? ow then
       match alloc_kind a with
       | CHeapBitMapAllocator => [Released ow]
       | _ => []
       end
     else []).
Proof.
  intros a bm N clear.
  apply (C6_resize_copies_whole_words a bm N clear
           (stale_allocator_ok CHeapBitMapAllocator) bm70_wf).
  - subst N. lia.
  - subst N. rewrite pow64. unfold BitsPerWord. lia.
Defined.

Example resize_cheap_grow :
  resize stale_cheap bm70 200 true = (mkBitMap [0; 63; 0; 0] 200, [Allocated 4; Released 2]).
Proof. vm_compute. reflexivity. Qed.

(** ** C7: [set_range] and [count_one_bits] *)

Example count_one_bits_bm70 : count_one_bits bm70 = Some 6.
Proof. vm_compute. reflexivity. Qed.

Example count_one_bits_bm70_dirty : count_one_bits bm70_dirty = Some 128.
Proof. vm_compute. reflexivity. Qed.

(** C7: for a well-formed bitmap and a valid range, [count_one_bits]
    returns before and after [set_range(beg,end)], and the count after is
    the count before plus [(end - beg)] minus the number of positions of
    [beg, end) at which [at] was already true. *)
Theorem C7_set_range_adds_clear_bits_of_range bm b e :
  wf bm -> valid_range bm b e ->
  exists before after,
    count_one_bits bm = Some before /\
    count_one_bits (set_range bm b e) = Some after /\
    after = before + ((e - b) - count_bits (Z.to_nat (e - b)) b (_map bm)).
Proof.
  intros Hwf Hv.
  destruct (set_range_spec bm Hwf b e Hv) as (Hs & L & W & B).
  pose proof (set_range_wf bm b e Hwf Hv) as Hwf'.
  pose proof (wf_length bm Hwf) as Hlen. destruct Hv as (Hb & Hbe & He).
  eexists. eexists. split; [now apply count_one_bits_spec|].
  split; [now apply count_one_bits_spec|].
  rewrite L. apply set_bits_count; [exact B | lia | zdiv].
Qed.

Lemma C7_witness :
  exists before after,
    count_one_bits bm70 = Some before /\
    count_one_bits (set_range bm70 60 68) = Some after /\
    after = before + ((68 - 60) - count_bits (Z.to_nat (68 - 60)) 60 (_map bm70)).
Proof.
  apply (C7_set_range_adds_clear_bits_of_range bm70 60 68 bm70_wf).
  unfold valid_range, bm70; simpl; lia.
Defined.

Example count_after_set_range_bm70 :
  count_one_bits (set_range bm70 60 68) = Some 10 /\
  count_bits (Z.to_nat (68 - 60)) 60 (_map bm70) = 4.
Proof. split; vm_compute; reflexivity. Qed.

(** ** C8: [iterate] *)

(** C8: for a well-formed bitmap, a valid range and a closure (which may
    edit the bitmap's words), [iterate(closure, left, right)] is the
    traversal [visit_bits]: the positions of [left, right) are taken in
    increasing order, each bit is read in the array as the closure calls
    made so far have left it, and the closure is called on the set ones.
    The calls are at strictly increasing positions of [left, right), an
    answer [false] of the closure is the last call made, and [iterate]
    returns [true] exactly when no call answered [false]. *)
Theorem C8_iterate_in_order_rereads_and_stops {S : Type} (blk : @BitMapClosure S)
    bm left right (s : S) :
  wf bm -> valid_range bm left right -> closure_ok blk ->
  iterate blk bm left right s =
    visit_bits blk left (mkIter s (_map bm) []) (Z.to_nat (right - left)) /\
  calls_ok left right (calls (snd (iterate blk bm left right s))) /\
  fst (iterate blk bm left right s) =
    forallb snd (calls (snd (iterate blk bm left right s))).
Proof.
  intros Hwf Hv Hblk.
  rewrite (iterate_visit blk Hblk bm left right s Hwf Hv).
  split; [reflexivity|].
  destruct (visit_bits_calls blk (Z.to_nat (right - left)) left (mkIter s (_map bm) []))
    as (new & Hc & Hok & Hf).
  simpl in Hc. rewrite Hc, Hf. split; [|reflexivity].
  destruct Hv as (Hl & Hlr & Hr).
  replace (left + Z.of_nat (Z.to_nat (right - left))) with right in Hok by lia.
  exact Hok.
Qed.

Lemma C8_witness :
  iterate skip_next_closure bm70 0 70 [] =
    visit_bits skip_next_closure 0 (mkIter [] (_map bm70) []) (Z.to_nat (70 - 0)) /\
  calls_ok 0 70 (calls (snd (iterate skip_next_closure bm70 0 70 []))) /\
  fst (iterate skip_next_closure bm70 0 70 []) =
    forallb snd (calls (snd (iterate skip_next_closure bm70 0 70 []))).
Proof.
  apply (C8_iterate_in_order_rereads_and_stops skip_next_closure bm70 0 70 [] bm70_wf).
  - unfold valid_range, bm70; simpl; lia.
  - exact skip_next_closure_ok.
Defined.

(** On bits 64..69 set: position 64 is visited and bit 65 cleared by the
    closure, so 65 is not visited; at 66 the closure asks to stop. *)
Example iterate_skip_next :
  iterate skip_next_closure bm70 0 70 [] =
  (false, mkIter [66; 64] [0; 53] [(64, true); (66, false)]).
Proof. vm_compute. reflexivity. Qed.

(** ** C9: the floor of the mandatory pass *)

(** The example of the specification: with a minimum of 1 region, a
    mandatory budget of 15 ms selects R1 only, and one of 20 ms selects R1
    and R2. *)
Example mandatory_pass_spec_example :
  mandatory_old_regions spec_candidates (15 # 1) 1 10 = 1%nat /\
  mandatory_old_regions spec_candidates (20 # 1) 1 10 = 2%nat.
Proof. split; reflexivity. Qed.

(** C9, as stated, fails: with a minimum of 2 regions and a single
    candidate, the mandatory pass returns 1 region. *)
Lemma C9_fewer_candidates_than_minimum :
  ~ (forall candidates budget_ms min_length max_length,
       (min_length <= mandatory_old_regions candidates budget_ms min_length max_length)%nat).
Proof.
  intros H. specialize (H [mkCandidate 100 (10 # 1)] (15 # 1) 2%nat 10%nat).
  vm_compute in H. lia.
Qed.

(** C9 (amended): for every candidate list, time budget, minimum and
    maximum count, the mandatory pass returns at least the smaller of the
    minimum count and the number of candidates, whatever the predicted
    times and the budget. *)
Theorem C9_mandatory_pass_floor candidates budget_ms min_length max_length :
  (Nat.min min_length (length candidates) <=
   mandatory_old_regions candidates budget_ms min_length max_length)%nat.
Proof.
  unfold mandatory_old_regions.
  apply (mandatory_pass_floor budget_ms min_length max_length candidates 0%nat 0%Q).
Qed.

(** The floor overrides the budget: with a minimum of 2 regions and a
    budget of 1 ms, the two first regions (18 ms) are still selected. *)
Example mandatory_pass_overrun :
  mandatory_old_regions spec_candidates (1 # 1) 2 10 = 2%nat.
Proof. reflexivity. Qed.

(** The floor is not capped by the maximum either: with a minimum of 2
    regions and a maximum of 1, two regions are selected. *)
Example mandatory_pass_minimum_above_maximum :
  mandatory_old_regions spec_candidates (100 # 1) 2 1 = 2%nat.
Proof. reflexivity. Qed.

(** ** C10: the set operations and the bits beyond [size] *)

(** C10: on well-formed bitmaps of equal size, [set_union],
    [set_intersection], [set_difference], their [_with_result] variants and
    [set_from] leave every storage bit of the destination at a position at
    or beyond [size] as it was, and keep the size and the number of words. *)
Theorem C10_set_algebra_keeps_bits_beyond_size dest other i :
  wf dest -> wf other -> _size dest = _size other -> _size dest <= i ->
  bit_of (_map (set_union dest other)) i = bit_of (_map dest) i /\
  bit_of (_map (set_intersection dest other)) i = bit_of (_map dest) i /\
  bit_of (_map (set_difference dest other)) i = bit_of (_map dest) i /\
  bit_of (_map (fst (set_union_with_result dest other))) i = bit_of (_map dest) i /\
  bit_of (_map (fst (set_intersection_with_result dest other))) i = bit_of (_map dest) i /\
  bit_of (_map (fst (set_difference_with_result dest other))) i = bit_of (_map dest) i /\
  bit_of (_map (set_from dest other)) i = bit_of (_map dest) i.
Proof.
  intros Hd Ho Hsz Hi.
  unfold set_union_with_result, set_intersection_with_result, set_difference_with_result.
  rewrite !set_combine_with_result_fst.
  unfold set_union, set_intersection, set_difference.
  repeat split; try (now apply set_combine_frame).
  now apply set_from_frame.
Qed.

Lemma C10_witness :
  bit_of (_map (set_union bm70_dirty bm70)) 100 = true /\
  bit_of (_map (set_intersection bm70_dirty bm70)) 100 = true /\
  bit_of (_map (set_difference bm70_dirty bm70)) 100 = true /\
  bit_of (_map (fst (set_union_with_result bm70_dirty bm70))) 100 = true /\
  bit_of (_map (fst (set_intersection_with_result bm70_dirty bm70))) 100 = true /\
  bit_of (_map (fst (set_difference_with_result bm70_dirty bm70))) 100 = true /\
  bit_of (_map (set_from bm70_dirty bm70)) 100 = true.
Proof.
  apply (C10_set_algebra_keeps_bits_beyond_size bm70_dirty bm70 100).
  - apply wfb_wf. vm_compute. reflexivity.
  - exact bm70_wf.
  - reflexivity.
  - vm_compute. discriminate.
Defined.

(** * Further properties *)

(** ** Ranges *)

(** X1: for a well-formed bitmap and a valid range, [at_put_range(beg,
    end, value)] (that is [set_range] for [true] and [clear_range] for
    [false]) gives a well-formed bitmap of the same size in which [at(i)]
    is [value] for every [i] of [beg, end) and is unchanged at every other
    position, the storage bits beyond [size] included. *)
Theorem X1_at_put_range_puts_the_range bm b e v :
  wf bm -> valid_range bm b e ->
  wf (at_put_range bm b e v) /\
  _size (at_put_range bm b e v) = _size bm /\
  forall i, 0 <= i ->
    at_ (_map (at_put_range bm b e v)) i = if in_range b e i then v else at_ (_map bm) i.
Proof.
  intros Hwf Hv. split; [now apply at_put_range_wf|].
  destruct (at_put_range_spec bm b e v Hwf Hv) as (Hs & _ & _ & B).
  split; [assumption|]. intros i Hi. rewrite !at_bit_of. now apply B.
Qed.

Lemma X1_witness :
  wf (at_put_range bm70 60 68 true) /\
  _size (at_put_range bm70 60 68 true) = _size bm70 /\
  forall i, 0 <= i ->
    at_ (_map (at_put_range bm70 60 68 true)) i =
    if in_range 60 68 i then true else at_ (_map bm70) i.
Proof.
  apply (X1_at_put_range_puts_the_range bm70 60 68 true bm70_wf).
  unfold valid_range, bm70; simpl; lia.
Defined.

(** X2: [at_put_range] changes nothing, in the storage either, when every
    bit of the range already has the value; in particular a range with
    [beg = end] is a no-op. *)
Theorem X2_at_put_range_without_effect bm b e v :
  wf bm -> valid_range bm b e ->
  ((forall i, b <= i < e -> at_ (_map bm) i = v) -> at_put_range bm b e v = bm) /\
  at_put_range bm b b v = bm.
Proof.
  intros Hwf Hv. split.
  - intros H. apply at_put_range_id; try assumption.
    intros i Hi. rewrite <- at_bit_of. now apply H.
  - apply at_put_range_id; [assumption | unfold valid_range in *; lia | intros i Hi; lia].
Qed.

Lemma X2_witness :
  ((forall i, 64 <= i < 70 -> at_ (_map bm70) i = true) -> at_put_range bm70 64 70 true = bm70) /\
  at_put_range bm70 64 64 true = bm70.
Proof.
  apply (X2_at_put_range_without_effect bm70 64 70 true bm70_wf).
  unfold valid_range, bm70; simpl; lia.
Defined.

(** X3: two [at_put_range] calls with the same value over valid ranges
    that overlap or touch end in the state of one call over the union of
    the ranges; so a call repeated on the same range changes nothing more,
    and adjacent ranges compose. *)
Theorem X3_at_put_range_union bm a b c d v :
  wf bm -> valid_range bm a b -> valid_range bm c d -> c <= b -> a <= d ->
  at_put_range (at_put_range bm a b v) c d v = at_put_range bm (Z.min a c) (Z.max b d) v.
Proof. apply at_put_range_union. Qed.

Lemma X3_witness :
  at_put_range (at_put_range bm70 3 40 true) 40 66 true =
  at_put_range bm70 (Z.min 3 40) (Z.max 40 66) true.
Proof.
  apply (X3_at_put_range_union bm70 3 40 40 66 true bm70_wf);
    unfold valid_range, bm70; simpl; lia.
Defined.

(** ** Queries *)

(** X4: on well-formed bitmaps of equal size, [contains(other)] is true
    exactly when every position below [size] that is set in [other] is
    set in the bitmap; the storage bits beyond [size] play no role. *)
Theorem X4_contains_is_inclusion bm other :
  wf bm -> wf other -> _size bm = _size other ->
  (contains bm other = true <->
   forall i, 0 <= i < _size bm -> at_ (_map other) i = true -> at_ (_map bm) i = true).
Proof.
  intros Hwf Hwo _. rewrite contains_spec by assumption.
  split; intros H i Hi; specialize (H i Hi); rewrite ?at_bit_of in *; exact H.
Qed.

Lemma X4_witness :
  contains bm70_dirty bm70 = true <->
  forall i, 0 <= i < _size bm70_dirty ->
    at_ (_map bm70) i = true -> at_ (_map bm70_dirty) i = true.
Proof.
  apply (X4_contains_is_inclusion bm70_dirty bm70).
  - apply wfb_wf. vm_compute. reflexivity.
  - exact bm70_wf.
  - reflexivity.
Defined.

(** X5: on well-formed bitmaps of equal size, [intersects(other)] is false
    exactly when no position below [size] is set in both, and it gives the
    same answer with the two bitmaps exchanged. *)
Theorem X5_intersects_is_common_bit bm other :
  wf bm -> wf other -> _size bm = _size other ->
  (intersects bm other = false <->
   forall i, 0 <= i < _size bm -> at_ (_map bm) i = false \/ at_ (_map other) i = false) /\
  intersects bm other = intersects other bm.
Proof.
  intros Hwf Hwo Hsz.
  assert (Hsym : forall x y, wf x -> wf y -> _size x = _size y ->
            intersects x y = false -> intersects y x = false).
  { intros x y Hx Hy Hxy H. rewrite intersects_false_spec in * by assumption.
    intros i Hi. rewrite andb_comm. apply H. lia. }
  split.
  - rewrite intersects_false_spec by assumption.
    split; intros H i Hi; specialize (H i Hi); rewrite ?at_bit_of in *.
    + apply andb_false_iff. exact H.
    + apply andb_false_iff in H. exact H.
  - destruct (intersects bm other) eqn:E1, (intersects other bm) eqn:E2; try reflexivity.
    + rewrite (Hsym other bm) in E1 by (assumption || lia). discriminate.
    + rewrite (Hsym bm other) in E2 by (assumption || lia). discriminate.
Qed.

Lemma X5_witness :
  (intersects bm70_dirty bm70 = false <->
   forall i, 0 <= i < _size bm70_dirty ->
     at_ (_map bm70_dirty) i = false \/ at_ (_map bm70) i = false) /\
  intersects bm70_dirty bm70 = intersects bm70 bm70_dirty.
Proof.
  apply (X5_intersects_is_common_bit bm70_dirty bm70).
  - apply wfb_wf. vm_compute. reflexivity.
  - exact bm70_wf.
  - reflexivity.
Defined.

(** X6: on well-formed bitmaps of equal size, [is_same(other)] is true
    exactly when the two bitmaps have the same bit at every position below
    [size]; stale bits beyond [size] do not make them differ. *)
Theorem X6_is_same_is_equality_below_size bm other :
  wf bm -> wf other -> _size bm = _size other ->
  (is_same bm other = true <->
   forall i, 0 <= i < _size bm -> at_ (_map bm) i = at_ (_map other) i).
Proof.
  intros Hwf Hwo _. rewrite is_same_spec by assumption.
  split; intros H i Hi; specialize (H i Hi); rewrite ?at_bit_of in *; exact H.
Qed.

Lemma X6_witness :
  is_same bm70_uncleared bm70_full = true <->
  forall i, 0 <= i < _size bm70_uncleared ->
    at_ (_map bm70_uncleared) i = at_ (_map bm70_full) i.
Proof.
  apply (X6_is_same_is_equality_below_size bm70_uncleared bm70_full).
  - apply wfb_wf. vm_compute. reflexivity.
  - apply wfb_wf. vm_compute. reflexivity.
  - reflexivity.
Defined.

(** X7: on a well-formed bitmap, [is_full] is true exactly when every
    position below [size] is set, and [is_empty] exactly when every
    position below [size] is clear (both are true on a bitmap of size 0). *)
Theorem X7_is_full_is_empty bm :
  wf bm ->
  (is_full bm = true <-> forall i, 0 <= i < _size bm -> at_ (_map bm) i = true) /\
  (is_empty bm = true <-> forall i, 0 <= i < _size bm -> at_ (_map bm) i = false).
Proof.
  intros Hwf. pose proof Hwf as (H0 & _). split.
  - rewrite is_full_spec by assumption.
    split; intros H i Hi; specialize (H i Hi); rewrite ?at_bit_of in *; exact H.
  - rewrite is_empty_spec by assumption.
    split; intros H i Hi; specialize (H i Hi); rewrite ?at_bit_of in *; exact H.
Qed.

Lemma X7_witness :
  (is_full bm70_dirty = true <->
   forall i, 0 <= i < _size bm70_dirty -> at_ (_map bm70_dirty) i = true) /\
  (is_empty bm70_dirty = true <->
   forall i, 0 <= i < _size bm70_dirty -> at_ (_map bm70_dirty) i = false).
Proof.
  apply (X7_is_full_is_empty bm70_dirty).
  apply wfb_wf. vm_compute. reflexivity.
Defined.

(** X8: on well-formed bitmaps of equal size, [is_same] holds exactly when
    each bitmap contains the other; a bitmap contains itself; and a bitmap
    intersects itself exactly when it is not empty. *)
Theorem X8_query_relations bm other :
  wf bm -> wf other -> _size bm = _size other ->
  is_same bm other = contains bm other && contains other bm /\
  contains bm bm = true /\
  intersects bm bm = negb (is_empty bm).
Proof.
  intros Hwf Hwo Hsz. split; [|split].
  - apply bool_eq_iff. rewrite andb_true_iff.
    rewrite is_same_spec, !contains_spec by assumption. rewrite <- Hsz.
    split.
    + intros H. split; intros i Hi Hb; [rewrite H | rewrite <- H]; assumption.
    + intros (H1 & H2) i Hi.
      destruct (bit_of (_map bm) i) eqn:E1, (bit_of (_map other) i) eqn:E2; try reflexivity.
      * rewrite (H2 i Hi E1) in E2. discriminate.
      * rewrite (H1 i Hi E2) in E1. discriminate.
  - apply contains_spec; [assumption..|]. auto.
  - destruct (intersects bm bm) eqn:E1, (is_empty bm) eqn:E2; try reflexivity; exfalso.
    + rewrite is_empty_spec in E2 by assumption.
      assert (E : intersects bm bm = false).
      { apply intersects_false_spec; [assumption..|]. intros i Hi.
        rewrite (E2 i Hi). reflexivity. }
      congruence.
    + rewrite intersects_false_spec in E1 by assumption.
      assert (E : is_empty bm = true).
      { apply is_empty_spec; [assumption|]. intros i Hi. specialize (E1 i Hi).
        destruct (bit_of (_map bm) i); [discriminate | reflexivity]. }
      congruence.
Qed.

Lemma X8_witness :
  is_same bm70_dirty bm70 = contains bm70_dirty bm70 && contains bm70 bm70_dirty /\
  contains bm70_dirty bm70_dirty = true /\
  intersects bm70_dirty bm70_dirty = negb (is_empty bm70_dirty).
Proof.
  apply (X8_query_relations bm70_dirty bm70).
  - apply wfb_wf. vm_compute. reflexivity.
  - exact bm70_wf.
  - reflexivity.
Defined.

(** ** Set algebra *)

(** X9: on well-formed bitmaps of equal size, [set_union],
    [set_intersection] and [set_difference] give well-formed bitmaps whose
    bit at every position below [size] is the or, the and, and the and-not
    of the two operands' bits. *)
Theorem X9_set_algebra_below_size bm other :
  wf bm -> wf other -> _size bm = _size other ->
  (wf (set_union bm other) /\ wf (set_intersection bm other) /\
   wf (set_difference bm other)) /\
  forall i, 0 <= i < _size bm ->
    at_ (_map (set_union bm other)) i = at_ (_map bm) i || at_ (_map other) i /\
    at_ (_map (set_intersection bm other)) i = at_ (_map bm) i && at_ (_map other) i /\
    at_ (_map (set_difference bm other)) i = at_ (_map bm) i && negb (at_ (_map other) i).
Proof.
  intros Hwf Hwo Hsz. split.
  - split; [|split].
    + exact (set_combine_wf _ _ bm other union_word_bitwise Hwf Hwo).
    + exact (set_combine_wf _ _ bm other intersection_word_bitwise Hwf Hwo).
    + exact (set_combine_wf _ _ bm other difference_word_bitwise Hwf Hwo).
  - intros i Hi. rewrite !at_bit_of. split; [|split].
    + exact (set_combine_below _ _ bm other i union_word_bitwise Hwf Hwo Hsz Hi).
    + exact (set_combine_below _ _ bm other i intersection_word_bitwise Hwf Hwo Hsz Hi).
    + exact (set_combine_below _ _ bm other i difference_word_bitwise Hwf Hwo Hsz Hi).
Qed.

Lemma X9_witness :
  (wf (set_union bm70 bm70_full) /\ wf (set_intersection bm70 bm70_full) /\
   wf (set_difference bm70 bm70_full)) /\
  forall i, 0 <= i < _size bm70 ->
    at_ (_map (set_union bm70 bm70_full)) i = at_ (_map bm70) i || at_ (_map bm70_full) i /\
    at_ (_map (set_intersection bm70 bm70_full)) i = at_ (_map bm70) i && at_ (_map bm70_full) i /\
    at_ (_map (set_difference bm70 bm70_full)) i = at_ (_map bm70) i && negb (at_ (_map bm70_full) i).
Proof.
  apply (X9_set_algebra_below_size bm70 bm70_full).
  - exact bm70_wf.
  - apply wfb_wf. vm_compute. reflexivity.
  - reflexivity.
Defined.

(** X10: on well-formed bitmaps of equal size, [set_from(other)] gives a
    well-formed bitmap of the same size whose bit at every position below
    [size] is the bit of [other]; afterwards [is_same(other)] is true. *)
Theorem X10_set_from_copies_below_size bm other :
  wf bm -> wf other -> _size bm = _size other ->
  wf (set_from bm other) /\
  _size (set_from bm other) = _size bm /\
  (forall i, 0 <= i < _size bm -> at_ (_map (set_from bm other)) i = at_ (_map other) i) /\
  is_same (set_from bm other) other = true.
Proof.
  intros Hwf Hwo Hsz.
  pose proof (set_from_wf bm other Hwf Hwo Hsz) as Hwr.
  split; [exact Hwr|]. split; [apply set_from_size|]. split.
  - intros i Hi. rewrite !at_bit_of. now apply set_from_below.
  - apply is_same_spec; [assumption..|]. rewrite set_from_size.
    intros i Hi. now apply set_from_below.
Qed.

Lemma X10_witness :
  wf (set_from bm70_dirty bm70) /\
  _size (set_from bm70_dirty bm70) = _size bm70_dirty /\
  (forall i, 0 <= i < _size bm70_dirty ->
     at_ (_map (set_from bm70_dirty bm70)) i = at_ (_map bm70) i) /\
  is_same (set_from bm70_dirty bm70) bm70 = true.
Proof.
  apply (X10_set_from_copies_below_size bm70_dirty bm70).
  - apply wfb_wf. vm_compute. reflexivity.
  - exact bm70_wf.
  - reflexivity.
Defined.

(** X11: [set_union_with_result], [set_intersection_with_result] and
    [set_difference_with_result] leave the bitmap in the state of the plain
    operation, and on well-formed bitmaps of equal size they return false
    exactly when no bit below [size] differs from the bitmap before the
    call. *)
Theorem X11_with_result_reports_change bm other :
  wf bm -> wf other -> _size bm = _size other ->
  (fst (set_union_with_result bm other) = set_union bm other /\
   (snd (set_union_with_result bm other) = false <->
    forall i, 0 <= i < _size bm ->
      at_ (_map (fst (set_union_with_result bm other))) i = at_ (_map bm) i)) /\
  (fst (set_intersection_with_result bm other) = set_intersection bm other /\
   (snd (set_intersection_with_result bm other) = false <->
    forall i, 0 <= i < _size bm ->
      at_ (_map (fst (set_intersection_with_result bm other))) i = at_ (_map bm) i)) /\
  (fst (set_difference_with_result bm other) = set_difference bm other /\
   (snd (set_difference_with_result bm other) = false <->
    forall i, 0 <= i < _size bm ->
      at_ (_map (fst (set_difference_with_result bm other))) i = at_ (_map bm) i)).
Proof.
  intros Hwf Hwo Hsz.
  assert (G : forall f fb, bitwise f fb ->
    fst (set_combine_with_result f bm other) = set_combine f bm other /\
    (snd (set_combine_with_result f bm other) = false <->
     forall i, 0 <= i < _size bm ->
       at_ (_map (fst (set_combine_with_result f bm other))) i = at_ (_map bm) i)).
  { intros f fb Hf. split; [apply set_combine_with_result_fst|].
    rewrite set_combine_with_result_fst.
    rewrite (set_combine_with_result_false_bits f fb) by assumption.
    split; intros H i Hi; specialize (H i Hi); rewrite ?at_bit_of in *;
      rewrite (set_combine_below f fb) in * by assumption; exact H. }
  split; [|split].
  - exact (G _ _ union_word_bitwise).
  - exact (G _ _ intersection_word_bitwise).
  - exact (G _ _ difference_word_bitwise).
Qed.

Lemma X11_witness :
  (fst (set_union_with_result bm70 bm70_full) = set_union bm70 bm70_full /\
   (snd (set_union_with_result bm70 bm70_full) = false <->
    forall i, 0 <= i < _size bm70 ->
      at_ (_map (fst (set_union_with_result bm70 bm70_full))) i = at_ (_map bm70) i)) /\
  (fst (set_intersection_with_result bm70 bm70_full) = set_intersection bm70 bm70_full /\
   (snd (set_intersection_with_result bm70 bm70_full) = false <->
    forall i, 0 <= i < _size bm70 ->
      at_ (_map (fst (set_intersection_with_result bm70 bm70_full))) i = at_ (_map bm70) i)) /\
  (fst (set_difference_with_result bm70 bm70_full) = set_difference bm70 bm70_full /\
   (snd (set_difference_with_result bm70 bm70_full) = false <->
    forall i, 0 <= i < _size bm70 ->
      at_ (_map (fst (set_difference_with_result bm70 bm70_full))) i = at_ (_map bm70) i)).
Proof.
  apply (X11_with_result_reports_change bm70 bm70_full).
  - exact bm70_wf.
  - apply wfb_wf. vm_compute. reflexivity.
  - reflexivity.
Defined.

(** X12: on well-formed bitmaps of equal size, [set_union_with_result]
    returns false exactly when the bitmap already contains [other],
    [set_intersection_with_result] exactly when [other] contains the
    bitmap, and [set_difference_with_result] exactly when the two do not
    intersect. *)
Theorem X12_with_result_and_queries bm other :
  wf bm -> wf other -> _size bm = _size other ->
  (snd (set_union_with_result bm other) = false <-> contains bm other = true) /\
  (snd (set_intersection_with_result bm other) = false <-> contains other bm = true) /\
  (snd (set_difference_with_result bm other) = false <-> intersects bm other = false).
Proof.
  intros Hwf Hwo Hsz. split; [|split].
  - unfold set_union_with_result.
    rewrite (set_combine_with_result_false_bits _ _ bm other union_word_bitwise) by assumption.
    rewrite contains_spec by assumption.
    split; intros H i Hi; specialize (H i Hi).
    + intros Ho. rewrite Ho, orb_true_r in H. now symmetry.
    + destruct (bit_of (_map bm) i); [reflexivity|]. simpl.
      destruct (bit_of (_map other) i); [|reflexivity]. symmetry. now apply H.
  - unfold set_intersection_with_result.
    rewrite (set_combine_with_result_false_bits _ _ bm other intersection_word_bitwise)
      by assumption.
    rewrite contains_spec by assumption. rewrite <- Hsz.
    split; intros H i Hi; specialize (H i Hi).
    + intros Hb. rewrite Hb in H. exact H.
    + destruct (bit_of (_map bm) i); [|reflexivity]. simpl. now apply H.
  - unfold set_difference_with_result.
    rewrite (set_combine_with_result_false_bits _ _ bm other difference_word_bitwise)
      by assumption.
    rewrite intersects_false_spec by assumption.
    split; intros H i Hi; specialize (H i Hi);
      destruct (bit_of (_map bm) i), (bit_of (_map other) i); simpl in *; congruence.
Qed.

Lemma X12_witness :
  (snd (set_union_with_result bm70_full bm70) = false <-> contains bm70_full bm70 = true) /\
  (snd (set_intersection_with_result bm70_full bm70) = false <-> contains bm70 bm70_full = true) /\
  (snd (set_difference_with_result bm70_full bm70) = false <-> intersects bm70_full bm70 = false).
Proof.
  apply (X12_with_result_and_queries bm70_full bm70).
  - apply wfb_wf. vm_compute. reflexivity.
  - exact bm70_wf.
  - reflexivity.
Defined.

(** X13: on well-formed bitmaps of equal size, union and intersection do
    not depend on the order of the operands as far as [is_same] can tell;
    the union and the intersection of a bitmap with itself leave it as it
    is, storage included; and the difference of a bitmap with itself is
    empty. *)
Theorem X13_set_algebra_laws bm other :
  wf bm -> wf other -> _size bm = _size other ->
  is_same (set_union bm other) (set_union other bm) = true /\
  is_same (set_intersection bm other) (set_intersection other bm) = true /\
  set_union bm bm = bm /\
  set_intersection bm bm = bm /\
  is_empty (set_difference bm bm) = true.
Proof.
  intros Hwf Hwo Hsz.
  assert (Hcomm : forall f fb, bitwise f fb -> (forall x y, fb x y = fb y x) ->
            is_same (set_combine f bm other) (set_combine f other bm) = true).
  { intros f fb Hf Hc. apply is_same_spec.
    - exact (set_combine_wf f fb bm other Hf Hwf Hwo).
    - exact (set_combine_wf f fb other bm Hf Hwo Hwf).
    - rewrite set_combine_size. intros i Hi.
      rewrite (set_combine_below f fb bm other) by assumption.
      rewrite (set_combine_below f fb other bm) by (assumption || lia).
      apply Hc. }
  split; [|split; [|split; [|split]]].
  - exact (Hcomm _ _ union_word_bitwise orb_comm).
  - exact (Hcomm _ _ intersection_word_bitwise andb_comm).
  - apply (set_combine_unchanged_iff _ _ bm bm union_word_bitwise); try assumption.
    + reflexivity.
    + intros i _. apply orb_diag.
  - apply (set_combine_unchanged_iff _ _ bm bm intersection_word_bitwise); try assumption.
    + reflexivity.
    + intros i _. apply andb_diag.
  - apply is_empty_spec.
    + exact (set_combine_wf _ _ bm bm difference_word_bitwise Hwf Hwf).
    + unfold set_difference. rewrite set_combine_size. intros i Hi.
      rewrite (set_combine_below _ _ bm bm i difference_word_bitwise) by (assumption || reflexivity).
      apply andb_negb_r.
Qed.

Lemma X13_witness :
  is_same (set_union bm70 bm70_dirty) (set_union bm70_dirty bm70) = true /\
  is_same (set_intersection bm70 bm70_dirty) (set_intersection bm70_dirty bm70) = true /\
  set_union bm70 bm70 = bm70 /\
  set_intersection bm70 bm70 = bm70 /\
  is_empty (set_difference bm70 bm70) = true.
Proof.
  apply (X13_set_algebra_laws bm70 bm70_dirty).
  - exact bm70_wf.
  - apply wfb_wf. vm_compute. reflexivity.
  - reflexivity.
Defined.

(** X14: on well-formed bitmaps of equal size, the union contains both
    operands, both operands contain the intersection, the bitmap contains
    its difference with [other], and that difference does not intersect
    [other]. *)
Theorem X14_set_algebra_and_queries bm other :
  wf bm -> wf other -> _size bm = _size other ->
  contains (set_union bm other) bm = true /\
  contains (set_union bm other) other = true /\
  contains bm (set_intersection bm other) = true /\
  contains other (set_intersection bm other) = true /\
  contains bm (set_difference bm other) = true /\
  intersects (set_difference bm other) other = false.
Proof.
  intros Hwf Hwo Hsz.
  pose proof (set_combine_wf _ _ bm other union_word_bitwise Hwf Hwo) as Hwu.
  pose proof (set_combine_wf _ _ bm other intersection_word_bitwise Hwf Hwo) as Hwi.
  pose proof (set_combine_wf _ _ bm other difference_word_bitwise Hwf Hwo) as Hwd.
  pose proof (fun i => set_combine_below _ _ bm other i union_word_bitwise Hwf Hwo Hsz) as Bu.
  pose proof (fun i => set_combine_below _ _ bm other i intersection_word_bitwise Hwf Hwo Hsz) as Bi.
  pose proof (fun i => set_combine_below _ _ bm other i difference_word_bitwise Hwf Hwo Hsz) as Bd.
  fold set_union in Hwu, Bu. fold set_intersection in Hwi, Bi. fold set_difference in Hwd, Bd.
  split; [|split; [|split; [|split; [|split]]]].
  - apply contains_spec; [assumption..|]. unfold set_union at 1. rewrite set_combine_size.
    intros i Hi Hb. rewrite Bu, Hb by assumption. reflexivity.
  - apply contains_spec; [assumption..|]. unfold set_union at 1. rewrite set_combine_size.
    intros i Hi Hb. rewrite Bu, Hb by assumption. apply orb_true_r.
  - apply contains_spec; [assumption..|].
    intros i Hi Hb. rewrite Bi in Hb by assumption. now apply andb_true_iff in Hb.
  - apply contains_spec; [assumption..|]. rewrite <- Hsz.
    intros i Hi Hb. rewrite Bi in Hb by assumption. now apply andb_true_iff in Hb.
  - apply contains_spec; [assumption..|].
    intros i Hi Hb. rewrite Bd in Hb by assumption. now apply andb_true_iff in Hb.
  - apply intersects_false_spec; [assumption..|].
    unfold set_difference at 1. rewrite set_combine_size.
    intros i Hi. rewrite Bd by assumption.
    destruct (bit_of (_map bm) i), (bit_of (_map other) i); reflexivity.
Qed.

Lemma X14_witness :
  contains (set_union bm70 bm70_dirty) bm70 = true /\
  contains (set_union bm70 bm70_dirty) bm70_dirty = true /\
  contains bm70 (set_intersection bm70 bm70_dirty) = true /\
  contains bm70_dirty (set_intersection bm70 bm70_dirty) = true /\
  contains bm70 (set_difference bm70 bm70_dirty) = true /\
  intersects (set_difference bm70 bm70_dirty) bm70_dirty = false.
Proof.
  apply (X14_set_algebra_and_queries bm70 bm70_dirty).
  - exact bm70_wf.
  - apply wfb_wf. vm_compute. reflexivity.
  - reflexivity.
Defined.

(** ** Counting *)

(** X15: for every 64-bit word, [num_set_bits] returns (its two nested
    loops end) and the result is the number of set bits of the word. *)
Theorem X15_num_set_bits_counts_word w :
  0 <= w < 2 ^ BitsPerWord -> num_set_bits w = Some (word_bits 64 0 w).
Proof. apply num_set_bits_spec. Qed.

Lemma X15_witness : num_set_bits 1000 = Some (word_bits 64 0 1000).
Proof.
  apply (X15_num_set_bits_counts_word 1000).
  rewrite pow64. lia.
Defined.

(** X16: [init_pop_count_table] returns a table of 256 entries, and for
    every byte value [c] the entry read by [num_set_bits_from_table] is
    the number of set bits of [c], which is also what [num_set_bits(c)]
    returns. *)
Theorem X16_pop_count_table_entries :
  exists table,
    init_pop_count_table = Some table /\
    length table = 256%nat /\
    forall c, 0 <= c < 256 ->
      num_set_bits_from_table table c = word_bits 8 0 c /\
      num_set_bits c = Some (num_set_bits_from_table table c).
Proof.
  destruct init_pop_count_table_ok as (table & Ht & Hok).
  exists table. split; [exact Ht|]. split.
  - unfold pop_count_table_ok in Hok. apply andb_true_iff in Hok.
    destruct Hok as (Hl & _). now apply Nat.eqb_eq in Hl.
  - intros c Hc. rewrite (table_lookup table c Hok Hc). split; [reflexivity|].
    rewrite num_set_bits_spec by (rewrite pow64; lia). f_equal.
    change 64%nat with (8 + 56)%nat. rewrite word_bits_app.
    assert (Hz : forall n b, 8 <= b -> word_bits n b c = 0).
    { induction n as [|n IH]; intros b Hb; [reflexivity|].
      cbn [word_bits]. rewrite IH by lia.
      assert (Hb' : Z.testbit c b = false).
      { destruct (Z.eq_dec c 0) as [-> | Hn]; [apply Z.bits_0|].
        apply Z.bits_above_log2; [lia|].
        apply Z.lt_le_trans with 8; [|lia]. apply Z.log2_lt_pow2; lia. }
      rewrite Hb'. reflexivity. }
    rewrite (Hz 56%nat) by (simpl; lia). lia.
Qed.

(** X17: on a well-formed bitmap, [count_one_bits] returns the number of
    set positions below [size] plus the number of set storage bits from
    [size] to the end of the last word. *)
Theorem X17_count_one_bits_counts_storage bm :
  wf bm ->
  count_one_bits bm =
  Some (count_bits (Z.to_nat (_size bm)) 0 (_map bm) +
        count_bits (Z.to_nat (64 * size_in_words bm - _size bm)) (_size bm) (_map bm)).
Proof.
  intros Hwf. rewrite count_one_bits_spec by assumption.
  rewrite count_storage_split by assumption. reflexivity.
Qed.

Lemma X17_witness :
  count_one_bits bm70_dirty =
  Some (count_bits (Z.to_nat (_size bm70_dirty)) 0 (_map bm70_dirty) +
        count_bits (Z.to_nat (64 * size_in_words bm70_dirty - _size bm70_dirty))
                   (_size bm70_dirty) (_map bm70_dirty)).
Proof.
  apply (X17_count_one_bits_counts_storage bm70_dirty).
  apply wfb_wf. vm_compute. reflexivity.
Defined.

(** X18: on a well-formed bitmap with no storage bit set at or beyond
    [size], [count_one_bits] returns the number of set positions below
    [size]; it returns 0 exactly when [is_empty] holds and [size] exactly
    when [is_full] holds. *)
Theorem X18_count_one_bits_with_clean_tail bm :
  wf bm -> (forall i, _size bm <= i -> at_ (_map bm) i = false) ->
  count_one_bits bm = Some (count_bits (Z.to_nat (_size bm)) 0 (_map bm)) /\
  (is_empty bm = true <-> count_one_bits bm = Some 0) /\
  (is_full bm = true <-> count_one_bits bm = Some (_size bm)).
Proof.
  intros Hwf Hclean. pose proof Hwf as (H0 & _).
  assert (Hc : count_one_bits bm = Some (count_bits (Z.to_nat (_size bm)) 0 (_map bm))).
  { apply count_one_bits_clean; [assumption|].
    intros i Hi. rewrite <- at_bit_of. now apply Hclean. }
  split; [exact Hc|]. rewrite Hc. split.
  - rewrite is_empty_spec by assumption.
    split.
    + intros H. f_equal. apply count_bits_zero_iff. intros i Hi. apply H. lia.
    + intros H. injection H as H. intros i Hi.
      apply (proj1 (count_bits_zero_iff _ _ _) H). lia.
  - rewrite is_full_spec by assumption.
    split.
    + intros H. f_equal. rewrite <- (Z2Nat.id (_size bm)) at 2 by lia.
      apply count_bits_full_iff. intros i Hi. apply H. lia.
    + intros H. injection H as H. intros i Hi.
      rewrite <- (Z2Nat.id (_size bm)) in H at 2 by lia.
      apply (proj1 (count_bits_full_iff _ _ _) H). lia.
Qed.

Lemma X18_witness :
  count_one_bits bm70 = Some (count_bits (Z.to_nat (_size bm70)) 0 (_map bm70)) /\
  (is_empty bm70 = true <-> count_one_bits bm70 = Some 0) /\
  (is_full bm70 = true <-> count_one_bits bm70 = Some (_size bm70)).
Proof.
  apply (X18_count_one_bits_with_clean_tail bm70 bm70_wf).
  intros i Hi. rewrite at_bit_of.
  apply (tail_clean_by_shift bm70 bm70_wf); [vm_compute; reflexivity | exact Hi].
Defined.

(** ** Allocation, resizing, clearing *)

(** X19: a bitmap built with [clear] (the constructors through
    [allocate]) is well-formed and has every bit clear, the storage bits
    beyond [size] included, whatever the allocator's block held: it is
    empty and [count_one_bits] returns 0.  One block of
    [calc_size_in_words(size)] words is allocated, none for a size of 0,
    and nothing is released. *)
Theorem X19_new_bitmap_is_clear a n :
  allocator_ok a -> 0 <= n -> n + BitsPerWord <= 2 ^ BitsPerWord ->
  wf (new_bitmap a n true) /\
  _size (new_bitmap a n true) = n /\
  (forall i, at_ (_map (new_bitmap a n true)) i = false) /\
  is_empty (new_bitmap a n true) = true /\
  count_one_bits (new_bitmap a n true) = Some 0 /\
  snd (allocate a n true) =
    if 0 <? calc_size_in_words n then [Allocated (calc_size_in_words n)] else [].
Proof.
  intros Ha Hn0 Hn1.
  destruct (allocate_clear_words a n Ha Hn0 Hn1) as (L & W & A).
  assert (Hwf : wf (new_bitmap a n true)).
  { unfold new_bitmap, wf, size_in_words. simpl. repeat split; assumption. }
  destruct (all_clear_facts (new_bitmap a n true) Hwf A) as (B & E & C).
  split; [exact Hwf|]. split; [reflexivity|]. split; [exact B|].
  split; [exact E|]. split; [exact C|]. apply allocate_events.
Qed.

Lemma X19_witness :
  wf (new_bitmap stale_cheap 70 true) /\
  _size (new_bitmap stale_cheap 70 true) = 70 /\
  (forall i, at_ (_map (new_bitmap stale_cheap 70 true)) i = false) /\
  is_empty (new_bitmap stale_cheap 70 true) = true /\
  count_one_bits (new_bitmap stale_cheap 70 true) = Some 0 /\
  snd (allocate stale_cheap 70 true) =
    if 0 <? calc_size_in_words 70 then [Allocated (calc_size_in_words 70)] else [].
Proof.
  apply (X19_new_bitmap_is_clear stale_cheap 70).
  - apply stale_allocator_ok.
  - lia.
  - rewrite pow64. unfold BitsPerWord. lia.
Defined.

(** X20: [reinitialize(new_size, clear)] with [clear] set first drops
    the array ([resize] to 0 bits), after which the two assertions of
    [initialize] hold, and ends with a well-formed bitmap of the new size
    in which every bit is clear, the storage bits beyond [size] included,
    whatever the old bitmap was and whatever the allocator's block held.
    The old array, when there is one, goes to the allocator's [free]
    before the new block is requested. *)
Theorem X20_reinitialize_clears a bm N :
  allocator_ok a -> 0 <= N -> N + BitsPerWord <= 2 ^ BitsPerWord ->
  let bm' := fst (reinitialize a bm N true) in
  initialize_precondition (fst (resize a bm 0 false)) /\
  wf bm' /\ _size bm' = N /\
  (forall i, at_ (_map bm') i = false) /\
  is_empty bm' = true /\
  count_one_bits bm' = Some 0 /\
  snd (reinitialize a bm N true) =
    (if not_null (_map bm) then allocator_free a (size_in_words bm) else []) ++
    (if 0 <? calc_size_in_words N then [Allocated (calc_size_in_words N)] else []).
Proof.
  intros Ha HN0 HN1. cbv zeta.
  assert (E : resize a bm 0 false =
              (mkBitMap [] 0,
               if not_null (_map bm) then allocator_free a (size_in_words bm) else [])).
  { unfold resize. rewrite reallocate_to_zero. reflexivity. }
  assert (R : reinitialize a bm N true =
              (new_bitmap a N true,
               (if not_null (_map bm) then allocator_free a (size_in_words bm) else []) ++
               snd (allocate a N true))).
  { unfold reinitialize, initialize. rewrite E.
    unfold new_bitmap, allocate, resize. simpl _map. simpl _size.
    destruct (reallocate a [] 0 N true) as [m ev]. reflexivity. }
  split; [rewrite E; split; reflexivity|].
  rewrite R. simpl fst. simpl snd.
  destruct (allocate_clear_words a N Ha HN0 HN1) as (L & W & A).
  pose proof (new_bitmap_wf a N true Ha HN0 HN1) as Hwf.
  destruct (all_clear_facts (new_bitmap a N true) Hwf A) as (B & Em & C).
  split; [exact Hwf|]. split; [reflexivity|]. split; [exact B|].
  split; [exact Em|]. split; [exact C|]. rewrite allocate_events. reflexivity.
Qed.

Lemma X20_witness :
  let bm' := fst (reinitialize (recycling_cheap [all_ones; 5]) bm70_dirty 100 true) in
  initialize_precondition (fst (resize (recycling_cheap [all_ones; 5]) bm70_dirty 0 false)) /\
  wf bm' /\ _size bm' = 100 /\
  (forall i, at_ (_map bm') i = false) /\
  is_empty bm' = true /\
  count_one_bits bm' = Some 0 /\
  snd (reinitialize (recycling_cheap [all_ones; 5]) bm70_dirty 100 true) =
    (if not_null (_map bm70_dirty)
     then allocator_free (recycling_cheap [all_ones; 5]) (size_in_words bm70_dirty)
     else []) ++
    (if 0 <? calc_size_in_words 100 then [Allocated (calc_size_in_words 100)] else []).
Proof.
  apply (X20_reinitialize_clears (recycling_cheap [all_ones; 5]) bm70_dirty 100).
  - apply recycling_allocator_ok.
    apply Forall_cons. split; [apply all_ones_range|].
    apply Forall_cons. split; [rewrite pow64; lia | apply Forall_nil; exact I].
  - lia.
  - rewrite pow64. unfold BitsPerWord. lia.
Defined.

(** X21: [free] gets NULL back from [reallocate] for every allocator,
    array and size (the assertion in it holds; the same with the other
    value of [clear]), and requests nothing.  With the C-heap allocator
    the destructor of a well-formed bitmap releases its
    [size_in_words()] words when there are any and nothing otherwise, so
    a bitmap that is constructed and then destroyed has released exactly
    what it allocated; [a1] is the allocator as the constructor finds it,
    [a2] as the destructor does. *)
Theorem X21_free_releases_the_array a1 a2 bm n clear :
  alloc_kind a2 = CHeapBitMapAllocator -> allocator_ok a1 -> wf bm ->
  0 <= n -> n + BitsPerWord <= 2 ^ BitsPerWord ->
  (forall a m s c, fst (reallocate a m s 0 c) = [] /\ fst (free_map a m s) = []) /\
  destroy a2 bm =
    ([], if 0 <? size_in_words bm then [Released (size_in_words bm)] else []) /\
  snd (allocate a1 n clear) ++ snd (destroy a2 (new_bitmap a1 n clear)) =
    if 0 <? calc_size_in_words n
    then [Allocated (calc_size_in_words n); Released (calc_size_in_words n)]
    else [].
Proof.
  intros Hk Ha Hwf Hn0 Hn1.
  assert (D : forall x, wf x ->
            destroy a2 x =
            ([], if 0 <? size_in_words x then [Released (size_in_words x)] else [])).
  { intros x Hx. unfold destroy, free_map. rewrite reallocate_to_zero.
    destruct Hx as (_ & _ & Hlen & _). rewrite not_null_length, Hlen.
    unfold allocator_free. rewrite Hk. reflexivity. }
  split; [|split].
  - intros a m s c. unfold free_map. rewrite !reallocate_to_zero. split; reflexivity.
  - now apply D.
  - rewrite allocate_events, (D _ (new_bitmap_wf a1 n clear Ha Hn0 Hn1)).
    unfold size_in_words, new_bitmap. simpl _size. simpl snd.
    destruct (0 <? calc_size_in_words n); reflexivity.
Qed.

Lemma X21_witness :
  (forall a m s c, fst (reallocate a m s 0 c) = [] /\ fst (free_map a m s) = []) /\
  destroy (recycling_cheap []) bm70 =
    ([], if 0 <? size_in_words bm70 then [Released (size_in_words bm70)] else []) /\
  snd (allocate stale_cheap 200 false) ++
  snd (destroy (recycling_cheap []) (new_bitmap stale_cheap 200 false)) =
    if 0 <? calc_size_in_words 200
    then [Allocated (calc_size_in_words 200); Released (calc_size_in_words 200)]
    else [].
Proof.
  apply (X21_free_releases_the_array stale_cheap (recycling_cheap []) bm70 200 false).
  - reflexivity.
  - apply stale_allocator_ok.
  - exact bm70_wf.
  - lia.
  - rewrite pow64. unfold BitsPerWord. lia.
Defined.

(** X22: growing a well-formed bitmap with [resize] and then resizing it
    back to its old size gives the bitmap it was, storage included,
    whatever the two [clear] arguments are and whatever the blocks of the
    two requests held; [a1] is the allocator as the first call finds it,
    [a2] as the second does. *)
Theorem X22_resize_grow_and_back a1 a2 bm N clear1 clear2 :
  allocator_ok a1 -> allocator_ok a2 ->
  wf bm -> _size bm <= N -> N + BitsPerWord <= 2 ^ BitsPerWord ->
  fst (resize a2 (fst (resize a1 bm N clear1)) (_size bm) clear2) = bm.
Proof.
  intros Ha1 Ha2 Hwf HN HN1. pose proof Hwf as (H0 & H1 & Hlen & Hok).
  assert (HN0 : 0 <= N) by lia.
  destruct (resize_words a1 bm N clear1 Ha1 Hwf HN0 HN1) as (Hwf1 & A1).
  destruct (resize_words a2 (fst (resize a1 bm N clear1)) (_size bm) clear2 Ha2 Hwf1 H0 H1)
    as (Hwf2 & A2).
  assert (Hs1 : size_in_words (fst (resize a1 bm N clear1)) = calc_size_in_words N)
    by (rewrite resize_fst; reflexivity).
  assert (Hmono : calc_size_in_words (_size bm) <= calc_size_in_words N).
  { rewrite !calc_size_in_words_div by lia. zdiv. }
  apply BitMap_ext.
  - rewrite resize_fst. reflexivity.
  - apply words_ext.
    + destruct Hwf2 as (_ & _ & L2 & _).
      unfold size_in_words in L2. rewrite resize_fst in L2 at 2. simpl _size in L2.
      unfold size_in_words in Hlen. lia.
    + intros j Hj.
      destruct Hwf2 as (_ & _ & L2 & _).
      unfold size_in_words in L2. rewrite resize_fst in L2 at 2. simpl _size in L2.
      rewrite A2 by lia. rewrite Hs1.
      destruct (Z.ltb_spec j (Z.min (calc_size_in_words N) (calc_size_in_words (_size bm))));
        [|lia].
      rewrite A1 by lia. fold (size_in_words bm).
      destruct (Z.ltb_spec j (Z.min (size_in_words bm) (calc_size_in_words N)));
        [reflexivity | unfold size_in_words in *; lia].
Qed.

Lemma X22_witness :
  fst (resize (recycling_cheap [5; 7])
         (fst (resize stale_cheap bm70 200 false)) (_size bm70) true) = bm70.
Proof.
  apply (X22_resize_grow_and_back stale_cheap (recycling_cheap [5; 7]) bm70 200 false true).
  - apply stale_allocator_ok.
  - apply recycling_allocator_ok.
    apply Forall_cons. split; [rewrite pow64; lia|].
    apply Forall_cons. split; [rewrite pow64; lia | apply Forall_nil; exact I].
  - exact bm70_wf.
  - simpl. lia.
  - rewrite pow64. unfold BitsPerWord. lia.
Defined.

(** X23: [clear_large], the bulk clear of the words
    [0, size_in_words()), on a well-formed bitmap keeps it well-formed
    and of the same size and clears every bit, the storage bits beyond
    [size] included: afterwards the bitmap is empty and [count_one_bits]
    returns 0. *)
Theorem X23_clear_large_clears_everything bm :
  wf bm ->
  wf (clear_large bm) /\
  _size (clear_large bm) = _size bm /\
  (forall i, at_ (_map (clear_large bm)) i = false) /\
  is_empty (clear_large bm) = true /\
  count_one_bits (clear_large bm) = Some 0.
Proof.
  intros Hwf. destruct (clear_large_words bm Hwf) as (Hwf' & A).
  destruct (all_clear_facts (clear_large bm) Hwf' A) as (B & E & C).
  split; [exact Hwf'|]. split; [reflexivity|]. split; [exact B|]. split; assumption.
Qed.

Lemma X23_witness :
  wf (clear_large bm70_dirty) /\
  _size (clear_large bm70_dirty) = _size bm70_dirty /\
  (forall i, at_ (_map (clear_large bm70_dirty)) i = false) /\
  is_empty (clear_large bm70_dirty) = true /\
  count_one_bits (clear_large bm70_dirty) = Some 0.
Proof.
  apply (X23_clear_large_clears_everything bm70_dirty).
  apply wfb_wf. vm_compute. reflexivity.
Defined.

(** ** [iterate] *)

(** X24: with a closure that leaves the words alone and always answers
    [true], [iterate(closure, left, right)] on a well-formed bitmap and a
    valid range returns [true], leaves the words as they were, and calls
    the closure exactly on the set positions of [left, right), each once
    and in increasing order. *)
Theorem X24_iterate_visits_every_set_bit {S : Type} (blk : @BitMapClosure S)
    bm left right (s : S) :
  wf bm -> valid_range bm left right -> watching_closure blk ->
  let r := iterate blk bm left right s in
  fst r = true /\
  words (snd r) = _map bm /\
  calls (snd r) =
    map (fun o => (o, true)) (set_positions (_map bm) left (Z.to_nat (right - left))) /\
  (forall o, In o (map fst (calls (snd r))) <-> left <= o < right /\ at_ (_map bm) o = true) /\
  increasing_from left (map fst (calls (snd r))).
Proof.
  intros Hwf Hv Hw r. subst r.
  rewrite (iterate_visit blk (watching_closure_ok blk Hw) bm left right s Hwf Hv).
  destruct (visit_bits_watching blk Hw (Z.to_nat (right - left)) left (mkIter s (_map bm) []))
    as (H1 & H2 & H3).
  simpl in H2, H3. rewrite H1, H2, H3.
  assert (Hfst : forall l : list Z, map fst (map (fun o => (o, true)) l) = l).
  { induction l as [|x l IH]; [reflexivity|]. simpl. now rewrite IH. }
  rewrite Hfst. destruct Hv as (Hl & Hlr & Hr).
  split; [reflexivity|]. split; [reflexivity|]. split; [reflexivity|]. split.
  - intros o. rewrite set_positions_In.
    replace (left + Z.of_nat (Z.to_nat (right - left))) with right by lia. reflexivity.
  - apply set_positions_increasing.
Qed.

Lemma X24_witness :
  let r := iterate log_closure bm70 3 68 [] in
  fst r = true /\
  words (snd r) = _map bm70 /\
  calls (snd r) =
    map (fun o => (o, true)) (set_positions (_map bm70) 3 (Z.to_nat (68 - 3))) /\
  (forall o, In o (map fst (calls (snd r))) <-> 3 <= o < 68 /\ at_ (_map bm70) o = true) /\
  increasing_from 3 (map fst (calls (snd r))).
Proof.
  apply (X24_iterate_visits_every_set_bit log_closure bm70 3 68 [] bm70_wf).
  - unfold valid_range, bm70; simpl; lia.
  - intros s offset w. split; reflexivity.
Defined.

(** X25: when no bit of [left, right) is set (in particular when
    [left = right]), [iterate] returns [true] without calling the closure
    and leaves the closure's state and the words as they were. *)
Theorem X25_iterate_over_clear_range {S : Type} (blk : @BitMapClosure S)
    bm left right (s : S) :
  wf bm -> valid_range bm left right -> closure_ok blk ->
  (forall i, left <= i < right -> at_ (_map bm) i = false) ->
  iterate blk bm left right s = (true, mkIter s (_map bm) []).
Proof.
  intros Hwf Hv Hblk Hclear.
  rewrite (iterate_visit blk Hblk bm left right s Hwf Hv).
  apply visit_bits_clear. simpl. intros i Hi. apply Hclear.
  destruct Hv as (Hl & Hlr & Hr). lia.
Qed.

Lemma X25_witness :
  iterate skip_next_closure bm70 10 64 [] = (true, mkIter [] (_map bm70) []).
Proof.
  apply (X25_iterate_over_clear_range skip_next_closure bm70 10 64 [] bm70_wf).
  - unfold valid_range, bm70; simpl; lia.
  - exact skip_next_closure_ok.
  - intros i Hi. rewrite at_bit_of. unfold bit_of.
    replace (i / 64) with 0 by zdiv. apply Z.bits_0.
Defined.

(** ** The partial last word *)

(** X26: for a number of tail bits below 64 and 64-bit words,
    [tail_mask(r)] is [2^r - 1]; [tail_of_map(value, r)] is [value mod
    2^r]; [merge_tail_of_map(new, old, r)] has the bits of [new] below
    position [r] and the bits of [old] from [r] on, so its tail is the
    tail of [new], and merging a word into itself changes nothing. *)
Theorem X26_tail_word_operations new_value old_value r :
  0 <= r < 64 ->
  0 <= new_value < 2 ^ BitsPerWord -> 0 <= old_value < 2 ^ BitsPerWord ->
  tail_mask r = 2 ^ r - 1 /\
  tail_of_map new_value r = new_value mod 2 ^ r /\
  (forall j, 0 <= j < 64 ->
     Z.testbit (merge_tail_of_map new_value old_value r) j =
     if j <? r then Z.testbit new_value j else Z.testbit old_value j) /\
  tail_of_map (merge_tail_of_map new_value old_value r) r = tail_of_map new_value r /\
  merge_tail_of_map old_value old_value r = old_value.
Proof.
  intros Hr Hn Ho.
  assert (Hm : tail_mask r = 2 ^ r - 1).
  { unfold tail_mask. rewrite Z.shiftl_1_l.
    assert (Hp : 0 < 2 ^ r < 2 ^ BitsPerWord).
    { split; [apply Z.pow_pos_nonneg; lia|].
      apply Z.pow_lt_mono_r; unfold BitsPerWord; lia. }
    rewrite (wrap_small (2 ^ r)) by lia. apply wrap_small. lia. }
  split; [exact Hm|]. split; [|split; [|split]].
  - unfold tail_of_map. rewrite Hm.
    replace (2 ^ r - 1) with (Z.ones r) by (rewrite Z.ones_equiv; lia).
    apply Z.land_ones. lia.
  - intros j Hj. now apply testbit_merge_tail.
  - apply word_ext.
    + apply land_range. now apply merge_tail_range.
    + now apply land_range.
    + intros j Hj. rewrite !testbit_tail_of_map by lia.
      rewrite testbit_merge_tail by lia.
      destruct (j <? r); reflexivity.
  - apply word_ext; [now apply merge_tail_range | assumption |].
    intros j Hj. rewrite testbit_merge_tail by lia. destruct (j <? r); reflexivity.
Qed.

Lemma X26_witness :
  tail_mask 6 = 2 ^ 6 - 1 /\
  tail_of_map 1000 6 = 1000 mod 2 ^ 6 /\
  (forall j, 0 <= j < 64 ->
     Z.testbit (merge_tail_of_map 1000 all_ones 6) j =
     if j <? 6 then Z.testbit 1000 j else Z.testbit all_ones j) /\
  tail_of_map (merge_tail_of_map 1000 all_ones 6) 6 = tail_of_map 1000 6 /\
  merge_tail_of_map all_ones all_ones 6 = all_ones.
Proof.
  apply (X26_tail_word_operations 1000 all_ones 6).
  - lia.
  - rewrite pow64. lia.
  - apply all_ones_range.
Defined.
